(** * HTTP Observatory: the full-details scan endpoints

    A shallow embedding of [src/api/v2/scan/full-details.js] (the
    [/scanFullDetails] endpoint) and of the batch endpoint
    [/scanBatchFullDetails] with its bounded-concurrency runner, together
    with the properties their specification states about them.

    Layout: part I holds the definitions (JavaScript string primitives, the
    data model, the collaborators the endpoints call, the endpoints
    themselves, the batch runner as a transition system, the client
    script); part II holds the
    lemmas about them; part III states and proves the properties of the
    specification, C1 to C10; part IV proves further properties of the
    same code and of the client script [scripts/concurrent-scan.sh],
    X1 to X24. *)

From Stdlib Require Import ZArith NArith Ascii String List Lia.
From Stdlib Require Import DecimalString Decimal DecimalN.
From stdpp Require Import base option gmap strings list.

Local Open Scope Z_scope.

(* ===================================================================== *)
(** * Part I: definitions                                                 *)
(* ===================================================================== *)

(** ** JavaScript string primitives

    A string is a sequence of code units; a code unit is read as a code
    point in the range U+0000..U+00FF (Rocq's [ascii]), which covers every
    character a host name, port or URL path is made of. *)

Module Js.

Definition code (c : ascii) : N := N_of_ascii c.

(** [WhiteSpace] and [LineTerminator] code points below U+0100:
    TAB, LF, VT, FF, CR, SP and NBSP. *)
Definition isWhiteSpace (c : ascii) : bool :=
  let n := code c in
  (((9 <=? n) && (n <=? 13)) || (n =? 32) || (n =? 160))%N.

(** [String.prototype.trimStart] *)
Fixpoint trimStart (s : string) : string :=
  match s with
  | EmptyString => EmptyString
  | String c s' => if isWhiteSpace c then trimStart s' else s
  end.

(** [String.prototype.trimEnd] *)
Fixpoint trimEnd (s : string) : string :=
  match s with
  | EmptyString => EmptyString
  | String c s' =>
      match trimEnd s' with
      | EmptyString => if isWhiteSpace c then EmptyString else String c EmptyString
      | t => String c t
      end
  end.

(** [String.prototype.trim] *)
Definition trim (s : string) : string := trimEnd (trimStart s).

(** Lower-case mapping of one code point: A..Z and the Latin-1 capitals
    U+00C0..U+00DE (the multiplication sign U+00D7 apart) move up by 32. *)
Definition isUpper (c : ascii) : bool :=
  let n := code c in
  (((65 <=? n) && (n <=? 90)) ||
   ((192 <=? n) && (n <=? 222) && negb (n =? 215)))%N.

Definition lowerChar (c : ascii) : ascii :=
  if isUpper c then ascii_of_N (code c + 32) else c.

(** [String.prototype.toLowerCase] *)
Fixpoint toLowerCase (s : string) : string :=
  match s with
  | EmptyString => EmptyString
  | String c s' => String (lowerChar c) (toLowerCase s')
  end.

(** Characters [encodeURIComponent] leaves alone:
    [A-Z a-z 0-9 - _ . ! ~ * ' ( )]. *)
Definition isUnreserved (c : ascii) : bool :=
  let n := code c in
  (((65 <=? n) && (n <=? 90)) || ((97 <=? n) && (n <=? 122)) ||
   ((48 <=? n) && (n <=? 57)) ||
   (n =? 45) || (n =? 95) || (n =? 46) || (n =? 33) || (n =? 126) ||
   (n =? 42) || (n =? 39) || (n =? 40) || (n =? 41))%N.

Definition hexDigit (n : N) : ascii :=
  if (n <? 10)%N then ascii_of_N (48 + n) else ascii_of_N (55 + n).

(** One escaped octet, [%XX] with upper-case hexadecimal digits. *)
Definition pct (n : N) : string :=
  String "%" (String (hexDigit (n / 16)) (String (hexDigit (n mod 16)) EmptyString)).

(** A reserved code point is escaped through its UTF-8 octets: one octet
    below U+0080, two from U+0080 to U+00FF. *)
Definition encodeChar (c : ascii) : string :=
  let n := code c in
  if isUnreserved c then String c EmptyString
  else if (n <? 128)%N then pct n
  else pct (192 + n / 64) +:+ pct (128 + n mod 64).

(** [encodeURIComponent] *)
Fixpoint encodeURIComponent (s : string) : string :=
  match s with
  | EmptyString => EmptyString
  | String c s' => encodeChar c +:+ encodeURIComponent s'
  end.

(** A string that does not begin with white space. *)
Definition startsClean (s : string) : bool :=
  match s with
  | EmptyString => true
  | String c _ => negb (isWhiteSpace c)
  end.

(** Truthiness of a possibly undefined string: [undefined] and the empty
    string are falsy. *)
Definition truthy (o : option string) : bool :=
  match o with
  | Some s => negb (String.eqb s EmptyString)
  | None => false
  end.

(** [a || b] on strings. *)
Definition orElse (a : option string) (b : string) : string :=
  match a with
  | Some s => if String.eqb s EmptyString then b else s
  | None => b
  end.

(** [String(n)] for an integer the engine holds exactly and prints in
    full (up to 2^53 in magnitude): its decimal digits, after a minus sign
    when it is negative. *)
Definition numberToString (n : Z) : string :=
  NilZero.string_of_int (Z.to_int n).

End Js.

(** The normalisation both endpoints apply to the host they are given:
    [query.host.trim().toLowerCase()] and [url.trim().toLowerCase()]. *)
Definition normalize (url : string) : string := Js.toLowerCase (Js.trim url).

(** ** Thrown values

    What a [catch] clause receives: an object whose [name], [message] and
    [constructor.name] may each be undefined ([None]).  The values [null]
    and [undefined] themselves are never thrown by the code modelled here. *)
Record JsError := {
  err_name : option string;
  err_ctor : option string;
  err_message : option string
}.

(** The outcome of a call: [inl e] when it throws [e], [inr v] when it
    returns [v]. *)
Definition Outcome (A : Type) : Type := (JsError + A)%type.

(** ** Site identity *)

Record Site := {
  hostname : string;
  port : option N;
  path : string          (* the empty string when the site has no path *)
}.

Module SiteModel.

(** [cutAt stop s] splits [s] before the first character satisfying
    [stop]: the second component is empty or starts with that character. *)
Fixpoint cutAt (stop : ascii → bool) (s : string) : string * string :=
  match s with
  | EmptyString => (EmptyString, EmptyString)
  | String c s' =>
      if stop c then (EmptyString, s)
      else let '(a, b) := cutAt stop s' in (String c a, b)
  end.

Fixpoint stripPrefix (p s : string) : option string :=
  match p, s with
  | EmptyString, _ => Some s
  | String a p', String b s' => if Ascii.eqb a b then stripPrefix p' s' else None
  | String _ _, EmptyString => None
  end.

Fixpoint existsChar (f : ascii → bool) (s : string) : bool :=
  match s with
  | EmptyString => false
  | String c s' => f c || existsChar f s'
  end.

Fixpoint forallChar (f : ascii → bool) (s : string) : bool :=
  match s with
  | EmptyString => true
  | String c s' => f c && forallChar f s'
  end.

Fixpoint lastChar (s : string) : option ascii :=
  match s with
  | EmptyString => None
  | String c EmptyString => Some c
  | String _ s' => lastChar s'
  end.

(** The pieces of [s] between occurrences of [sep]. *)
Fixpoint splitOn (sep : ascii) (s : string) : list string :=
  match s with
  | EmptyString => [EmptyString]
  | String c s' =>
      if Ascii.eqb c sep then EmptyString :: splitOn sep s'
      else match splitOn sep s' with
           | [] => [String c EmptyString]
           | l :: ls => String c l :: ls
           end
  end.

Definition isDigit (c : ascii) : bool :=
  let n := Js.code c in ((48 <=? n) && (n <=? 57))%N.

Definition isLetter (c : ascii) : bool :=
  let n := Js.code c in
  (((65 <=? n) && (n <=? 90)) || ((97 <=? n) && (n <=? 122)))%N.

Definition isHyphen (c : ascii) : bool := Ascii.eqb c "-".

(** The characters a host name is made of. *)
Definition isHostChar (c : ascii) : bool :=
  (isLetter c || isDigit c || isHyphen c) || Ascii.eqb c ".".

(** A label: letters, digits and hyphens, not empty, neither starting nor
    ending with a hyphen. *)
Definition validLabel (l : string) : bool :=
  match l with
  | EmptyString => false
  | String c _ =>
      forallChar (λ x, isLetter x || isDigit x || isHyphen x) l
      && negb (isHyphen c)
      && negb (from_option isHyphen false (lastChar l))
  end.

(** The host-name grammar: valid labels separated by dots, with at least
    one dot unless the host is [localhost]. *)
Definition validHostname (h : string) : bool :=
  let labels := splitOn "." h in
  forallb validLabel labels
  && ((1 <? length labels)%nat || String.eqb h "localhost").

(** A bare IPv4 literal: four dot-separated groups of digits. *)
Definition isIpLiteral (h : string) : bool :=
  let labels := splitOn "." h in
  (length labels =? 4)%nat
  && forallb (λ l, negb (String.eqb l EmptyString) && forallChar isDigit l) labels.

Definition stripScheme (s : string) : string :=
  match stripPrefix "https://" s with
  | Some r => r
  | None => from_option id s (stripPrefix "http://" s)
  end.

Definition isQueryOrFragment (c : ascii) : bool :=
  Ascii.eqb c "?" || Ascii.eqb c "#".

Definition printPort (p : N) : string :=
  NilEmpty.string_of_uint (N.to_uint p).

Definition parsePort (digits : string) : option N :=
  match NilEmpty.uint_of_string digits with
  | Some d =>
      let p := N.of_uint d in
      if ((1 <=? p) && (p <=? 65535))%N then Some p else None
  | None => None
  end.

Definition invalidHostname (input : string) : JsError :=
  {| err_name := Some "invalid-hostname";
     err_ctor := Some "InvalidHostNameError";
     err_message := Some (input +:+ " is invalid") |}.

Definition invalidPort (input : string) : JsError :=
  {| err_name := Some "invalid-port";
     err_ctor := Some "InvalidPortError";
     err_message := Some (input +:+ " has an invalid port") |}.

(** Modelled from the spec: [Site.fromSiteString] of [src/site.js], which
    is not part of the sources at hand.  Section 4.1: the canonicaliser
    strips a scheme ([http://], [https://]), strips query and fragment,
    lower-cases the host, preserves a non-empty path verbatim and parses
    an optional port; it rejects inputs that are empty, contain
    whitespace, fail the host-name grammar, are bare IP literals, or give
    a port outside 1..65535.  The specification fixes the error names
    ([invalid-hostname], [invalid-port]) and leaves the messages open. *)
Definition fromSiteString (input : string) : Outcome Site :=
  if String.eqb input EmptyString || existsChar Js.isWhiteSpace input
  then inl (invalidHostname input)
  else
    let s1 := stripScheme input in
    let s2 := fst (cutAt isQueryOrFragment s1) in
    let '(hostport, pth) := cutAt (λ c, Ascii.eqb c "/") s2 in
    let '(h, portpart) := cutAt (λ c, Ascii.eqb c ":") hostport in
    let host := Js.toLowerCase h in
    if validHostname host && negb (isIpLiteral host) then
      match portpart with
      | EmptyString =>
          inr {| hostname := host; port := None; path := pth |}
      | String _ digits =>
          match parsePort digits with
          | Some p => inr {| hostname := host; port := Some p; path := pth |}
          | None => inl (invalidPort input)
          end
      end
    else inl (invalidHostname input).

(** Modelled from the spec: [Site.prototype.asSiteKey] of [src/site.js]:
    the derived key [host[:port][/path]] of section 3. *)
Definition asSiteKey (s : Site) : string :=
  hostname s
  +:+ match port s with
      | Some p => ":" +:+ printPort p
      | None => EmptyString
      end
  +:+ path s.

(** The invariant of a [Site] (section 3): a lower-case host matching
    the grammar that is no IP literal, a port in 1..65535 if present, and
    a path that is absent or starts with a slash and holds neither
    white space nor a query or fragment. *)
Definition wellFormed (s : Site) : Prop :=
  validHostname (hostname s) = true
  ∧ isIpLiteral (hostname s) = false
  ∧ Js.toLowerCase (hostname s) = hostname s
  ∧ match port s with
    | Some p => (1 ≤ p ≤ 65535)%N
    | None => True
    end
  ∧ (path s = EmptyString ∨ ∃ rest, path s = String "/" rest)
  ∧ existsChar isQueryOrFragment (path s) = false
  ∧ existsChar Js.isWhiteSpace (path s) = false.

(** Canonicalisation of a user string: parse it and print the key. *)
Definition canonicalize (input : string) : option string :=
  match fromSiteString input with
  | inr s => Some (asSiteKey s)
  | inl _ => None
  end.

End SiteModel.

(** ** JSON values and scan results *)

#[local] Unset Elimination Schemes.

(** A JSON value.  Numbers are integers throughout the data handled
    here, each one the engine holds exactly (up to 2^53 in magnitude). *)
Inductive Json : Type :=
| JNull
| JBool (b : bool)
| JNum (n : Z)
| JStr (s : string)
| JArr (items : list Json)
| JObj (fields : list (string * Json)).

#[local] Set Elimination Schemes.

(** A test result is an object: [expectation], [result], [pass],
    [scoreModifier], [data], an optional [scoreDescription] and whatever
    else the test adds; its own enumerable properties form a finite map. *)
Definition TestResult : Type := gmap string Json.

(** The [scan] part of what the scanner returns (README, "Running a
    simple scan from the command line"). *)
Record ScanReport := {
  algorithmVersion : Z;
  grade : option string;
  error : option string;
  score : option Z;
  statusCode : option Z;
  testsFailed : Z;
  testsPassed : Z;
  testsQuantity : Z;
  responseHeaders : list (string * string)
}.

(** What [scan(site)] resolves to: [{ scan, tests }]. *)
Record ScanResult := {
  scan_report : ScanReport;
  scan_tests : gmap string TestResult
}.

(** A row of the [scans] table as the endpoints read it.  [start_time] is
    kept as seconds on the clock of the database. *)
Record ScanRow := {
  row_id : Z;
  row_site_key : string;
  row_start_time : Z;
  row_algorithm_version : Z;
  row_error : option string;
  row_grade : option string;
  row_score : option Z;
  row_status_code : option Z;
  row_tests_failed : Z;
  row_tests_passed : Z;
  row_tests_quantity : Z
}.

(** ** The world the endpoints act on

    The rows persisted so far (most recently inserted first), the clock,
    and the log of retrievals: the site key of every network scan
    performed, most recent first. *)
Record World := {
  db : list ScanRow;
  clock : Z;
  retrievals : list string
}.

(** A violation of the request-body schema of the batch endpoint. *)
Inductive SchemaViolation : Type :=
| BodyNotObject
| MissingUrls
| UrlsNotArray
| TooFewItems
| TooManyItems
| ItemNotString (index : nat).

(** What the endpoints take from outside: the configuration
    ([CONFIG.api.cooldown], [CONFIG.api.baseUrl]), the answer of the
    network to the [n]-th retrieval, the answer of the resolver, and the
    wording the error handler of the API gives a schema violation. *)
Record Env := {
  cooldown : Z;
  baseUrl : option string;
  scanner : Site → nat → Outcome ScanResult;
  resolves : string → bool;
  violationReport : SchemaViolation → string * string
}.

(** ** Asynchronous computations

    An [async] function runs without interruption up to its next [await];
    there it hands control back and is resumed in a later turn of the event
    loop, in whatever world the turns of others have left.  [Settled r] is
    a computation that has returned or thrown.  [Pending next after] is one
    that is suspended: resumed in world [w], its next uninterrupted stretch
    leaves the world [after w] and the computation [next w]. *)
Inductive Task (A : Type) : Type :=
| Settled (r : Outcome A)
| Pending (next : World → Task A) (after : World → World).

Arguments Settled {A} r.
Arguments Pending {A} next after.

(** [return a] *)
Definition ret {A} (a : A) : Task A := Settled (inr a).

(** A synchronous call that may throw. *)
Definition call {A} (r : Outcome A) : Task A := Settled r.

(** [await op]: one suspension, resumed with the outcome of [op]. *)
Definition await {A} (op : World → Outcome A * World) : Task A :=
  Pending (λ w, Settled (fst (op w))) (λ w, snd (op w)).

Fixpoint bind {A B} (t : Task A) (k : A → Task B) : Task B :=
  match t with
  | Settled (inl e) => Settled (inl e)
  | Settled (inr a) => k a
  | Pending next after => Pending (λ w, bind (next w) k) after
  end.

#[global] Instance Task_bind : MBind Task := λ A B k t, bind t k.

(** [try { t } catch (e) { handler e }] *)
Fixpoint tryCatch {A} (t : Task A) (handler : JsError → Task A) : Task A :=
  match t with
  | Settled (inl e) => handler e
  | Settled (inr a) => Settled (inr a)
  | Pending next after => Pending (λ w, tryCatch (next w) handler) after
  end.

(** Running a computation alone, every turn following the one before. *)
Fixpoint run {A} (t : Task A) (w : World) : Outcome A * World :=
  match t with
  | Settled r => (r, w)
  | Pending next after => run (next w) (after w)
  end.

(** ** What a computation can come to

    [CanSettle t r]: resumed in suitable worlds, [t] settles with [r]. *)
Inductive CanSettle {A} : Task A → Outcome A → Prop :=
| settle_now r : CanSettle (Settled r) r
| settle_later next after w r :
    CanSettle (next w) r → CanSettle (Pending next after) r.

(** A computation that never throws. *)
Fixpoint NeverThrows {A} (t : Task A) : Prop :=
  match t with
  | Settled (inl _) => False
  | Settled (inr _) => True
  | Pending next _ => ∀ w, NeverThrows (next w)
  end.

(** ** Collaborators of the endpoints *)

Definition logRetrieval (siteKey : string) (w : World) : World :=
  {| db := db w; clock := clock w; retrievals := siteKey :: retrievals w |}.

(** Modelled from the spec: [scan] of [src/scanner/index.js], which is not
    part of the sources at hand.  Section 2: the retriever is the only
    layer that performs I/O; one call is one retrieval, and what it yields
    (a report, or a thrown error) is the answer of the network. *)
Definition scan (env : Env) (site : Site) : Task ScanResult :=
  await (λ w, (scanner env site (length (retrievals w)),
               logRetrieval (SiteModel.asSiteKey site) w)).

(** [a] was started after [b]; rows started together are told apart by
    their serial id. *)
Definition startedAfter (a b : ScanRow) : bool :=
  (row_start_time b <? row_start_time a)
  || ((row_start_time b =? row_start_time a) && (row_id b <? row_id a)).

(** The row of [siteKey] with the latest start time. *)
Fixpoint latestRow (siteKey : string) (rows : list ScanRow) : option ScanRow :=
  match rows with
  | [] => None
  | r :: rest =>
      if String.eqb (row_site_key r) siteKey then
        match latestRow siteKey rest with
        | Some r' => if startedAfter r' r then Some r' else Some r
        | None => Some r
        end
      else latestRow siteKey rest
  end.

(** Modelled from the spec: [selectScanLatestScanByHost] of
    [src/database/repository.js], which is not part of the sources at
    hand.  Sections 5 and 6: the latest persisted row of the site key is
    returned when it is younger than [age] seconds, nothing otherwise. *)
Definition recentRow (siteKey : string) (age : Z) (w : World) : option ScanRow :=
  match latestRow siteKey (db w) with
  | Some r => if clock w - row_start_time r <? age then Some r else None
  | None => None
  end.

(** Modelled from the spec: the query itself, awaited by the endpoints;
    it reads the rows and changes nothing. *)
Definition selectScanLatestScanBySite (siteKey : string) (age : Z)
  : Task (option ScanRow) :=
  await (λ w, (inr (recentRow siteKey age w), w)).

Definition nextRowId (rows : list ScanRow) : Z :=
  1 + foldr (λ r m, Z.max (row_id r) m) 0 rows.

Definition summaryRow (w : World) (siteKey : string) (r : ScanReport) : ScanRow :=
  {| row_id := nextRowId (db w);
     row_site_key := siteKey;
     row_start_time := clock w;
     row_algorithm_version := algorithmVersion r;
     row_error := error r;
     row_grade := grade r;
     row_score := score r;
     row_status_code := statusCode r;
     row_tests_failed := testsFailed r;
     row_tests_passed := testsPassed r;
     row_tests_quantity := testsQuantity r |}.

Definition insertScan (siteKey : string) (r : ScanReport) (w : World)
  : Outcome ScanRow * World :=
  let row := summaryRow w siteKey r in
  (inr row, {| db := row :: db w; clock := clock w; retrievals := retrievals w |}).

(** Modelled from the spec: [executeScan] of [src/api/v2/utils.js], which
    is not part of the sources at hand.  Section 6: run a scan, persist a
    summary row, return it (section 3: only the summary is persisted). *)
Definition executeScan (env : Env) (site : Site) : Task ScanRow :=
  result ← scan env site;
  await (insertScan (SiteModel.asSiteKey site) (scan_report result)).

Definition invalidHostnameLookup (site : Site) : JsError :=
  {| err_name := Some "invalid-hostname-lookup";
     err_ctor := Some "InvalidHostNameLookupError";
     err_message := Some (hostname site +:+ " cannot be resolved") |}.

(** Modelled from the spec: [checkSitename] of [src/api/v2/utils.js],
    which is not part of the sources at hand.  Section 4.1: fails with
    [invalid-hostname-lookup] when the host does not resolve. *)
Definition checkSitename (env : Env) (site : Site) : Task Site :=
  await (λ w,
    (if resolves env (hostname site) then inr site
     else inl (invalidHostnameLookup site), w)).

(** ** Responses *)

Record FullDetails := {
  fd_scan : ScanReport;
  fd_tests : gmap string TestResult
}.

Record ScanResponse := {
  resp_id : Z;
  resp_details_url : string;
  resp_algorithm_version : Z;
  resp_scanned_at : Z;
  resp_error : option string;
  resp_grade : option string;
  resp_score : option Z;
  resp_status_code : option Z;
  resp_tests_failed : Z;
  resp_tests_passed : Z;
  resp_tests_quantity : Z;
  resp_fullDetails : FullDetails
}.

(** An entry of the batch response: [{ success: true, ... }] with the
    fields of a scan response, or
    [{ success: false, error, errorType, message }]. *)
Inductive BatchEntry : Type :=
| EntryOk (r : ScanResponse)
| EntryFailed (error errorType message : string).

Definition entry_success (e : BatchEntry) : bool :=
  match e with EntryOk _ => true | EntryFailed _ _ _ => false end.

(** The summary fields of a response are those of [row]. *)
Definition summaryOf (row : ScanRow) (r : ScanResponse) : Prop :=
  resp_id r = row_id row
  ∧ resp_algorithm_version r = row_algorithm_version row
  ∧ resp_scanned_at r = row_start_time row
  ∧ resp_error r = row_error row
  ∧ resp_grade r = row_grade row
  ∧ resp_score r = row_score row
  ∧ resp_status_code r = row_status_code row
  ∧ resp_tests_failed r = row_tests_failed row
  ∧ resp_tests_passed r = row_tests_passed row
  ∧ resp_tests_quantity r = row_tests_quantity row.

(** An emitted test is the test as scanned without its
    [scoreDescription]. *)
Definition strippedFrom (test emitted : TestResult) : Prop :=
  emitted !! "scoreDescription" = None
  ∧ ∀ field, field ≠ "scoreDescription" → emitted !! field = test !! field.

(** ** [src/api/v2/scan/full-details.js] *)

(** Lines 95-101 (and 149-155 of the batch endpoint): the details URL. *)
Definition detailsUrl (env : Env) (site : Site) : string :=
  if Js.truthy (baseUrl env) then
    from_option id EmptyString (baseUrl env)
    +:+ "/analyze?host=" +:+ Js.encodeURIComponent (SiteModel.asSiteKey site)
  else
    "https://developer.mozilla.org/en-US/observatory/analyze?host="
    +:+ Js.encodeURIComponent (SiteModel.asSiteKey site).

(** What the specification asks of a details URL: built on the base URL
    when one is configured, the MDN Observatory URL of the site
    otherwise. *)
Definition detailsUrlAsConfigured (env : Env) (site : Site) (url : string) : Prop :=
  (∀ base, baseUrl env = Some base → base ≠ EmptyString →
      url = base +:+ "/analyze?host="
            +:+ Js.encodeURIComponent (SiteModel.asSiteKey site))
  ∧ (baseUrl env = None ∨ baseUrl env = Some EmptyString →
      url = "https://developer.mozilla.org/en-US/observatory/analyze?host="
            +:+ Js.encodeURIComponent (SiteModel.asSiteKey site)).

(** Lines 103-109 (and 157-163): every test without its
    [scoreDescription], through [Object.entries] and
    [Object.fromEntries]. *)
Definition withoutScoreDescription (tests : gmap string TestResult)
  : gmap string TestResult :=
  list_to_map
    ((λ entry : string * TestResult,
        (entry.1, delete "scoreDescription" entry.2)) <$> map_to_list tests).

(** Lines 83-131: the summary from the recent row, or from a scan
    executed and persisted when there is none; the full details from a
    scan of its own, always. *)
Definition scanOrReturnRecentWithFullDetails
    (env : Env) (site : Site) (age : Z) : Task ScanResponse :=
  found ← selectScanLatestScanBySite (SiteModel.asSiteKey site) age;
  scanRow ← match found with
            | Some row => ret row
            | None => executeScan env site
            end;
  fullScanResult ← scan env site;
  let tests := withoutScoreDescription (scan_tests fullScanResult) in
  ret {| resp_id := row_id scanRow;
         resp_details_url := detailsUrl env site;
         resp_algorithm_version := row_algorithm_version scanRow;
         resp_scanned_at := row_start_time scanRow;
         resp_error := row_error scanRow;
         resp_grade := row_grade scanRow;
         resp_score := row_score scanRow;
         resp_status_code := row_status_code scanRow;
         resp_tests_failed := row_tests_failed scanRow;
         resp_tests_passed := row_tests_passed scanRow;
         resp_tests_quantity := row_tests_quantity scanRow;
         resp_fullDetails :=
           {| fd_scan := scan_report fullScanResult; fd_tests := tests |} |}.

(** The handler of [POST /scanFullDetails] (lines 59-72). *)
Definition scanFullDetails (env : Env) (host : string) : Task ScanResponse :=
  let hostname := normalize host in
  site ← call (SiteModel.fromSiteString hostname);
  site ← checkSitename env site;
  scanOrReturnRecentWithFullDetails env site (cooldown env).

(** ** The batch endpoint *)

Definition DEFAULT_CONCURRENCY : nat := 5.
Definition MAX_BATCH_SIZE : nat := 10.

(** Lines 138-183: as [scanOrReturnRecentWithFullDetails], the object
    returned carrying [success: true] besides. *)
Definition scanWithFullDetails
    (env : Env) (site : Site) (age : Z) : Task BatchEntry :=
  found ← selectScanLatestScanBySite (SiteModel.asSiteKey site) age;
  scanRow ← match found with
            | Some row => ret row
            | None => executeScan env site
            end;
  fullScanResult ← scan env site;
  let tests := withoutScoreDescription (scan_tests fullScanResult) in
  ret (EntryOk
         {| resp_id := row_id scanRow;
            resp_details_url := detailsUrl env site;
            resp_algorithm_version := row_algorithm_version scanRow;
            resp_scanned_at := row_start_time scanRow;
            resp_error := row_error scanRow;
            resp_grade := row_grade scanRow;
            resp_score := row_score scanRow;
            resp_status_code := row_status_code scanRow;
            resp_tests_failed := row_tests_failed scanRow;
            resp_tests_passed := row_tests_passed scanRow;
            resp_tests_quantity := row_tests_quantity scanRow;
            resp_fullDetails :=
              {| fd_scan := scan_report fullScanResult; fd_tests := tests |} |}).

(** The [catch] clause of [scanSingleUrl]. *)
Definition failureEntry (error : JsError) : BatchEntry :=
  EntryFailed
    (Js.orElse (err_name error) "error-unknown")
    (Js.orElse (err_ctor error) "Error")
    (Js.orElse (err_message error) "Unknown error occurred").

(** The [try] block of [scanSingleUrl]. *)
Definition scanSingleUrlTry (env : Env) (url : string) : Task BatchEntry :=
  let hostname := normalize url in
  site ← call (SiteModel.fromSiteString hostname);
  site ← checkSitename env site;
  scanWithFullDetails env site (cooldown env).

(** Lines 113-129: whatever the [try] block throws is caught and
    reported. *)
Definition scanSingleUrl (env : Env) (url : string) : Task BatchEntry :=
  tryCatch (scanSingleUrlTry env url) (λ error, ret (failureEntry error)).

(** Lines 200-212: the first occurrence of every normalised form is kept
    ([seen] is the [Set] of the filter callback), then every kept url is
    normalised. *)
Fixpoint filterUnseen (seen : gset string) (urls : list string) : list string :=
  match urls with
  | [] => []
  | url :: rest =>
      let normalized := normalize url in
      if decide (normalized ∈ seen) then filterUnseen seen rest
      else url :: filterUnseen ({[normalized]} ∪ seen) rest
  end.

Definition uniqueUrls (urls : list string) : list string := filterUnseen ∅ urls.

Definition normalizedUrls (urls : list string) : list string :=
  normalize <$> uniqueUrls urls.

(** *** The result object

    [results] is a plain object: [results[item] = result] defines an own
    property, except that the key [__proto__] reaches the accessor
    inherited from [Object.prototype], which replaces the prototype of
    [results] (every value stored here is an object) and defines
    nothing. *)
Record JsObject (V : Type) := {
  own : gmap string V;
  proto : option V
}.

Arguments own {V} _.
Arguments proto {V} _.

Definition emptyObject {V} : JsObject V := {| own := ∅; proto := None |}.

Definition setProperty {V} (key : string) (v : V) (o : JsObject V) : JsObject V :=
  if decide (key = "__proto__") then {| own := own o; proto := Some v |}
  else {| own := <[key := v]> (own o); proto := proto o |}.

(** *** [runWithConcurrency] as a transition system

    The function is suspended at [await Promise.race(executing)] and at
    [await Promise.all(executing)]; between two suspensions it runs
    without interruption.  The promises in [executing] are numbered in the
    order of their creation. *)
Inductive Loop (V : Type) : Type :=
| Iterating (rest : list string)
| AwaitingRace (snapshot : gset nat) (rest : list string)
| AwaitingAll (snapshot : gset nat)
| Returned (res : JsObject V)
| Rejected (e : JsError).

Arguments Iterating {V} rest.
Arguments AwaitingRace {V} snapshot rest.
Arguments AwaitingAll {V} snapshot.
Arguments Returned {V} res.
Arguments Rejected {V} e.

Record Runner (V : Type) := {
  world : World;
  executing : gmap nat (string * Task V);   (* promise ↦ its item and the state of [fn(item)] *)
  results : JsObject V;
  created : nat;                            (* promises created so far *)
  calls : list string;                      (* the items [fn] was called on, latest first *)
  loop : Loop V
}.

Arguments world {V} _.
Arguments executing {V} _.
Arguments results {V} _.
Arguments created {V} _.
Arguments calls {V} _.
Arguments loop {V} _.

Definition start {V} (items : list string) (w : World) : Runner V :=
  {| world := w; executing := ∅; results := emptyObject; created := 0%nat;
     calls := []; loop := Iterating items |}.

(** The operations in flight: the promises held by [executing]. *)
Definition inFlight {V} (s : Runner V) : nat := size (executing s).

Inductive step {V} (fn : string → Task V) (limit : nat)
  : Runner V → Runner V → Prop :=
(** One iteration of the [for] loop: [fn(item)] is called, its promise is
    added, and the loop suspends on the race when the set is full. *)
| step_iterate w ex res n cs item rest :
    step fn limit
      {| world := w; executing := ex; results := res; created := n;
         calls := cs; loop := Iterating (item :: rest) |}
      {| world := w; executing := <[n := (item, fn item)]> ex;
         results := res; created := S n; calls := item :: cs;
         loop := if (limit <=? size (<[n := (item, fn item)]> ex))%nat
                 then AwaitingRace (dom (<[n := (item, fn item)]> ex)) rest
                 else Iterating rest |}
(** The loop is over: [await Promise.all(executing)]. *)
| step_exit w ex res n cs :
    step fn limit
      {| world := w; executing := ex; results := res; created := n;
         calls := cs; loop := Iterating [] |}
      {| world := w; executing := ex; results := res; created := n;
         calls := cs; loop := AwaitingAll (dom ex) |}
(** A pending operation is resumed for one turn. *)
| step_turn w ex res n cs l p item next after :
    ex !! p = Some (item, Pending next after) →
    step fn limit
      {| world := w; executing := ex; results := res; created := n;
         calls := cs; loop := l |}
      {| world := after w; executing := <[p := (item, next w)]> ex;
         results := res; created := n; calls := cs; loop := l |}
(** The [then] callback of a fulfilled operation:
    [results[item] = result; executing.delete(promise)]. *)
| step_then w ex res n cs l p item v :
    ex !! p = Some (item, Settled (inr v)) →
    step fn limit
      {| world := w; executing := ex; results := res; created := n;
         calls := cs; loop := l |}
      {| world := w; executing := delete p ex;
         results := setProperty item v res; created := n; calls := cs;
         loop := l |}
(** The race is won by a promise whose callback has run. *)
| step_race_resume w ex res n cs snapshot rest p :
    p ∈ snapshot → ex !! p = None →
    step fn limit
      {| world := w; executing := ex; results := res; created := n;
         calls := cs; loop := AwaitingRace snapshot rest |}
      {| world := w; executing := ex; results := res; created := n;
         calls := cs; loop := Iterating rest |}
(** The race is won by a rejected promise: the [await] throws. *)
| step_race_reject w ex res n cs snapshot rest p item e :
    p ∈ snapshot → ex !! p = Some (item, Settled (inl e)) →
    step fn limit
      {| world := w; executing := ex; results := res; created := n;
         calls := cs; loop := AwaitingRace snapshot rest |}
      {| world := w; executing := ex; results := res; created := n;
         calls := cs; loop := Rejected e |}
(** Every promise of [Promise.all] is fulfilled: [return results]. *)
| step_all_resume w ex res n cs snapshot :
    (∀ p, p ∈ snapshot → ex !! p = None) →
    step fn limit
      {| world := w; executing := ex; results := res; created := n;
         calls := cs; loop := AwaitingAll snapshot |}
      {| world := w; executing := ex; results := res; created := n;
         calls := cs; loop := Returned res |}
(** A promise of [Promise.all] is rejected: the [await] throws. *)
| step_all_reject w ex res n cs snapshot p item e :
    p ∈ snapshot → ex !! p = Some (item, Settled (inl e)) →
    step fn limit
      {| world := w; executing := ex; results := res; created := n;
         calls := cs; loop := AwaitingAll snapshot |}
      {| world := w; executing := ex; results := res; created := n;
         calls := cs; loop := Rejected e |}.

(** The states a call [runWithConcurrency(items, fn, limit)] made in world
    [w] can be in. *)
Definition reachable {V} (fn : string → Task V) (limit : nat)
    (items : list string) (w : World) (s : Runner V) : Prop :=
  rtc (step fn limit) (start items w) s.

(** *** Schedules

    One way for a call to go, told step by step.  [Go] is the next step
    of the function itself: an iteration of the loop, the exit of the
    loop, or the return once every promise of [Promise.all] is fulfilled.
    [Turn p] resumes the operation behind promise [p] for one turn,
    [Then p] runs the callback of the fulfilled promise [p], and [Race p]
    resumes the loop after a race that [p] has won. *)
Inductive Move : Type :=
| Go
| Turn (p : nat)
| Then (p : nat)
| Race (p : nat).

(** The state a move leads to, when the move can be made. *)
Definition move {V} (fn : string → Task V) (limit : nat) (m : Move)
    (s : Runner V) : option (Runner V) :=
  let w := world s in
  let ex := executing s in
  let res := results s in
  let n := created s in
  let cs := calls s in
  match m with
  | Go =>
      match loop s with
      | Iterating (item :: rest) =>
          let ex' := <[n := (item, fn item)]> ex in
          Some {| world := w; executing := ex'; results := res;
                  created := S n; calls := item :: cs;
                  loop := if (limit <=? size ex')%nat
                          then AwaitingRace (dom ex') rest
                          else Iterating rest |}
      | Iterating [] =>
          Some {| world := w; executing := ex; results := res; created := n;
                  calls := cs; loop := AwaitingAll (dom ex) |}
      | AwaitingAll snapshot =>
          if decide (snapshot ∩ dom ex = ∅) then
            Some {| world := w; executing := ex; results := res; created := n;
                    calls := cs; loop := Returned res |}
          else None
      | _ => None
      end
  | Turn p =>
      match ex !! p with
      | Some (item, Pending next after) =>
          Some {| world := after w; executing := <[p := (item, next w)]> ex;
                  results := res; created := n; calls := cs; loop := loop s |}
      | _ => None
      end
  | Then p =>
      match ex !! p with
      | Some (item, Settled (inr v)) =>
          Some {| world := w; executing := delete p ex;
                  results := setProperty item v res; created := n; calls := cs;
                  loop := loop s |}
      | _ => None
      end
  | Race p =>
      match loop s, ex !! p with
      | AwaitingRace snapshot rest, None =>
          if decide (p ∈ snapshot) then
            Some {| world := w; executing := ex; results := res; created := n;
                    calls := cs; loop := Iterating rest |}
          else None
      | _, _ => None
      end
  end.

(** The state a schedule leads to from [s]; [None] when one of its moves
    cannot be made. *)
Fixpoint play {V} (fn : string → Task V) (limit : nat) (moves : list Move)
    (s : Runner V) : option (Runner V) :=
  match moves with
  | [] => Some s
  | m :: rest =>
      match move fn limit m s with
      | Some s' => play fn limit rest s'
      | None => None
      end
  end.

(** The state a call made in world [w] is in after a schedule; the state
    it starts in when the schedule cannot be followed. *)
Definition scheduled {V} (fn : string → Task V) (limit : nat)
    (items : list string) (w : World) (moves : list Move) : Runner V :=
  default (start items w) (play fn limit moves (start items w)).

(** *** Invariants of the runner *)

(** No more than [limit] operations are held: fewer while the loop runs,
    and on the race every promise held is one of the snapshot. *)
Definition bounded {V} (limit : nat) (s : Runner V) : Prop :=
  match loop s with
  | Iterating _ => (size (executing s) < limit)%nat
  | AwaitingRace snapshot _ =>
      dom (executing s) ⊆ snapshot
      ∧ (size snapshot ≤ limit)%nat
      ∧ snapshot ≠ ∅
  | _ => (size (executing s) ≤ limit)%nat
  end.

(** The items the loop has yet to take. *)
Definition remaining {V} (l : Loop V) : option (list string) :=
  match l with
  | Iterating rest | AwaitingRace _ rest => Some rest
  | AwaitingAll _ | Returned _ => Some []
  | Rejected _ => None
  end.

(** The bookkeeping of the runner: [fn] has been called once on every
    item taken so far, in order; every promise held stems from such a call;
    every own property of [results] is what the call on its key came to;
    and every call has its promise held or its key defined, the key
    [__proto__] apart. *)
Record consistent {V} (fn : string → Task V) (items : list string)
    (s : Runner V) : Prop := {
  taken_so_far :
    ∀ rest, remaining (loop s) = Some rest → reverse (calls s) ++ rest = items;
  created_calls : created s = length (calls s);
  held_promises :
    ∀ p k t, executing s !! p = Some (k, t) →
      reverse (calls s) !! p = Some k ∧ ∀ r, CanSettle t r → CanSettle (fn k) r;
  own_results :
    ∀ k v, own (results s) !! k = Some v →
      k ∈ calls s ∧ k ≠ "__proto__" ∧ CanSettle (fn k) (inr v);
  held_or_defined :
    ∀ p k, reverse (calls s) !! p = Some k → k ≠ "__proto__" →
      is_Some (executing s !! p) ∨ is_Some (own (results s) !! k);
  all_snapshot :
    ∀ snapshot, loop s = AwaitingAll snapshot → dom (executing s) ⊆ snapshot;
  returned_results :
    ∀ res, loop s = Returned res → res = results s ∧ executing s = ∅
}.

(** No operation held can throw, and the runner has not been rejected. *)
Definition calm {V} (s : Runner V) : Prop :=
  (∀ p k t, executing s !! p = Some (k, t) → NeverThrows t)
  ∧ ∀ e, loop s ≠ Rejected e.

(** *** The request body and its schema (lines 26-42)

    [{ type: "object", required: ["urls"], properties: { urls: { type:
    "array", items: { type: "string" }, minItems: 1, maxItems:
    MAX_BATCH_SIZE } } }].  The route is registered with this schema (line
    195), so the body is checked by the validator of the framework before
    the handler is entered.  The framework sets its validator up to
    convert a value of the wrong type where it can ([coerceTypes:
    "array"]) and to write the converted value into the body the handler
    reads: a string, a number, a boolean or [null] given for an array
    becomes the array of that one item; a number, a boolean or [null]
    given for a string becomes its string; an array of one item given for
    a string is replaced by its item first. *)

(** The value of a property of a parsed object; of two members with the
    same name the later one stands. *)
Fixpoint lookupField (key : string) (fields : list (string * Json)) : option Json :=
  match fields with
  | [] => None
  | (k, v) :: rest =>
      match lookupField key rest with
      | Some v' => Some v'
      | None => if String.eqb k key then Some v else None
      end
  end.


(** The string a scalar is taken for where a string is asked for: its
    own string for a number or a boolean, the empty string for [null]. *)
Definition scalarToString (v : Json) : option string :=
  match v with
  | JStr s => Some s
  | JNum n => Some (Js.numberToString n)
  | JBool b => Some (if b then "true" else "false")
  | JNull => Some EmptyString
  | JArr _ | JObj _ => None
  end.

(** What the validator takes for [items: { type: "string" }]: the item
    when it is a string, the string of a scalar, the same of the one item
    of an array, and nothing else. *)
Definition coerceToString (v : Json) : option string :=
  match v with
  | JArr [item] => scalarToString item
  | _ => scalarToString v
  end.

(** What the validator takes for [urls: { type: "array" }]: the array
    itself, or the array of the one scalar given in its place. *)
Definition coerceToArray (v : Json) : option (list Json) :=
  match v with
  | JArr items => Some items
  | JObj _ => None
  | _ => Some [v]
  end.

Fixpoint stringItems (index : nat) (items : list Json)
  : SchemaViolation + list string :=
  match items with
  | [] => inr []
  | item :: rest =>
      match coerceToString item with
      | Some s =>
          match stringItems (S index) rest with
          | inr l => inr (s :: l)
          | inl v => inl v
          end
      | None => inl (ItemNotString index)
      end
  end.

(** The urls the handler reads from a body the validator admits, or the
    violation it reports. *)
Definition validateBody (body : Json) : SchemaViolation + list string :=
  match body with
  | JObj fields =>
      match lookupField "urls" fields with
      | None => inl MissingUrls
      | Some v =>
          match coerceToArray v with
          | Some items =>
              if (length items <? 1)%nat then inl TooFewItems
              else if (MAX_BATCH_SIZE <? length items)%nat then inl TooManyItems
              else stringItems 0 items
          | None => inl UrlsNotArray
          end
      end
  | _ => inl BodyNotObject
  end.




(** The body [{ "urls": [...] }]. *)
Definition urlsBody (urls : list string) : Json :=
  JObj [("urls", JArr (JStr <$> urls))].

(** What the batch endpoint answers: the result object with status 200,
    an error reply [{ error, message }] with a status, or the failure of
    the handler itself. *)
Inductive Reply : Type :=
| Ok200 (body : gmap string BatchEntry)
| ErrorReply (status : Z) (error message : string)
| HandlerFailed (e : JsError).

(** Modelled from the spec: the error handler of the API server
    ([src/api/server.js]), which is not part of the sources at hand.  In
    section 6 error responses are [{error, message}] with HTTP 422 for
    validation errors, an invalid body shape among them. *)
Definition validationErrorReply (env : Env) (v : SchemaViolation) : Reply :=
  ErrorReply 422 (violationReport env v).1 (violationReport env v).2.

(** The route [POST /scanBatchFullDetails] (lines 193-222): the body, as
    it is parsed, is checked by the validator before the handler is
    entered; the
    handler removes duplicates, runs the scans and returns [results],
    whose own properties are what is serialised. *)
Inductive scanBatchFullDetails (env : Env) (body : Json) (w : World)
  : Reply → World → Prop :=
| batch_rejected v :
    validateBody body = inl v →
    scanBatchFullDetails env body w (validationErrorReply env v) w
| batch_returned urls s res :
    validateBody body = inr urls →
    reachable (scanSingleUrl env) DEFAULT_CONCURRENCY (normalizedUrls urls) w s →
    loop s = Returned res →
    scanBatchFullDetails env body w (Ok200 (own res)) (world s)
| batch_failed urls s e :
    validateBody body = inr urls →
    reachable (scanSingleUrl env) DEFAULT_CONCURRENCY (normalizedUrls urls) w s →
    loop s = Rejected e →
    scanBatchFullDetails env body w (HandlerFailed e) (world s).



(** The clock moving on between two requests. *)
Definition later (t : Z) (w : World) : World :=
  {| db := db w; clock := t; retrievals := retrievals w |}.


(** ** A sample environment

    A concrete network, configuration and site on which the endpoints can
    be run. *)

Module Sample.

Definition report (g : string) (s : Z) : ScanReport :=
  {| algorithmVersion := 5; grade := Some g; error := None; score := Some s;
     statusCode := Some 200; testsFailed := 0; testsPassed := 10;
     testsQuantity := 10; responseHeaders := [] |}.

Definition cookies : TestResult :=
  {[ "expectation" := JStr "cookies-secure-with-httponly-sessions";
     "result" := JStr "cookies-secure-with-httponly-sessions";
     "pass" := JBool true;
     "scoreModifier" := JNum 5;
     "data" := JNull;
     "scoreDescription" := JStr "All cookies use the Secure flag" ]}.

(** A network on which a site scores A+ on the first retrieval and F on
    every later one. *)
Definition network (site : Site) (n : nat) : Outcome ScanResult :=
  inr {| scan_report := if (n =? 0)%nat then report "A+" 105 else report "F" 0;
         scan_tests := {[ "cookies" := cookies ]} |}.

Definition env : Env :=
  {| cooldown := 60; baseUrl := None; scanner := network;
     resolves := λ _, true;
     violationReport := λ _, ("invalid-request", "the body is invalid") |}.

(** The same with a base URL configured. *)
Definition hosted : Env :=
  {| cooldown := 60; baseUrl := Some "https://your-domain.com";
     scanner := network; resolves := λ _, true;
     violationReport := λ _, ("invalid-request", "the body is invalid") |}.

Definition mdn : Site :=
  {| hostname := "mdn.dev"; port := None; path := EmptyString |}.

Definition initial : World := {| db := []; clock := 0; retrievals := [] |}.

(** The world half a minute after a first request for [mdn.dev]. *)
Definition afterFirst : World :=
  later 30 (run (scanFullDetails env "mdn.dev") initial).2.

(** The runner of a batch of one url, its scan started and in flight. *)
Definition oneInFlight : Runner BatchEntry :=
  {| world := initial;
     executing := {[ 0%nat := ("mdn.dev", scanSingleUrl env "mdn.dev") ]};
     results := emptyObject;
     created := 1;
     calls := ["mdn.dev"];
     loop := Iterating [] |}.

(** Eight urls, seven of them distinct once normalised. *)
Definition eightUrls : list string :=
  ["a.example"; "b.example"; "c.example"; "d.example"; "e.example";
   " A.example "; "f.example"; "g.example"].

(** The batch of these urls once [scanSingleUrl] has been called on the
    first five and none of the scans has been resumed. *)
Definition fiveInFlight : Runner BatchEntry :=
  scheduled (scanSingleUrl env) DEFAULT_CONCURRENCY (normalizedUrls eightUrls)
    initial [Go; Go; Go; Go; Go].

(** The same batch later on: the first scan has run its five turns, its
    callback has stored the result, the loop has been resumed after the
    race and has called [scanSingleUrl] on the sixth url. *)
Definition sixthStarted : Runner BatchEntry :=
  scheduled (scanSingleUrl env) DEFAULT_CONCURRENCY (normalizedUrls eightUrls)
    initial
    [Go; Go; Go; Go; Go;
     Turn 0; Turn 0; Turn 0; Turn 0; Turn 0; Then 0; Race 0; Go].

(** A call of the runner with limit 0, after its first iteration. *)
Definition firstAtLimitZero : Runner BatchEntry :=
  scheduled (scanSingleUrl env) 0 ["a.example"; "b.example"] initial [Go].

(** Two urls of one batch that name the same site.  Both scans are
    started; each checks the host name and looks for a recent row before
    the other has persisted anything, so each finds none, runs a scan and
    persists it; then each runs the scan behind [fullDetails], the
    callbacks store the results and the call returns. *)
Definition sameSiteUrls : list string := ["mdn.dev"; "https://mdn.dev"].

Definition bothPersisted : Runner BatchEntry :=
  scheduled (scanSingleUrl env) DEFAULT_CONCURRENCY (normalizedUrls sameSiteUrls)
    initial
    [Go; Go; Go;
     Turn 0; Turn 1; Turn 0; Turn 1;
     Turn 0; Turn 0; Turn 1; Turn 1;
     Turn 0; Turn 1; Then 0; Then 1; Go].



End Sample.

(** ** Budgets

    [Within measure budget t]: however [t] is resumed, the turns it has
    left add no more than [budget] to the measure of the world. *)
Fixpoint Within {A} (measure : World → nat) (budget : nat) (t : Task A) : Prop :=
  match t with
  | Settled _ => True
  | Pending next after =>
      ∀ w, ∃ cost, (cost ≤ budget)%nat
                   ∧ (measure (after w) ≤ measure w + cost)%nat
                   ∧ Within measure (budget - cost) (next w)
  end.

(** The rows persisted and the retrievals made so far. *)
Definition rowCount (w : World) : nat := length (db w).

Definition retrievalCount (w : World) : nat := length (retrievals w).

(** ** [scripts/concurrent-scan.sh]

    The client script: it reads urls from a file, brings each to the form
    [hostname:port] and posts it to [/api/v2/scanFullDetails], with
    retries.  A shell string is a sequence of bytes; character classes are
    those of the C and UTF-8 locales, where only ASCII letters have a
    case. *)

Module Script.
Import SiteModel.

Definition DEFAULT_PORT : string := "443".

(** [[:space:]]: TAB, LF, VT, FF, CR and SP. *)
Definition isSpace (c : ascii) : bool :=
  let n := Js.code c in (((9 <=? n) && (n <=? 13)) || (n =? 32))%N.

Definition isNewline (c : ascii) : bool := (Js.code c =? 10)%N.

(** [tr '[:upper:]' '[:lower:]'] on one byte. *)
Definition lowerByte (c : ascii) : ascii :=
  let n := Js.code c in
  if ((65 <=? n) && (n <=? 90))%N then ascii_of_N (n + 32) else c.

Fixpoint lowerBytes (s : string) : string :=
  match s with
  | EmptyString => EmptyString
  | String c s' => String (lowerByte c) (lowerBytes s')
  end.

(** [${s#prefix}] for a prefix without pattern characters. *)
Definition dropPrefix (prefix s : string) : string :=
  from_option id s (stripPrefix prefix s).

(** [${s%%/*}]: the longest suffix that starts with a slash is removed. *)
Definition beforeFirstSlash (s : string) : string :=
  (cutAt (λ c, Ascii.eqb c "/") s).1.

(** [s] split around its last occurrence of [sep]. *)
Fixpoint splitLast (sep : ascii) (s : string) : option (string * string) :=
  match s with
  | EmptyString => None
  | String c s' =>
      match splitLast sep s' with
      | Some (a, b) => Some (String c a, b)
      | None => if Ascii.eqb c sep then Some (EmptyString, s') else None
      end
  end.

(** [${s%:*}]: the shortest suffix that starts with a colon is removed. *)
Definition beforeLastColon (s : string) : string :=
  match splitLast ":" s with
  | Some (a, _) => a
  | None => s
  end.

(** [${s##*:}]: the longest prefix that ends with a colon is removed. *)
Definition afterLastColon (s : string) : string :=
  match splitLast ":" s with
  | Some (_, b) => b
  | None => s
  end.

(** [[[ "$s" =~ ^[0-9]+$ ]]] *)
Definition isNumber (s : string) : bool :=
  negb (String.eqb s EmptyString) && forallChar isDigit s.

(** [[[ "$s" =~ ^[[:space:]]*# ]]] *)
Fixpoint isComment (s : string) : bool :=
  match s with
  | EmptyString => false
  | String c s' => if isSpace c then isComment s' else Ascii.eqb c "#"
  end.

(** An argument the [echo] builtin takes for options: a dash followed by
    one or more of [n], [e] and [E]. *)
Definition isEchoOption (s : string) : bool :=
  match s with
  | String "-" (String c rest) =>
      forallChar (λ x, Ascii.eqb x "n" || Ascii.eqb x "e" || Ascii.eqb x "E")
        (String c rest)
  | _ => false
  end.

(** A command substitution drops the newlines its output ends with. *)
Fixpoint dropTrailingNewlines (s : string) : string :=
  match s with
  | EmptyString => EmptyString
  | String c s' =>
      match dropTrailingNewlines s' with
      | EmptyString => if isNewline c then EmptyString else String c EmptyString
      | t => String c t
      end
  end.

(** [$(echo "$s" | tr '[:upper:]' '[:lower:]')] *)
Definition lowered (s : string) : string :=
  if isEchoOption s then EmptyString
  else dropTrailingNewlines (lowerBytes s).

Section ParseUrl.

(** [$(echo "$url" | xargs)], the value the script takes for the line
    without its surrounding white space, is the work of an external
    command and is left open. *)
Variable xargs : string → string.

(** [parse_url] (lines 145-191): the value of [$(parse_url "$line")],
    which is [hostname:port] or, for a line to skip, the empty string. *)
Definition parse_url (line : string) : string :=
  let url := xargs line in
  if String.eqb url EmptyString || isComment url then EmptyString
  else
    let url := dropPrefix "http://" url in
    let url := dropPrefix "https://" url in
    let url := beforeFirstSlash url in
    let '(hostname, port) :=
      if existsChar (λ c, Ascii.eqb c ":") url then
        let port := afterLastColon url in
        (beforeLastColon url, if isNumber port then port else DEFAULT_PORT)
      else (url, DEFAULT_PORT) in
    let hostname := lowered hostname in
    if String.eqb hostname EmptyString
       || negb (existsChar (λ c, Ascii.eqb c ".") hostname)
    then EmptyString
    else hostname +:+ ":" +:+ port.

End ParseUrl.

(** *** Scanning one url *)

(** What [curl] yields: the status code it prints ([000] when the request
    itself fails) and the body it stores. *)
Record Answer := {
  http_code : string;
  response : string
}.

(** What a file of the output directory holds: the response of the API, or
    one of the two error records the script writes. *)
Inductive Saved : Type :=
| SavedResponse (body : string)
| ValidationError (message : string) (host : string) (timestamp : string)
| ScanFailed (retries : Z) (host : string) (timestamp : string).

(** The files of the output directory by path, the lines of the two
    counter files, the seconds of every [sleep] and the attempt number of
    every request, latest first. *)
Record Shell := {
  files : gmap string Saved;
  success_count : nat;
  failed_count : nat;
  slept : list Z;
  requests : list (string * Z)
}.

Definition save (path : string) (content : Saved) (sh : Shell) : Shell :=
  {| files := <[path := content]> (files sh);
     success_count := success_count sh; failed_count := failed_count sh;
     slept := slept sh; requests := requests sh |}.

Definition countSuccess (sh : Shell) : Shell :=
  {| files := files sh;
     success_count := S (success_count sh); failed_count := failed_count sh;
     slept := slept sh; requests := requests sh |}.

Definition countFailure (sh : Shell) : Shell :=
  {| files := files sh;
     success_count := success_count sh; failed_count := S (failed_count sh);
     slept := slept sh; requests := requests sh |}.

Definition sleep (seconds : Z) (sh : Shell) : Shell :=
  {| files := files sh;
     success_count := success_count sh; failed_count := failed_count sh;
     slept := seconds :: slept sh; requests := requests sh |}.

Definition request (host_param : string) (attempt : Z) (sh : Shell) : Shell :=
  {| files := files sh;
     success_count := success_count sh; failed_count := failed_count sh;
     slept := slept sh; requests := (host_param, attempt) :: requests sh |}.

Section ScanUrl.

(** The settings of a run ([RETRIES], [OUTPUT_DIR]), the answer of the
    API to the given attempt for a host, and the message [grep] and [cut]
    take from the body of a 422 response. *)
Variable RETRIES : Z.
Variable OUTPUT_DIR : string.
Variable curl : string → Z → Answer.
Variable messageOf : string → string.

(** The [for] loop of [scan_url] and [process_parsed_url] (lines 210-251
    and 286-316), from [attempt] on; [fuel] bounds the iterations.  The
    result is the status returned from inside the loop, if any. *)
Fixpoint attempts (fuel : nat) (host_param output_file timestamp : string)
    (attempt : Z) (sh : Shell) : Shell * option Z :=
  match fuel with
  | O => (sh, None)
  | S fuel' =>
      if attempt <=? RETRIES then
        let answer := curl host_param attempt in
        let sh := request host_param attempt sh in
        if String.eqb (http_code answer) "200" then
          (countSuccess (save output_file (SavedResponse (response answer)) sh),
           Some 0)
        else if String.eqb (http_code answer) "422" then
          (countFailure
             (save output_file
                (ValidationError (messageOf (response answer)) host_param timestamp)
                sh),
           Some 1)
        else
          let sh := if attempt <? RETRIES then sleep (attempt * 2) sh else sh in
          attempts fuel' host_param output_file timestamp (attempt + 1) sh
      else (sh, None)
  end.

(** [scan_url] (lines 195-262). *)
Definition scan_url (hostname port timestamp : string) (sh : Shell)
  : Shell * Z :=
  let host_param := hostname +:+ ":" +:+ port in
  let output_file :=
    OUTPUT_DIR +:+ "/" +:+ hostname +:+ "_" +:+ timestamp +:+ "_" +:+ port
    +:+ ".json" in
  match attempts (Z.to_nat RETRIES) host_param output_file timestamp 1 sh with
  | (sh', Some status) => (sh', status)
  | (sh', None) =>
      (countFailure (save output_file (ScanFailed RETRIES host_param timestamp) sh'),
       1)
  end.

(** [process_parsed_url] (lines 266-322): the same on a [hostname:port]
    taken apart at its last colon. *)
Definition process_parsed_url (parsed timestamp : string) (sh : Shell)
  : Shell * Z :=
  scan_url (beforeLastColon parsed) (afterLastColon parsed) timestamp sh.

End ScanUrl.

(** *** The whole run *)

(** How the script ends: with the summary it prints (the urls scanned,
    those that succeeded, those that failed), or before that with an exit
    status. *)
Inductive Ending : Type :=
| Summary (total successful failed : nat)
| Exit (status : Z).

Definition freshShell : Shell :=
  {| files := ∅; success_count := 0; failed_count := 0; slept := [];
     requests := [] |}.

Section Run.

Variable RETRIES : Z.
Variable OUTPUT_DIR : string.
Variable curl : string → Z → Answer.
Variable messageOf : string → string.
Variable xargs : string → string.

(** What [xargs -P "$CONCURRENCY" -I {}] makes of the lines it is given:
    the arguments it hands to [process_parsed_url], one invocation each,
    and whether it met no error of its own. *)
Variable xargs_items : list string → list string * bool.

(** The clock as the [n]-th invocation reads it. *)
Variable date : nat → string.

(** The invocations made by [xargs].  They run in parallel; each appends
    one line to one of the two counter files, so the counts, which are
    what the summary reads, are those of running them one after the
    other. *)
Fixpoint invocations (n : nat) (items : list string) (sh : Shell)
  : Shell * list Z :=
  match items with
  | [] => (sh, [])
  | item :: rest =>
      let '(sh1, status) :=
        process_parsed_url RETRIES OUTPUT_DIR curl messageOf item (date n) sh in
      let '(sh2, statuses) := invocations (S n) rest sh1 in
      (sh2, status :: statuses)
  end.

(** The lines [parse_url] accepts (lines 336-342). *)
Definition valid_urls (lines : list string) : list string :=
  filter (λ parsed, parsed ≠ EmptyString) (parse_url xargs <$> lines).

(** [run_scans] (lines 330-362) and its status: [exit 1] when no line is
    valid; otherwise that of the pipeline into [xargs], which is 123 when
    an invocation returned 1 and 1 when [xargs] failed otherwise. *)
Definition run_scans (lines : list string) (sh : Shell) : Shell * Z :=
  let urls := valid_urls lines in
  if (length urls =? 0)%nat then (sh, 1)
  else
    let '(items, ok) := xargs_items urls in
    let '(sh', statuses) := invocations 0 items sh in
    (sh', if forallb (Z.eqb 0) statuses then (if ok then 0 else 1) else 123).

(** [print_summary] (lines 365-388): the lines of the two counter files. *)
Definition print_summary (sh : Shell) : Ending :=
  Summary (success_count sh + failed_count sh) (success_count sh)
    (failed_count sh).

(** The end of [main] (lines 481-485) under [set -euo pipefail] (line
    20): a failing pipeline ends the script there and then, before the
    summary. *)
Definition scan_and_summarise (lines : list string) : Ending :=
  let '(sh, status) := run_scans lines freshShell in
  if status =? 0 then print_summary sh else Exit status.

End Run.

(** A host as the usage text shows them: not empty, with a dot, without
    white space, slash or colon, and not starting with a hash. *)
Definition plainHost (h : string) : bool :=
  existsChar (λ c, Ascii.eqb c ".") h
  && negb (existsChar isSpace h)
  && negb (existsChar (λ c, Ascii.eqb c "/") h)
  && negb (existsChar (λ c, Ascii.eqb c ":") h)
  && negb (isComment h).

(** An answer that ends the retries: success, or a validation error. *)
Definition decisive (a : Answer) : bool :=
  String.eqb (http_code a) "200" || String.eqb (http_code a) "422".

End Script.

(** ** Sample data for the error paths and for the script *)

Module Trial.
Import Script.

Definition timedOut : JsError :=
  {| err_name := Some "Error"; err_ctor := Some "Error";
     err_message := Some "timeout of 10000ms exceeded" |}.

(** A network that answers the first retrieval and none after it. *)
Definition flaky (site : Site) (n : nat) : Outcome ScanResult :=
  if (n =? 0)%nat then Sample.network site n else inl timedOut.

Definition env : Env :=
  {| cooldown := 60; baseUrl := None; scanner := flaky;
     resolves := λ _, true;
     violationReport := λ _, ("invalid-request", "the body is invalid") |}.

(** An API that is down for the first two attempts and answers the
    third. *)
Definition recovering (host_param : string) (attempt : Z) : Answer :=
  if attempt <? 3 then {| http_code := "503"; response := EmptyString |}
  else {| http_code := "200"; response := "{}" |}.

(** An API that cannot be reached. *)
Definition unreachable (host_param : string) (attempt : Z) : Answer :=
  {| http_code := "000"; response := EmptyString |}.

Definition noMessage (body : string) : string := "Validation error".

End Trial.

(* ===================================================================== *)
(** * Part II: properties                                                 *)
(* ===================================================================== *)

(** ** Strings *)

Module JsFacts.
Import Js.

Ltac by_cases_on_char c :=
  destruct c as [[] [] [] [] [] [] [] []]; vm_compute; try reflexivity;
  try discriminate; try (intros; discriminate); auto.

Lemma lowerChar_idem c : lowerChar (lowerChar c) = lowerChar c.
Proof. by_cases_on_char c. Qed.

Lemma lowerChar_whitespace c : isWhiteSpace (lowerChar c) = isWhiteSpace c.
Proof. by_cases_on_char c. Qed.

Lemma toLowerCase_idem s : toLowerCase (toLowerCase s) = toLowerCase s.
Proof.
  induction s as [|c s IH]; simpl; [reflexivity|].
  now rewrite lowerChar_idem, IH.
Qed.

Lemma toLowerCase_app a b :
  toLowerCase (a +:+ b) = toLowerCase a +:+ toLowerCase b.
Proof. induction a as [|c a IH]; simpl; [reflexivity|]. now rewrite IH. Qed.

Lemma trimStart_toLowerCase s :
  trimStart (toLowerCase s) = toLowerCase (trimStart s).
Proof.
  induction s as [|c s IH]; simpl; [reflexivity|].
  rewrite lowerChar_whitespace. now destruct (isWhiteSpace c).
Qed.

Lemma trimEnd_toLowerCase s :
  trimEnd (toLowerCase s) = toLowerCase (trimEnd s).
Proof.
  induction s as [|c s IH]; simpl; [reflexivity|].
  rewrite IH, lowerChar_whitespace.
  destruct (trimEnd s); simpl; [now destruct (isWhiteSpace c)|reflexivity].
Qed.

Lemma trim_toLowerCase s : trim (toLowerCase s) = toLowerCase (trim s).
Proof. unfold trim. now rewrite trimStart_toLowerCase, trimEnd_toLowerCase. Qed.

Lemma trimStart_clean s : startsClean (trimStart s) = true.
Proof.
  induction s as [|c s IH]; simpl; [reflexivity|].
  destruct (isWhiteSpace c) eqn:E; [exact IH|]. simpl. now rewrite E.
Qed.

Lemma trimStart_of_clean s : startsClean s = true → trimStart s = s.
Proof.
  destruct s as [|c s]; simpl; [reflexivity|].
  now destruct (isWhiteSpace c).
Qed.

Lemma trimEnd_clean s : startsClean s = true → startsClean (trimEnd s) = true.
Proof.
  destruct s as [|c s]; simpl; [reflexivity|]. intros Hc.
  destruct (trimEnd s); simpl; [|exact Hc].
  destruct (isWhiteSpace c) eqn:Ec; [discriminate|]. simpl. now rewrite Ec.
Qed.

Lemma trimEnd_cons c s :
  trimEnd (String c s) =
  match trimEnd s with
  | EmptyString => if isWhiteSpace c then EmptyString else String c EmptyString
  | t => String c t
  end.
Proof. reflexivity. Qed.

Lemma trimEnd_idem s : trimEnd (trimEnd s) = trimEnd s.
Proof.
  induction s as [|c s IH]; [reflexivity|].
  rewrite trimEnd_cons.
  destruct (trimEnd s) as [|d t] eqn:E.
  - destruct (isWhiteSpace c) eqn:Ec; [reflexivity|].
    rewrite trimEnd_cons. simpl. now rewrite Ec.
  - rewrite trimEnd_cons, IH. reflexivity.
Qed.

Lemma trim_idem s : trim (trim s) = trim s.
Proof.
  unfold trim.
  rewrite (trimStart_of_clean (trimEnd (trimStart s))).
  - apply trimEnd_idem.
  - apply trimEnd_clean, trimStart_clean.
Qed.

Lemma normalize_idem x : normalize (normalize x) = normalize x.
Proof.
  unfold normalize.
  now rewrite trim_toLowerCase, trim_idem, toLowerCase_idem.
Qed.

End JsFacts.

(** ** Site identity *)

Module SiteFacts.
Import Js SiteModel JsFacts.

Lemma append_nil b : EmptyString +:+ b = b.
Proof. reflexivity. Qed.

Lemma append_cons x a b : String x a +:+ b = String x (a +:+ b).
Proof. reflexivity. Qed.

Ltac app_simpl := rewrite ?append_cons, ?append_nil; simpl.

Lemma append_assoc a b c : (a +:+ b) +:+ c = a +:+ (b +:+ c).
Proof. induction a as [|x a IH]; app_simpl; [reflexivity|]. now rewrite IH. Qed.

Lemma append_empty_r a : a +:+ EmptyString = a.
Proof. induction a as [|x a IH]; app_simpl; [reflexivity|]. now rewrite IH. Qed.

Lemma existsChar_app f a b :
  existsChar f (a +:+ b) = existsChar f a || existsChar f b.
Proof.
  induction a as [|x a IH]; app_simpl; [reflexivity|].
  rewrite IH. now destruct (f x).
Qed.

Lemma forallChar_app f a b :
  forallChar f (a +:+ b) = forallChar f a && forallChar f b.
Proof.
  induction a as [|x a IH]; app_simpl; [reflexivity|].
  rewrite IH. now destruct (f x).
Qed.

Lemma forallChar_excludes (P Q : ascii → bool) s :
  (∀ c, P c = true → Q c = false) →
  forallChar P s = true → existsChar Q s = false.
Proof.
  intros HPQ. induction s as [|c s IH]; simpl; [reflexivity|].
  intros [Hc Hs]%andb_prop. now rewrite (HPQ c Hc), IH.
Qed.

(** *** Cutting a string *)

Lemma cutAt_joins stop s :
  (cutAt stop s).1 +:+ (cutAt stop s).2 = s.
Proof.
  induction s as [|c s IH]; simpl; [reflexivity|].
  destruct (stop c); [reflexivity|].
  destruct (cutAt stop s) as [a b]. simpl in *. app_simpl. now rewrite IH.
Qed.

Lemma cutAt_before stop s : existsChar stop (cutAt stop s).1 = false.
Proof.
  induction s as [|c s IH]; simpl; [reflexivity|].
  destruct (stop c) eqn:E; [reflexivity|].
  destruct (cutAt stop s) as [a b]. simpl in *. now rewrite E, IH.
Qed.

Lemma cutAt_after stop s :
  (cutAt stop s).2 = EmptyString
  ∨ ∃ c rest, (cutAt stop s).2 = String c rest ∧ stop c = true.
Proof.
  induction s as [|c s IH]; simpl; [now left|].
  destruct (stop c) eqn:E; [right; eauto|].
  destruct (cutAt stop s) as [a b]. exact IH.
Qed.

Lemma cutAt_app stop a b :
  existsChar stop a = false →
  (b = EmptyString ∨ ∃ c rest, b = String c rest ∧ stop c = true) →
  cutAt stop (a +:+ b) = (a, b).
Proof.
  intros Ha Hb. induction a as [|x a IH]; app_simpl; simpl in *.
  - destruct Hb as [->|(c & rest & -> & Hc)]; simpl; [reflexivity|].
    now rewrite Hc.
  - apply orb_false_elim in Ha as [Hx Ha]. rewrite Hx, (IH Ha). reflexivity.
Qed.

Lemma cutAt_all stop s : existsChar stop s = false → cutAt stop s = (s, EmptyString).
Proof.
  intros H. rewrite <- (append_empty_r s) at 1.
  apply cutAt_app; [exact H|now left].
Qed.

Lemma stripPrefix_Some p s r : stripPrefix p s = Some r → s = p +:+ r.
Proof.
  revert s. induction p as [|a p IH]; intros s; simpl.
  - now intros [= ->].
  - destruct s as [|b s]; [discriminate|].
    destruct (Ascii.eqb a b) eqn:E; [|discriminate].
    apply Ascii.eqb_eq in E as ->. intros H. app_simpl. now rewrite (IH _ H).
Qed.

Lemma stripScheme_suffix s : ∃ p, s = p +:+ stripScheme s.
Proof.
  unfold stripScheme.
  destruct (stripPrefix "https://" s) as [r|] eqn:E1.
  { exists "https://". now apply stripPrefix_Some. }
  destruct (stripPrefix "http://" s) as [r|] eqn:E2; simpl.
  { exists "http://". now apply stripPrefix_Some. }
  now exists EmptyString.
Qed.

(** *** The host-name grammar *)

Lemma splitOn_nonempty sep s : splitOn sep s ≠ [].
Proof.
  destruct s as [|c s]; simpl; [discriminate|].
  destruct (Ascii.eqb c sep); [discriminate|].
  destruct (splitOn sep s); discriminate.
Qed.

Lemma splitOn_chars sep (Q : ascii → bool) s :
  forallb (forallChar Q) (splitOn sep s) = true →
  forallChar (λ c, Q c || Ascii.eqb c sep) s = true.
Proof.
  induction s as [|c s IH]; simpl; [reflexivity|].
  destruct (Ascii.eqb c sep) eqn:E; simpl.
  - intros H. rewrite orb_true_r. simpl. exact (IH H).
  - destruct (splitOn sep s) as [|l ls] eqn:El.
    { now destruct (splitOn_nonempty sep s). }
    simpl in *. intros [[Hc Hl]%andb_prop Hls]%andb_prop.
    rewrite Hc. simpl. apply IH. now rewrite Hl, Hls.
Qed.

Lemma validLabel_chars l :
  validLabel l = true →
  forallChar (λ x, isLetter x || isDigit x || isHyphen x) l = true.
Proof.
  destruct l as [|c l]; [discriminate|]. unfold validLabel.
  now intros [[H _]%andb_prop _]%andb_prop.
Qed.

Lemma forallb_impl {A} (f g : A → bool) l :
  (∀ x, f x = true → g x = true) → forallb f l = true → forallb g l = true.
Proof.
  intros Hfg. induction l as [|x l IH]; simpl; [reflexivity|].
  intros [Hx Hl]%andb_prop. now rewrite (Hfg x Hx), IH.
Qed.


Lemma validHostname_chars h :
  validHostname h = true →
  forallChar isHostChar h = true.
Proof.
  unfold validHostname. intros [H _]%andb_prop.
  apply splitOn_chars. revert H. apply forallb_impl, validLabel_chars.
Qed.

Lemma string_of_uint_digits d :
  forallChar isDigit (NilEmpty.string_of_uint d) = true.
Proof. induction d; simpl; auto. Qed.

Lemma parsePort_printPort p :
  (1 ≤ p ≤ 65535)%N → parsePort (printPort p) = Some p.
Proof.
  intros [H1 H2]. unfold parsePort, printPort.
  rewrite NilEmpty.usu, DecimalN.Unsigned.of_to.
  apply N.leb_le in H1, H2. now rewrite H1, H2.
Qed.

Ltac next_char h Hv :=
  destruct h as [|? h]; [exfalso; revert Hv; vm_compute; discriminate|];
  rewrite ?append_cons, ?append_nil; cbn [stripPrefix];
  match goal with
  | |- context [Ascii.eqb ?x ?y] =>
      destruct (Ascii.eqb_spec x y); [subst|reflexivity]
  end.

Lemma stripPrefix_host p h r :
  p = "https://" ∨ p = "http://" →
  validHostname h = true → stripPrefix p (h +:+ r) = None.
Proof.
  intros Hp Hv. pose proof (validHostname_chars h Hv) as Hc.
  destruct Hp as [-> | ->].
  - do 5 next_char h Hv. next_char h Hv.
    exfalso. revert Hc. unfold isHostChar. simpl. discriminate.
  - do 4 next_char h Hv. next_char h Hv.
    exfalso. revert Hc. unfold isHostChar. simpl. discriminate.
Qed.

Lemma stripScheme_host h r :
  validHostname h = true → stripScheme (h +:+ r) = h +:+ r.
Proof.
  intros Hv. unfold stripScheme.
  rewrite !stripPrefix_host by auto. reflexivity.
Qed.

Lemma validHostname_nonempty h : validHostname h = true → ∃ c t, h = String c t.
Proof. destruct h; [discriminate|eauto]. Qed.

Lemma hostChar_no_stop (stop : ascii → bool) h :
  (∀ c, isHostChar c = true → stop c = false) →
  validHostname h = true → existsChar stop h = false.
Proof.
  intros Hs Hv. eapply forallChar_excludes; [exact Hs|].
  now apply validHostname_chars.
Qed.

Lemma digit_no_stop (stop : ascii → bool) p :
  (∀ c, isDigit c = true → stop c = false) →
  existsChar stop (printPort p) = false.
Proof.
  intros Hs. eapply forallChar_excludes; [exact Hs|].
  apply string_of_uint_digits.
Qed.

Lemma hostChar_facts c :
  isHostChar c = true →
  isWhiteSpace c = false ∧ isQueryOrFragment c = false
  ∧ Ascii.eqb c "/" = false ∧ Ascii.eqb c ":" = false.
Proof. by_cases_on_char c. Qed.

Lemma digit_facts c :
  isDigit c = true →
  isWhiteSpace c = false ∧ isQueryOrFragment c = false
  ∧ Ascii.eqb c "/" = false ∧ Ascii.eqb c ":" = false.
Proof. by_cases_on_char c. Qed.

(** *** Parsing and printing *)

Lemma fromSiteString_wellFormed x s :
  fromSiteString x = inr s → wellFormed s.
Proof.
  unfold fromSiteString.
  destruct (String.eqb x EmptyString || existsChar isWhiteSpace x) eqn:Hx;
    [discriminate|].
  apply orb_false_elim in Hx as [_ Hws].
  set (s2 := (cutAt isQueryOrFragment (stripScheme x)).1).
  pose proof (cutAt_joins (λ c, Ascii.eqb c "/") s2) as Hj.
  pose proof (cutAt_after (λ c, Ascii.eqb c "/") s2) as Ha.
  destruct (cutAt (λ c, Ascii.eqb c "/") s2) as [hostport pth] eqn:Ecut.
  simpl in Hj, Ha.
  destruct (cutAt (λ c, Ascii.eqb c ":") hostport) as [h portpart] eqn:Ecut2.
  destruct (validHostname (toLowerCase h) && negb (isIpLiteral (toLowerCase h)))
    eqn:Hv; [|discriminate].
  apply andb_prop in Hv as [Hv Hip]. apply negb_true_iff in Hip.
  assert (Hqf : existsChar isQueryOrFragment pth = false).
  { pose proof (cutAt_before isQueryOrFragment (stripScheme x)) as Hb.
    fold s2 in Hb. rewrite <- Hj, existsChar_app in Hb.
    now apply orb_false_elim in Hb as [_ ?]. }
  assert (Hw : existsChar isWhiteSpace pth = false).
  { destruct (stripScheme_suffix x) as [p Hp].
    rewrite Hp, existsChar_app in Hws. apply orb_false_elim in Hws as [_ Hws].
    rewrite <- (cutAt_joins isQueryOrFragment (stripScheme x)) in Hws.
    fold s2 in Hws. rewrite existsChar_app in Hws.
    apply orb_false_elim in Hws as [Hws _].
    rewrite <- Hj, existsChar_app in Hws.
    now apply orb_false_elim in Hws as [_ ?]. }
  assert (Hp : pth = EmptyString ∨ ∃ rest, pth = String "/" rest).
  { destruct Ha as [->|(c & rest & -> & Hc)]; [now left|right].
    apply Ascii.eqb_eq in Hc as ->. eauto. }
  assert (Hl : toLowerCase (toLowerCase h) = toLowerCase h)
    by apply toLowerCase_idem.
  destruct portpart as [|colon digits].
  - intros [= <-]. repeat split; simpl; auto.
  - unfold parsePort.
    destruct (NilEmpty.uint_of_string digits) as [d|]; [|discriminate].
    destruct ((1 <=? N.of_uint d)%N && (N.of_uint d <=? 65535)%N) eqn:Hr;
      [|discriminate].
    apply andb_prop in Hr as [H1%N.leb_le H2%N.leb_le].
    intros [= <-]. repeat split; simpl; auto.
Qed.

Lemma fromSiteString_asSiteKey s :
  wellFormed s → fromSiteString (asSiteKey s) = inr s.
Proof.
  destruct s as [h p pth]. unfold wellFormed, asSiteKey. simpl.
  intros (Hv & Hip & Hl & Hport & Hp & Hqf & Hws).
  set (portstr := match p with
                  | Some n => ":" +:+ printPort n
                  | None => EmptyString
                  end).
  assert (Hps : portstr = EmptyString ∨
                ∃ n, p = Some n ∧ portstr = String ":" (printPort n)).
  { destruct p; [right; eauto|now left]. }
  assert (Hstop : ∀ stop : ascii → bool,
             (∀ c, isHostChar c = true → stop c = false) →
             (∀ c, isDigit c = true → stop c = false) →
             stop ":"%char = false →
             existsChar stop (h +:+ portstr) = false).
  { intros stop H1 H2 H3. rewrite existsChar_app.
    rewrite (hostChar_no_stop stop h H1 Hv). simpl.
    destruct Hps as [->|(n & _ & ->)]; [reflexivity|].
    simpl. rewrite H3. simpl. now apply digit_no_stop. }
  unfold fromSiteString.
  destruct (validHostname_nonempty h Hv) as (c & t & ->).
  rewrite append_cons. cbn [String.eqb]. cbn [orb].
  rewrite <- append_cons. rewrite <- append_assoc.
  assert (existsChar isWhiteSpace ((String c t +:+ portstr) +:+ pth) = false)
    as ->.
  { rewrite existsChar_app, Hws, Hstop; auto.
    - intros. now apply hostChar_facts.
    - intros. now apply digit_facts. }
  rewrite append_assoc, stripScheme_host by exact Hv.
  rewrite <- append_assoc.
  rewrite (cutAt_all isQueryOrFragment).
  2:{ rewrite existsChar_app, Hqf, Hstop; auto.
      - intros. now apply hostChar_facts.
      - intros. now apply digit_facts. }
  cbn [fst].
  rewrite (cutAt_app (λ c, Ascii.eqb c "/")).
  2:{ apply Hstop; auto.
      - intros. now apply hostChar_facts.
      - intros. now apply digit_facts. }
  2:{ destruct Hp as [->|[rest ->]]; [now left|right]. eauto. }
  rewrite (cutAt_app (λ c, Ascii.eqb c ":")).
  2:{ apply hostChar_no_stop; [|exact Hv]. intros. now apply hostChar_facts. }
  2:{ destruct Hps as [->|(n & _ & ->)]; [now left|right; eauto]. }
  rewrite Hl, Hv, Hip. cbn [negb andb].
  destruct Hps as [E|(n & -> & E)]; rewrite E.
  - destruct p as [n|]; [discriminate E|reflexivity].
  - now rewrite parsePort_printPort.
Qed.

End SiteFacts.

(** ** The key of a site given to an endpoint *)

Module KeyFacts.
Import Js SiteModel JsFacts SiteFacts.

Lemma toLowerCase_length s : String.length (toLowerCase s) = String.length s.
Proof. induction s as [|c s IH]; simpl; [reflexivity|]. now rewrite IH. Qed.

Lemma append_inj_length a a' b b' :
  String.length a = String.length a' →
  a +:+ b = a' +:+ b' → a = a' ∧ b = b'.
Proof.
  revert a'. induction a as [|c a IH]; intros [|c' a']; simpl; try discriminate.
  - auto.
  - intros [= Hlen]. rewrite !append_cons. intros [= -> Happ].
    destruct (IH a' Hlen Happ) as [-> ->]. auto.
Qed.

Lemma toLowerCase_pieces a b :
  toLowerCase (a +:+ b) = a +:+ b →
  toLowerCase a = a ∧ toLowerCase b = b.
Proof.
  rewrite toLowerCase_app. apply append_inj_length, toLowerCase_length.
Qed.

Lemma lowerChar_of_plain c :
  isDigit c = true ∨ c = ":"%char → lowerChar c = c.
Proof. intros [H| ->]; [|reflexivity]. revert H. by_cases_on_char c. Qed.

Lemma toLowerCase_digits ds :
  forallChar isDigit ds = true → toLowerCase ds = ds.
Proof.
  induction ds as [|c ds IH]; simpl; [reflexivity|].
  intros [Hc Hds]%andb_prop. rewrite lowerChar_of_plain by auto. now rewrite IH.
Qed.

(** The path of a parsed site is a piece of the input. *)
Lemma fromSiteString_path_piece x s :
  fromSiteString x = inr s → ∃ pre post, x = pre +:+ (path s +:+ post).
Proof.
  unfold fromSiteString.
  destruct (String.eqb x EmptyString || existsChar isWhiteSpace x); [discriminate|].
  destruct (stripScheme_suffix x) as [p Hp].
  pose proof (cutAt_joins isQueryOrFragment (stripScheme x)) as Hq.
  set (s2 := (cutAt isQueryOrFragment (stripScheme x)).1) in *.
  set (rest := (cutAt isQueryOrFragment (stripScheme x)).2) in *.
  pose proof (cutAt_joins (λ c, Ascii.eqb c "/") s2) as Hj.
  destruct (cutAt (λ c, Ascii.eqb c "/") s2) as [hostport pth].
  simpl in Hj.
  assert (Hx : x = (p +:+ hostport) +:+ (pth +:+ rest)).
  { rewrite !append_assoc, <- (append_assoc hostport), Hj, Hq. exact Hp. }
  destruct (cutAt (λ c, Ascii.eqb c ":") hostport) as [h portpart].
  destruct (validHostname (toLowerCase h) && negb (isIpLiteral (toLowerCase h)));
    [|discriminate].
  destruct portpart as [|colon digits].
  - intros [= <-]. simpl. eauto.
  - destruct (parsePort digits); [|discriminate]. intros [= <-]. simpl. eauto.
Qed.

Lemma printPort_lower p : toLowerCase (printPort p) = printPort p.
Proof. apply toLowerCase_digits, string_of_uint_digits. Qed.

Lemma asSiteKey_lower s :
  wellFormed s → toLowerCase (path s) = path s →
  toLowerCase (asSiteKey s) = asSiteKey s.
Proof.
  intros (_ & _ & Hl & _) Hp. unfold asSiteKey.
  rewrite !toLowerCase_app, Hl, Hp. f_equal. f_equal.
  destruct (port s) as [p|]; [|reflexivity].
  rewrite toLowerCase_app, printPort_lower. reflexivity.
Qed.

Lemma asSiteKey_no_whitespace s :
  wellFormed s → existsChar isWhiteSpace (asSiteKey s) = false.
Proof.
  intros (Hv & _ & _ & _ & _ & _ & Hws). unfold asSiteKey.
  rewrite !existsChar_app, Hws.
  rewrite (hostChar_no_stop isWhiteSpace (hostname s))
    by (auto; intros; now apply hostChar_facts).
  simpl. destruct (port s) as [p|]; [|reflexivity].
  rewrite existsChar_app, digit_no_stop by (intros; now apply digit_facts).
  reflexivity.
Qed.

Lemma trimStart_no_whitespace k :
  existsChar isWhiteSpace k = false → trimStart k = k.
Proof.
  destruct k as [|c k]; simpl; [reflexivity|].
  now intros [-> _]%orb_false_elim.
Qed.

Lemma trimEnd_no_whitespace k :
  existsChar isWhiteSpace k = false → trimEnd k = k.
Proof.
  induction k as [|c k IH]; [reflexivity|]. simpl existsChar.
  intros [Hc Hk]%orb_false_elim. rewrite trimEnd_cons, (IH Hk), Hc.
  now destruct k.
Qed.

Lemma trim_no_whitespace k :
  existsChar isWhiteSpace k = false → trim k = k.
Proof.
  intros H. unfold trim.
  now rewrite trimStart_no_whitespace, trimEnd_no_whitespace.
Qed.

(** The key of a site parsed from a normalised input is normalised. *)
Lemma normalize_asSiteKey x s :
  fromSiteString (normalize x) = inr s → normalize (asSiteKey s) = asSiteKey s.
Proof.
  intros Hs. pose proof (fromSiteString_wellFormed _ _ Hs) as Hwf.
  unfold normalize at 1.
  rewrite trim_no_whitespace by now apply asSiteKey_no_whitespace.
  apply asSiteKey_lower; [exact Hwf|].
  destruct (fromSiteString_path_piece _ _ Hs) as (pre & post & Hx).
  assert (Hlow : toLowerCase (normalize x) = normalize x)
    by (unfold normalize; apply toLowerCase_idem).
  rewrite Hx in Hlow.
  apply toLowerCase_pieces in Hlow as [_ Hlow].
  now apply toLowerCase_pieces in Hlow as [Hlow _].
Qed.

End KeyFacts.

(** ** Computations run alone *)

Module TaskFacts.

Lemma run_bind {A B} (t : Task A) (k : A → Task B) w :
  run (bind t k) w =
  match run t w with
  | (inr a, w') => run (k a) w'
  | (inl e, w') => (inl e, w')
  end.
Proof.
  revert w. induction t as [[e|a]|next IH after]; intros w; simpl; auto.
Qed.

Lemma run_mbind {A B} (t : Task A) (k : A → Task B) w :
  run (t ≫= k) w =
  match run t w with
  | (inr a, w') => run (k a) w'
  | (inl e, w') => (inl e, w')
  end.
Proof. apply run_bind. Qed.

Lemma run_await {A} (op : World → Outcome A * World) w :
  run (await op) w = op w.
Proof. unfold await. simpl. now destruct (op w). Qed.

Lemma run_ret {A} (a : A) w : run (ret a) w = (inr a, w).
Proof. reflexivity. Qed.

Lemma run_scan env site w :
  run (scan env site) w =
  (scanner env site (length (retrievals w)),
   logRetrieval (SiteModel.asSiteKey site) w).
Proof. unfold scan. now rewrite run_await. Qed.

Lemma run_select key age w :
  run (selectScanLatestScanBySite key age) w = (inr (recentRow key age w), w).
Proof. unfold selectScanLatestScanBySite. now rewrite run_await. Qed.

Lemma run_executeScan env site w :
  run (executeScan env site) w =
  match scanner env site (length (retrievals w)) with
  | inr result =>
      insertScan (SiteModel.asSiteKey site) (scan_report result)
        (logRetrieval (SiteModel.asSiteKey site) w)
  | inl e => (inl e, logRetrieval (SiteModel.asSiteKey site) w)
  end.
Proof.
  unfold executeScan. rewrite run_mbind, run_scan.
  destruct (scanner env site _); [reflexivity|]. now rewrite run_await.
Qed.

End TaskFacts.

(** ** What computations can come to *)

Module SettleFacts.

Lemma CanSettle_Settled {A} (r r' : Outcome A) :
  CanSettle (Settled r) r' ↔ r' = r.
Proof.
  split; [|intros ->; constructor].
  now inversion 1.
Qed.

Lemma CanSettle_Pending {A} next after (r : Outcome A) :
  CanSettle (Pending next after) r ↔ ∃ w, CanSettle (next w) r.
Proof.
  split.
  - inversion 1; subst. eauto.
  - intros [w H]. econstructor; eauto.
Qed.

Lemma CanSettle_bind {A B} (t : Task A) (k : A → Task B) r :
  CanSettle (bind t k) r ↔
  (∃ e, CanSettle t (inl e) ∧ r = inl e)
  ∨ (∃ a, CanSettle t (inr a) ∧ CanSettle (k a) r).
Proof.
  revert r. induction t as [[e|a]|next IH after]; intros r; simpl.
  - rewrite CanSettle_Settled. split.
    + intros ->. left. exists e. split; [constructor|reflexivity].
    + intros [(e' & H%CanSettle_Settled & ->)|(a & H%CanSettle_Settled & _)];
        congruence.
  - split.
    + intros H. right. exists a. split; [constructor|exact H].
    + intros [(e' & H%CanSettle_Settled & _)|(a' & H%CanSettle_Settled & Hk)];
        [discriminate|]. now injection H as <-.
  - rewrite CanSettle_Pending. split.
    + intros [w [(e & H & ->)|(a & H & Hk)]%IH].
      * left. exists e. split; [|reflexivity]. apply CanSettle_Pending; eauto.
      * right. exists a. split; [|exact Hk]. apply CanSettle_Pending; eauto.
    + intros [(e & [w H]%CanSettle_Pending & ->)|(a & [w H]%CanSettle_Pending & Hk)];
        exists w; apply IH; eauto.
Qed.

Lemma CanSettle_mbind {A B} (t : Task A) (k : A → Task B) r :
  CanSettle (t ≫= k) r ↔
  (∃ e, CanSettle t (inl e) ∧ r = inl e)
  ∨ (∃ a, CanSettle t (inr a) ∧ CanSettle (k a) r).
Proof. apply CanSettle_bind. Qed.

Lemma CanSettle_await {A} (op : World → Outcome A * World) r :
  CanSettle (await op) r ↔ ∃ w, (op w).1 = r.
Proof.
  unfold await. rewrite CanSettle_Pending.
  split; intros [w H]; exists w.
  - now apply CanSettle_Settled in H.
  - now apply CanSettle_Settled.
Qed.

Lemma CanSettle_tryCatch {A} (t : Task A) handler r :
  CanSettle (tryCatch t handler) r ↔
  (∃ a, CanSettle t (inr a) ∧ r = inr a)
  ∨ (∃ e, CanSettle t (inl e) ∧ CanSettle (handler e) r).
Proof.
  revert r. induction t as [[e|a]|next IH after]; intros r; simpl.
  - split.
    + intros H. right. exists e. split; [constructor|exact H].
    + intros [(a & H%CanSettle_Settled & _)|(e' & H%CanSettle_Settled & Hh)];
        [discriminate|]. now injection H as <-.
  - rewrite CanSettle_Settled. split.
    + intros ->. left. exists a. split; [constructor|reflexivity].
    + intros [(a' & H%CanSettle_Settled & ->)|(e & H%CanSettle_Settled & _)];
        congruence.
  - rewrite CanSettle_Pending. split.
    + intros [w [(a & H & ->)|(e & H & Hh)]%IH].
      * left. exists a. split; [|reflexivity]. apply CanSettle_Pending; eauto.
      * right. exists e. split; [|exact Hh]. apply CanSettle_Pending; eauto.
    + intros [(a & [w H]%CanSettle_Pending & ->)|(e & [w H]%CanSettle_Pending & Hh)];
        exists w; apply IH; eauto.
Qed.

Lemma run_CanSettle {A} (t : Task A) w : CanSettle t (run t w).1.
Proof.
  revert w. induction t as [r|next IH after]; intros w; simpl.
  - constructor.
  - econstructor. apply IH.
Qed.

Lemma NeverThrows_CanSettle {A} (t : Task A) r :
  NeverThrows t → CanSettle t r → ∃ a, r = inr a.
Proof.
  intros Hn Hs. induction Hs as [[e|a]|next after w r Hs IH]; simpl in *.
  - contradiction.
  - eauto.
  - apply IH, Hn.
Qed.

Lemma tryCatch_NeverThrows {A} (t : Task A) handler :
  (∀ e, NeverThrows (handler e)) → NeverThrows (tryCatch t handler).
Proof.
  intros Hh. induction t as [[e|a]|next IH after]; simpl; auto.
Qed.

End SettleFacts.

(** ** The endpoints: what they can answer *)

Module EndpointFacts.
Import SiteModel TaskFacts SettleFacts.

Lemma lookup_withoutScoreDescription (tests : gmap string TestResult) name :
  withoutScoreDescription tests !! name
  = delete "scoreDescription" <$> tests !! name.
Proof.
  unfold withoutScoreDescription.
  rewrite <- (list_to_map_to_list tests) at 2.
  rewrite <- lookup_fmap, <- list_to_map_fmap.
  reflexivity.
Qed.

Lemma delete_strippedFrom (test : TestResult) :
  strippedFrom test (delete "scoreDescription" test).
Proof.
  split; [apply lookup_delete_eq|].
  intros field Hf. now apply lookup_delete_ne.
Qed.

(** The full details of a response are those of the scan result [full]. *)
Lemma settle_select key age r :
  CanSettle (selectScanLatestScanBySite key age) r ↔
  ∃ w, r = inr (recentRow key age w).
Proof.
  unfold selectScanLatestScanBySite. rewrite CanSettle_await. simpl.
  split; intros [w H]; eauto.
Qed.

Lemma settle_scan env site r :
  CanSettle (scan env site) r ↔ ∃ w, r = scanner env site (length (retrievals w)).
Proof.
  unfold scan. rewrite CanSettle_await. simpl.
  split; intros [w H]; eauto.
Qed.

Lemma settle_scan_index env site r :
  CanSettle (scan env site) r ↔ ∃ n, r = scanner env site n.
Proof.
  rewrite settle_scan. split.
  - intros [w ->]. eauto.
  - intros [n ->].
    exists {| db := []; clock := 0; retrievals := replicate n EmptyString |}.
    simpl. now rewrite length_replicate.
Qed.

Lemma settle_executeScan env site row :
  CanSettle (executeScan env site) (inr row) →
  ∃ w first n, scanner env site n = inr first
               ∧ row = summaryRow w (asSiteKey site) (scan_report first).
Proof.
  unfold executeScan. rewrite CanSettle_mbind.
  intros [(e & _ & [=])|(first & [n H]%settle_scan_index & Hi)].
  apply CanSettle_await in Hi as [w Hi]. simpl in Hi.
  injection Hi as <-. eauto.
Qed.

Lemma settle_scanWithFullDetails env site age v :
  CanSettle (scanWithFullDetails env site age) (inr v) →
  ∃ row full n r,
    v = EntryOk r
    ∧ scanner env site n = inr full
    ∧ summaryOf row r
    ∧ resp_details_url r = detailsUrl env site
    ∧ resp_fullDetails r =
        {| fd_scan := scan_report full;
           fd_tests := withoutScoreDescription (scan_tests full) |}.
Proof.
  unfold scanWithFullDetails. rewrite CanSettle_mbind.
  intros [(e & _ & [=])|(found & _ & H)].
  apply CanSettle_mbind in H as [(e & _ & [=])|(row & _ & H)].
  apply CanSettle_mbind in H as [(e & _ & [=])|(full & [n Hf]%settle_scan_index & H)].
  apply CanSettle_Settled in H. injection H as ->.
  eexists row, full, n, _. repeat split. now symmetry.
Qed.

Lemma settle_scanOrReturnRecentWithFullDetails env site age r :
  CanSettle (scanOrReturnRecentWithFullDetails env site age) (inr r) →
  ∃ row full n,
    scanner env site n = inr full
    ∧ summaryOf row r
    ∧ resp_details_url r = detailsUrl env site
    ∧ resp_fullDetails r =
        {| fd_scan := scan_report full;
           fd_tests := withoutScoreDescription (scan_tests full) |}.
Proof.
  unfold scanOrReturnRecentWithFullDetails. rewrite CanSettle_mbind.
  intros [(e & _ & [=])|(found & _ & H)].
  apply CanSettle_mbind in H as [(e & _ & [=])|(row & _ & H)].
  apply CanSettle_mbind in H as [(e & _ & [=])|(full & [n Hf]%settle_scan_index & H)].
  apply CanSettle_Settled in H. injection H as ->.
  eexists row, full, n. repeat split. now symmetry.
Qed.

Lemma settle_checkSitename env site r :
  CanSettle (checkSitename env site) r ↔
  r = if resolves env (hostname site) then inr site
      else inl (invalidHostnameLookup site).
Proof.
  unfold checkSitename. rewrite CanSettle_await. simpl.
  split; [now intros [_ <-]|intros ->].
  now exists {| db := []; clock := 0; retrievals := [] |}.
Qed.

(** What [POST /scanFullDetails] can answer. *)
Lemma settle_scanFullDetails env host r :
  CanSettle (scanFullDetails env host) (inr r) →
  ∃ site, fromSiteString (normalize host) = inr site
          ∧ resolves env (hostname site) = true
          ∧ CanSettle (scanOrReturnRecentWithFullDetails env site (cooldown env)) (inr r).
Proof.
  unfold scanFullDetails. cbv zeta. rewrite CanSettle_mbind.
  intros [(e & _ & [=])|(site & Hs%CanSettle_Settled & H)].
  apply CanSettle_mbind in H as [(e & _ & [=])|(site' & Hc%settle_checkSitename & H)].
  exists site. unfold call in Hs. 
  destruct (resolves env (hostname site)); [|discriminate].
  injection Hc as ->. auto.
Qed.

Lemma settle_scanSingleUrlTry env url v :
  CanSettle (scanSingleUrlTry env url) (inr v) →
  ∃ site, fromSiteString (normalize url) = inr site
          ∧ resolves env (hostname site) = true
          ∧ CanSettle (scanWithFullDetails env site (cooldown env)) (inr v).
Proof.
  unfold scanSingleUrlTry. cbv zeta. rewrite CanSettle_mbind.
  intros [(e & _ & [=])|(site & Hs%CanSettle_Settled & H)].
  apply CanSettle_mbind in H as [(e & _ & [=])|(site' & Hc%settle_checkSitename & H)].
  exists site. unfold call in Hs.
  destruct (resolves env (hostname site)); [|discriminate].
  injection Hc as ->. auto.
Qed.

(** An entry of the batch is the answer of its scan, or the report of
    what its [try] block threw. *)
Lemma settle_scanSingleUrl env url r :
  CanSettle (scanSingleUrl env url) r →
  (∃ v, r = inr v ∧ CanSettle (scanSingleUrlTry env url) (inr v))
  ∨ (∃ e, r = inr (failureEntry e) ∧ CanSettle (scanSingleUrlTry env url) (inl e)).
Proof.
  unfold scanSingleUrl. rewrite CanSettle_tryCatch.
  intros [(a & H & ->)|(e & H & Hh%CanSettle_Settled)]; [left|right]; eauto.
Qed.

Lemma scanSingleUrl_NeverThrows env url : NeverThrows (scanSingleUrl env url).
Proof. apply tryCatch_NeverThrows. now intros e. Qed.

(** What a response is made of: a row for the summary, the site for the
    details URL, and one answer of the network for the full details. *)
Lemma settle_response env host r :
  CanSettle (scanFullDetails env host) (inr r) →
  ∃ site row full n,
    fromSiteString (normalize host) = inr site
    ∧ resolves env (hostname site) = true
    ∧ scanner env site n = inr full
    ∧ summaryOf row r
    ∧ resp_details_url r = detailsUrl env site
    ∧ resp_fullDetails r =
        {| fd_scan := scan_report full;
           fd_tests := withoutScoreDescription (scan_tests full) |}.
Proof.
  intros (site & Hsite & Hres & H)%settle_scanFullDetails.
  apply settle_scanOrReturnRecentWithFullDetails in H
    as (row & full & n & Hfull & Hsum & Hurl & Hfd).
  exists site, row, full, n.
  exact (conj Hsite (conj Hres (conj Hfull (conj Hsum (conj Hurl Hfd))))).
Qed.

Lemma settle_entry_ok env key r :
  CanSettle (scanSingleUrl env key) (inr (EntryOk r)) →
  ∃ site row full n,
    fromSiteString (normalize key) = inr site
    ∧ resolves env (hostname site) = true
    ∧ scanner env site n = inr full
    ∧ summaryOf row r
    ∧ resp_details_url r = detailsUrl env site
    ∧ resp_fullDetails r =
        {| fd_scan := scan_report full;
           fd_tests := withoutScoreDescription (scan_tests full) |}.
Proof.
  intros [(v & [= <-] & H)|(e & [=] & _)]%settle_scanSingleUrl.
  apply settle_scanSingleUrlTry in H as (site & Hsite & Hres & H).
  apply settle_scanWithFullDetails in H
    as (row & full & n & r' & [= <-] & Hfull & Hsum & Hurl & Hfd).
  exists site, row, full, n.
  exact (conj Hsite (conj Hres (conj Hfull (conj Hsum (conj Hurl Hfd))))).
Qed.

Lemma stripped_test (tests : gmap string TestResult) name emitted :
  withoutScoreDescription tests !! name = Some emitted →
  ∃ test, tests !! name = Some test ∧ strippedFrom test emitted.
Proof.
  rewrite lookup_withoutScoreDescription.
  destruct (tests !! name) as [test|]; [|discriminate].
  intros [= <-]. exists test. split; [reflexivity|apply delete_strippedFrom].
Qed.

Lemma detailsUrl_asConfigured env site :
  detailsUrlAsConfigured env site (detailsUrl env site).
Proof.
  unfold detailsUrlAsConfigured, detailsUrl, Js.truthy. split.
  - intros base -> Hbase. simpl.
    now destruct (String.eqb_spec base EmptyString).
  - now intros [-> | ->].
Qed.

End EndpointFacts.

(** ** The endpoints run alone: their effect on the world *)

Module RunFacts.
Import SiteModel TaskFacts SettleFacts EndpointFacts.

Lemma run_scanOrReturnRecent_cached env site age w row :
  recentRow (asSiteKey site) age w = Some row →
  ∀ full, scanner env site (length (retrievals w)) = inr full →
  ∃ r, run (scanOrReturnRecentWithFullDetails env site age) w
       = (inr r, logRetrieval (asSiteKey site) w)
       ∧ summaryOf row r
       ∧ resp_details_url r = detailsUrl env site
       ∧ resp_fullDetails r =
           {| fd_scan := scan_report full;
              fd_tests := withoutScoreDescription (scan_tests full) |}.
Proof.
  intros Hrow full Hfull. unfold scanOrReturnRecentWithFullDetails.
  rewrite run_mbind, run_select, Hrow, run_mbind, run_ret, run_mbind, run_scan.
  rewrite Hfull, run_ret. eexists. split; [reflexivity|]. repeat split.
Qed.

(** Whatever the network answers, a request that finds a recent row
    leaves the rows as they are and performs one retrieval. *)
Lemma run_scanOrReturnRecent_cached_world env site age w row :
  recentRow (asSiteKey site) age w = Some row →
  (run (scanOrReturnRecentWithFullDetails env site age) w).2
  = logRetrieval (asSiteKey site) w.
Proof.
  intros Hrow. unfold scanOrReturnRecentWithFullDetails.
  rewrite run_mbind, run_select, Hrow, run_mbind, run_ret, run_mbind, run_scan.
  now destruct (scanner env site _).
Qed.

Lemma run_scanOrReturnRecent_fresh env site age w :
  recentRow (asSiteKey site) age w = None →
  ∀ first full,
  scanner env site (length (retrievals w)) = inr first →
  scanner env site (S (length (retrievals w))) = inr full →
  let key := asSiteKey site in
  let row := summaryRow w key (scan_report first) in
  ∃ r, run (scanOrReturnRecentWithFullDetails env site age) w
       = (inr r, {| db := row :: db w; clock := clock w;
                    retrievals := key :: key :: retrievals w |})
       ∧ summaryOf row r
       ∧ resp_details_url r = detailsUrl env site
       ∧ resp_fullDetails r =
           {| fd_scan := scan_report full;
              fd_tests := withoutScoreDescription (scan_tests full) |}.
Proof.
  intros Hrow first full Hfirst Hfull key row.
  unfold scanOrReturnRecentWithFullDetails.
  rewrite run_mbind, run_select, Hrow, run_mbind, run_executeScan, Hfirst.
  unfold insertScan. rewrite run_mbind, run_scan. cbn [retrievals logRetrieval length].
  rewrite Hfull. eexists. split; [reflexivity|]. repeat split.
Qed.

(** A request persists at most one row, and none when it finds a recent
    one. *)
Lemma run_scanOrReturnRecent_rows env site age w :
  let w' := (run (scanOrReturnRecentWithFullDetails env site age) w).2 in
  clock w' = clock w
  ∧ (db w' = db w
     ∨ recentRow (asSiteKey site) age w = None
       ∧ ∃ first, scanner env site (length (retrievals w)) = inr first
          ∧ db w' = summaryRow w (asSiteKey site) (scan_report first) :: db w).
Proof.
  cbv zeta. unfold scanOrReturnRecentWithFullDetails.
  rewrite run_mbind, run_select.
  destruct (recentRow (asSiteKey site) age w) as [row|] eqn:Hrow.
  - rewrite run_mbind, run_ret, run_mbind, run_scan.
    destruct (scanner env site _); simpl; auto.
  - rewrite run_mbind, run_executeScan.
    destruct (scanner env site _) as [e|first] eqn:Hfirst; [simpl; auto|].
    unfold insertScan. rewrite run_mbind, run_scan.
    cbn [retrievals logRetrieval length].
    destruct (scanner env site (S _)); simpl; split; auto; right; eauto.
Qed.

Lemma run_scanFullDetails env host site w :
  fromSiteString (normalize host) = inr site →
  resolves env (hostname site) = true →
  run (scanFullDetails env host) w
  = run (scanOrReturnRecentWithFullDetails env site (cooldown env)) w.
Proof.
  intros Hsite Hres. unfold scanFullDetails. cbv zeta.
  rewrite run_mbind. unfold call. cbn [run]. rewrite Hsite.
  rewrite run_mbind. unfold checkSitename. rewrite run_await, Hres.
  reflexivity.
Qed.

(** *** The latest row *)

Lemma latestRow_key key rows r :
  latestRow key rows = Some r → row_site_key r = key.
Proof.
  induction rows as [|x rows IH]; simpl; [discriminate|].
  destruct (String.eqb (row_site_key x) key) eqn:E; [|exact IH].
  apply String.eqb_eq in E.
  destruct (latestRow key rows) as [r'|]; [|congruence].
  destruct (startedAfter r' x); [|congruence].
  intros [= <-]. now apply IH.
Qed.

Lemma recentRow_young key age w r :
  recentRow key age w = Some r →
  latestRow key (db w) = Some r ∧ clock w - row_start_time r < age.
Proof.
  unfold recentRow. destruct (latestRow key (db w)) as [r'|]; [|discriminate].
  destruct (Z.ltb_spec (clock w - row_start_time r') age); [|discriminate].
  now intros [= <-].
Qed.

Lemma recentRow_None key age w :
  recentRow key age w = None →
  ∀ r, latestRow key (db w) = Some r → age ≤ clock w - row_start_time r.
Proof.
  unfold recentRow. intros H r Hr. rewrite Hr in H.
  destruct (Z.ltb_spec (clock w - row_start_time r) age); [discriminate|lia].
Qed.

(** A row inserted now, when no recent row was found, is the latest. *)
Lemma latestRow_inserted key age w report :
  0 < age →
  recentRow key age w = None →
  latestRow key (summaryRow w key report :: db w)
  = Some (summaryRow w key report).
Proof.
  intros Hage Hnone. simpl. rewrite String.eqb_refl.
  destruct (latestRow key (db w)) as [r'|] eqn:Hr; [|reflexivity].
  pose proof (recentRow_None _ _ _ Hnone r' Hr) as Hold.
  unfold startedAfter. simpl.
  destruct (Z.ltb_spec (clock w) (row_start_time r')); [lia|].
  destruct (Z.eqb_spec (clock w) (row_start_time r')); [lia|].
  reflexivity.
Qed.

(** *** The three ways a request can go *)


(** The function of the batch endpoint goes the same way and wraps the
    response into a successful entry. *)
Lemma run_scanWithFullDetails env site age w :
  run (scanWithFullDetails env site age) w
  = (match (run (scanOrReturnRecentWithFullDetails env site age) w).1 with
     | inr r => inr (EntryOk r)
     | inl e => inl e
     end,
     (run (scanOrReturnRecentWithFullDetails env site age) w).2).
Proof.
  unfold scanWithFullDetails, scanOrReturnRecentWithFullDetails.
  rewrite !run_mbind, run_select.
  destruct (recentRow (asSiteKey site) age w) as [row|].
  - rewrite !run_mbind, !run_ret, !run_mbind, !run_scan.
    now destruct (scanner env site _).
  - rewrite !run_mbind, !run_executeScan.
    destruct (scanner env site _) as [e|first]; [reflexivity|].
    unfold insertScan. rewrite !run_mbind, !run_scan.
    cbn [retrievals logRetrieval length].
    now destruct (scanner env site (S _)).
Qed.

End RunFacts.

(** ** The runner *)

Module RunnerFacts.
Import SettleFacts.

Section Runner.
Context {V : Type} (fn : string → Task V) (limit : nat).

(** *** At most [limit] operations in flight *)

Lemma bounded_start items w : (0 < limit)%nat → bounded limit (start (V:=V) items w).
Proof. intros H. unfold bounded, start. simpl. now rewrite map_size_empty. Qed.

Lemma bounded_step s s' :
  bounded limit s → step fn limit s s' → bounded limit s'.
Proof.
  intros Hb Hstep.
  destruct Hstep as
    [w ex res n cs item rest
    |w ex res n cs
    |w ex res n cs l p item next after Hp
    |w ex res n cs l p item v Hp
    |w ex res n cs snapshot rest p Hin Hp
    |w ex res n cs snapshot rest p item e Hin Hp
    |w ex res n cs snapshot Hall
    |w ex res n cs snapshot p item e Hin Hp];
    unfold bounded in *; simpl in *.
  - (* iterate *)
    destruct (Nat.leb_spec limit (size (<[n:=(item, fn item)]> ex))) as [Hle|Hlt];
      simpl; [|exact Hlt].
    split; [reflexivity|]. rewrite size_dom. split.
    + rewrite map_size_insert in *. destruct (ex !! n); simpl in *; lia.
    + intros Hempty. apply (not_elem_of_empty (C:=gset nat) n).
      rewrite <- Hempty. apply elem_of_dom. rewrite lookup_insert_eq. eauto.
  - (* exit *) lia.
  - (* turn *)
    assert (Hsize : size (<[p:=(item, next w)]> ex) = size ex)
      by (apply map_size_insert_Some; eauto).
    assert (Hdom : dom (<[p:=(item, next w)]> ex) = dom ex).
    { rewrite dom_insert_L. apply elem_of_dom_2 in Hp.
      apply set_eq. intros x. rewrite elem_of_union, elem_of_singleton.
      split; [intros [->|?]; auto|auto]. }
    destruct l; rewrite ?Hsize, ?Hdom; exact Hb.
  - (* then *)
    assert (Hsize : (size (delete p ex) ≤ size ex)%nat).
    { rewrite map_size_delete. destruct (ex !! p); simpl; lia. }
    assert (Hdom : dom (delete p ex) ⊆ dom ex).
    { rewrite dom_delete_L. apply subseteq_difference_l. reflexivity. }
    destruct l; try lia.
    destruct Hb as (Hsub & Hsz & Hne). split; [etrans; eauto|auto].
  - (* race resumes *)
    destruct Hb as (Hsub & Hsz & Hne).
    assert (Hsub' : dom ex ⊆ snapshot ∖ {[p]}).
    { apply not_elem_of_dom in Hp. intros x Hx.
      apply elem_of_difference. split; [auto|].
      rewrite elem_of_singleton. now intros ->. }
    apply subseteq_size in Hsub'. rewrite size_dom in Hsub'.
    rewrite size_difference, size_singleton in Hsub'
      by (apply singleton_subseteq_l; exact Hin).
    assert (size snapshot ≠ 0)%nat.
    { intros Hz. apply size_empty_inv in Hz. apply Hne. now apply leibniz_equiv. }
    lia.
  - (* race rejects *)
    destruct Hb as (Hsub & Hsz & Hne).
    apply subseteq_size in Hsub. rewrite size_dom in Hsub. lia.
  - (* all resumes *) exact Hb.
  - (* all rejects *) exact Hb.
Qed.

Lemma bounded_inFlight (s : Runner V) : bounded limit s → (inFlight s ≤ limit)%nat.
Proof.
  unfold bounded, inFlight. destruct (loop s); try lia.
  intros (Hsub & Hsz & _).
  apply subseteq_size in Hsub. rewrite size_dom in Hsub. lia.
Qed.

(** A property of the start that every step preserves holds of every
    reachable state. *)
Lemma reachable_invariant (P : Runner V → Prop) items w :
  P (start items w) →
  (∀ s s', P s → step fn limit s s' → P s') →
  ∀ s, reachable fn limit items w s → P s.
Proof. intros Hstart Hstep. apply rtc_ind_r; eauto. Qed.

Lemma reachable_bounded items w s :
  (0 < limit)%nat → reachable fn limit items w s → bounded limit s.
Proof.
  intros Hlimit. apply reachable_invariant.
  - now apply bounded_start.
  - apply bounded_step.
Qed.

(** *** The bookkeeping *)

Lemma consistent_start items w : consistent fn items (start (V:=V) items w).
Proof.
  constructor; simpl; try discriminate; try reflexivity.
  now intros rest [= <-].
Qed.

Lemma reverse_cons_lookup_old (cs : list string) item p k :
  reverse cs !! p = Some k → reverse (item :: cs) !! p = Some k.
Proof. intros H. rewrite reverse_cons. now apply lookup_app_l_Some. Qed.

Lemma reverse_cons_lookup_new (cs : list string) item :
  reverse (item :: cs) !! length cs = Some item.
Proof.
  rewrite reverse_cons, lookup_app_r by (rewrite length_reverse; lia).
  now rewrite length_reverse, Nat.sub_diag.
Qed.

Lemma reverse_cons_lookup_inv (cs : list string) item p k :
  reverse (item :: cs) !! p = Some k →
  reverse cs !! p = Some k ∨ (p = length cs ∧ k = item).
Proof.
  rewrite reverse_cons. intros H.
  apply lookup_app_Some in H as [H|[Hp H]]; [now left|right].
  rewrite length_reverse in *. apply list_lookup_singleton_Some in H as [Hz ->].
  split; [lia|reflexivity].
Qed.

Lemma consistent_step items s s' :
  consistent fn items s → step fn limit s s' → consistent fn items s'.
Proof.
  intros [Htaken Hcreated Hheld Hown Hdone Hall Hret] Hstep.
  destruct Hstep as
    [w ex res n cs item rest
    |w ex res n cs
    |w ex res n cs l p item next after Hp
    |w ex res n cs l p item v Hp
    |w ex res n cs snapshot rest p Hin Hp
    |w ex res n cs snapshot rest p item e Hin Hp
    |w ex res n cs snapshot Hall'
    |w ex res n cs snapshot p item e Hin Hp];
    simpl in *.
  - (* iterate *)
    assert (Hrest : remaining
              (if (limit <=? size (<[n:=(item, fn item)]> ex))%nat
               then AwaitingRace (dom (<[n:=(item, fn item)]> ex)) rest
               else Iterating (V:=V) rest) = Some rest)
      by now destruct (_ <=? _)%nat.
    constructor; simpl.
    + intros rest' Hr. rewrite Hrest in Hr. injection Hr as <-.
      rewrite <- (Htaken (item :: rest) eq_refl).
      now rewrite reverse_cons, <- app_assoc.
    + now rewrite Hcreated.
    + intros p k t Hl. apply lookup_insert_Some in Hl as [[<- [= <- <-]]|[Hne Hl]].
      * split; [|auto]. rewrite Hcreated. apply reverse_cons_lookup_new.
      * destruct (Hheld p k t Hl) as [Hcall Hsettle].
        split; [|exact Hsettle]. now apply reverse_cons_lookup_old.
    + intros k v Hk. destruct (Hown k v Hk) as (Hin & Hne & Hs).
      split; [|auto]. now apply list_elem_of_further.
    + intros p k Hl Hne.
      apply reverse_cons_lookup_inv in Hl as [Hl|[-> ->]].
      * destruct (Hdone p k Hl Hne) as [[x Hx]|Hr]; [left|now right].
        destruct (decide (n = p)) as [->|Hnp].
        -- rewrite lookup_insert_eq. eauto.
        -- rewrite lookup_insert_ne by exact Hnp. eauto.
      * left. rewrite Hcreated, lookup_insert_eq. eauto.
    + intros snapshot. now destruct (_ <=? _)%nat.
    + intros res'. now destruct (_ <=? _)%nat.
  - (* exit *)
    constructor; simpl; auto; try discriminate.
    intros snapshot [= <-]. reflexivity.
  - (* turn *)
    assert (Hdom : dom (<[p:=(item, next w)]> ex) = dom ex).
    { rewrite dom_insert_L. apply elem_of_dom_2 in Hp.
      apply set_eq. intros x. rewrite elem_of_union, elem_of_singleton.
      split; [intros [->|?]; auto|auto]. }
    constructor; simpl; auto.
    + intros p' k t Hl. apply lookup_insert_Some in Hl as [[<- [= <- <-]]|[Hne Hl]].
      * destruct (Hheld p item _ Hp) as [Hcall Hsettle].
        split; [exact Hcall|]. intros r Hr. apply Hsettle.
        econstructor. exact Hr.
      * eauto.
    + intros p' k Hl Hne. destruct (Hdone p' k Hl Hne) as [[x Hx]|Hr]; [left|now right].
      destruct (decide (p = p')) as [->|Hnp].
      * rewrite lookup_insert_eq. eauto.
      * rewrite lookup_insert_ne by exact Hnp. eauto.
    + intros snapshot Hl. rewrite Hdom. auto.
    + intros res' Hl. destruct (Hret res' Hl) as [_ Hempty].
      rewrite Hempty, lookup_empty in Hp. discriminate.
  - (* then *)
    destruct (Hheld p item _ Hp) as [Hcall Hsettle].
    constructor; simpl; auto.
    + intros p' k t Hl. apply lookup_delete_Some in Hl as [_ Hl]. eauto.
    + intros k v'. unfold setProperty.
      destruct (decide (item = "__proto__")) as [Hproto|Hproto]; simpl; [apply Hown|].
      intros Hl. apply lookup_insert_Some in Hl as [[<- <-]|[Hne Hl]]; [|eauto].
      split; [|split; [exact Hproto|]].
      * rewrite <- elem_of_reverse. eapply list_elem_of_lookup_2. exact Hcall.
      * apply Hsettle. constructor.
    + intros p' k Hl Hne. unfold setProperty.
      destruct (decide (p' = p)) as [->|Hnp].
      * right. assert (k = item) as -> by congruence.
        rewrite decide_False by exact Hne. simpl.
        rewrite lookup_insert_eq. eauto.
      * destruct (Hdone p' k Hl Hne) as [[x Hx]|[x Hx]].
        -- left. rewrite lookup_delete_ne by auto. eauto.
        -- right. destruct (decide (item = "__proto__")); simpl; [eauto|].
           destruct (decide (item = k)) as [->|Hik].
           ++ rewrite lookup_insert_eq. eauto.
           ++ rewrite lookup_insert_ne by exact Hik. eauto.
    + intros snapshot Hl. etrans; [|apply (Hall snapshot Hl)].
      rewrite dom_delete_L. apply subseteq_difference_l. reflexivity.
    + intros res' Hl. destruct (Hret res' Hl) as [_ Hempty].
      rewrite Hempty, lookup_empty in Hp. discriminate.
  - (* race resumes *)
    constructor; simpl; auto; try discriminate.
  - (* race rejects *)
    constructor; simpl; auto; try discriminate.
  - (* all resumes *)
    constructor; simpl; auto; try discriminate.
    intros res' [= <-]. split; [reflexivity|].
    apply map_empty. intros p. destruct (ex !! p) as [x|] eqn:Hx; [|reflexivity].
    rewrite <- Hx. apply Hall'. apply (Hall snapshot eq_refl).
    apply elem_of_dom. eauto.
  - (* all rejects *)
    constructor; simpl; auto; try discriminate.
Qed.

Lemma reachable_consistent items w s :
  reachable fn limit items w s → consistent fn items s.
Proof.
  apply reachable_invariant.
  - apply consistent_start.
  - apply consistent_step.
Qed.

(** *** Operations that never throw *)

Section Calm.
Hypothesis fn_never_throws : ∀ item, NeverThrows (fn item).

Lemma calm_start items w : calm (start (V:=V) items w).
Proof.
  split; simpl; [|discriminate].
  intros p k t. now rewrite lookup_empty.
Qed.

Lemma calm_step s s' : calm s → step fn limit s s' → calm s'.
Proof.
  intros [Hex Hloop] Hstep.
  destruct Hstep as
    [w ex res n cs item rest
    |w ex res n cs
    |w ex res n cs l p item next after Hp
    |w ex res n cs l p item v Hp
    |w ex res n cs snapshot rest p Hin Hp
    |w ex res n cs snapshot rest p item e Hin Hp
    |w ex res n cs snapshot Hall
    |w ex res n cs snapshot p item e Hin Hp];
    simpl in *.
  - split; simpl; [|now destruct (_ <=? _)%nat].
    intros p k t [[<- [= <- <-]]|[_ Hl]]%lookup_insert_Some; eauto.
  - split; simpl; [exact Hex|discriminate].
  - split; simpl; [|exact Hloop].
    intros p' k t [[<- [= <- <-]]|[_ Hl]]%lookup_insert_Some; [|eauto].
    apply (Hex p item _ Hp).
  - split; simpl; [|exact Hloop].
    intros p' k t [_ Hl]%lookup_delete_Some. eauto.
  - split; simpl; [exact Hex|discriminate].
  - destruct (Hex p item _ Hp).
  - split; simpl; [exact Hex|discriminate].
  - destruct (Hex p item _ Hp).
Qed.

Lemma reachable_calm items w s : reachable fn limit items w s → calm s.
Proof.
  apply reachable_invariant.
  - apply calm_start.
  - apply calm_step.
Qed.

(** *** Every call returns

    From wherever the runner stands it can go on to return: each
    operation held is resumed until it settles and its callback runs,
    and the loop takes the items that remain. *)

Lemma finish_one (t : Task V) :
  NeverThrows t →
  ∀ w ex res n cs l p k,
    ex !! p = Some (k, t) →
    ∃ w' v,
      rtc (step fn limit)
        {| world := w; executing := ex; results := res; created := n;
           calls := cs; loop := l |}
        {| world := w'; executing := delete p ex;
           results := setProperty k v res; created := n; calls := cs;
           loop := l |}.
Proof.
  induction t as [[e|v]|next IH after]; simpl; intros Hn w ex res n cs l p k Hp.
  - contradiction.
  - exists w, v. apply rtc_once. apply step_then. exact Hp.
  - destruct (IH w (Hn w) (after w) (<[p:=(k, next w)]> ex) res n cs l p k)
      as (w' & v & Hrun); [apply lookup_insert_eq|].
    exists w', v. eapply rtc_l; [apply step_turn; exact Hp|].
    now rewrite delete_insert_eq in Hrun.
Qed.

Lemma drain (ex : gmap nat (string * Task V)) :
  (∀ p k t, ex !! p = Some (k, t) → NeverThrows t) →
  ∀ w res n cs l,
    ∃ w' res',
      rtc (step fn limit)
        {| world := w; executing := ex; results := res; created := n;
           calls := cs; loop := l |}
        {| world := w'; executing := ∅; results := res'; created := n;
           calls := cs; loop := l |}.
Proof.
  induction ex as [|p [k t] ex Hfresh IH] using map_ind; intros Hex w res n cs l.
  - exists w, res. reflexivity.
  - destruct (finish_one t (Hex p k t (lookup_insert_eq _ _ _))
                w (<[p:=(k, t)]> ex) res n cs l p k (lookup_insert_eq _ _ _))
      as (w1 & v & Hrun1).
    rewrite delete_insert_eq, delete_id in Hrun1 by exact Hfresh.
    assert (Hex' : ∀ q k' t', ex !! q = Some (k', t') → NeverThrows t').
    { intros q k' t' Hq. apply (Hex q k' t').
      rewrite lookup_insert_ne; [exact Hq|]. intros ->. congruence. }
    destruct (IH Hex' w1 (setProperty k v res) n cs l) as (w2 & res2 & Hrun2).
    exists w2, res2. etrans; eauto.
Qed.

Lemma finish_all w ex res n cs snapshot :
  (∀ p k t, ex !! p = Some (k, t) → NeverThrows t) →
  ∃ s', rtc (step fn limit)
          {| world := w; executing := ex; results := res; created := n;
             calls := cs; loop := AwaitingAll snapshot |} s'
        ∧ ∃ r, loop s' = Returned r.
Proof.
  intros Hex.
  destruct (drain ex Hex w res n cs (AwaitingAll snapshot)) as (w' & res' & Hrun).
  eexists. split.
  - eapply rtc_r; [exact Hrun|]. apply step_all_resume.
    intros p _. apply lookup_empty.
  - simpl. eauto.
Qed.

Lemma finish_loop rest :
  ∀ w ex res n cs,
    (∀ p k t, ex !! p = Some (k, t) → NeverThrows t) →
    ∃ s', rtc (step fn limit)
            {| world := w; executing := ex; results := res; created := n;
               calls := cs; loop := Iterating rest |} s'
          ∧ ∃ r, loop s' = Returned r.
Proof.
  induction rest as [|item rest IH]; intros w ex res n cs Hex.
  - destruct (finish_all w ex res n cs (dom ex) Hex) as (s' & Hrun & Hret).
    exists s'. split; [|exact Hret].
    eapply rtc_l; [apply step_exit|exact Hrun].
  - assert (Hex' : ∀ p k t, <[n:=(item, fn item)]> ex !! p = Some (k, t) →
                            NeverThrows t).
    { intros p k t [[<- [= <- <-]]|[_ Hl]]%lookup_insert_Some; eauto. }
    destruct (limit <=? size (<[n:=(item, fn item)]> ex))%nat eqn:Hfull.
    + destruct (drain _ Hex' w res (S n) (item :: cs)
                  (AwaitingRace (dom (<[n:=(item, fn item)]> ex)) rest))
        as (w1 & res1 & Hrun1).
      destruct (IH w1 ∅ res1 (S n) (item :: cs)) as (s' & Hrun2 & Hret).
      { intros p k t. now rewrite lookup_empty. }
      exists s'. split; [|exact Hret].
      eapply rtc_l; [apply step_iterate|]. rewrite Hfull.
      etrans; [exact Hrun1|].
      eapply rtc_l; [|exact Hrun2].
      apply (step_race_resume _ _ _ _ _ _ _ _ _ n); [|apply lookup_empty].
      apply elem_of_dom. rewrite lookup_insert_eq. eauto.
    + destruct (IH w (<[n:=(item, fn item)]> ex) res (S n) (item :: cs) Hex')
        as (s' & Hrun & Hret).
      exists s'. split; [|exact Hret].
      eapply rtc_l; [apply step_iterate|]. now rewrite Hfull.
Qed.

Lemma can_return s :
  calm s → bounded limit s →
  ∃ s', rtc (step fn limit) s s' ∧ ∃ r, loop s' = Returned r.
Proof.
  destruct s as [w ex res n cs l]. intros [Hex Hloop] Hb. simpl in *.
  destruct l as [rest|snapshot rest|snapshot|r|e].
  - now apply finish_loop.
  - destruct Hb as (_ & _ & Hne). simpl in Hne.
    destruct (set_choose_L snapshot Hne) as [p Hp].
    destruct (drain ex Hex w res n cs (AwaitingRace snapshot rest))
      as (w1 & res1 & Hrun1).
    destruct (finish_loop rest w1 ∅ res1 n cs) as (s' & Hrun2 & Hret).
    { intros q k t. now rewrite lookup_empty. }
    exists s'. split; [|exact Hret].
    etrans; [exact Hrun1|]. eapply rtc_l; [|exact Hrun2].
    apply (step_race_resume _ _ _ _ _ _ _ _ _ p Hp). apply lookup_empty.
  - now apply finish_all.
  - eexists. split; [reflexivity|]. simpl. eauto.
  - now destruct (Hloop e).
Qed.

End Calm.

(** *** What a call returns *)

Lemma returned_calls items w s res :
  reachable fn limit items w s → loop s = Returned res →
  reverse (calls s) = items.
Proof.
  intros Hc%reachable_consistent Hl.
  rewrite <- (taken_so_far _ _ _ Hc [] ltac:(now rewrite Hl)).
  now rewrite app_nil_r.
Qed.

Lemma returned_own items w s res k v :
  reachable fn limit items w s → loop s = Returned res →
  own res !! k = Some v →
  k ∈ items ∧ k ≠ "__proto__" ∧ CanSettle (fn k) (inr v).
Proof.
  intros Hreach Hl Hk. pose proof (reachable_consistent _ _ _ Hreach) as Hc.
  destruct (returned_results _ _ _ Hc res Hl) as [-> _].
  destruct (own_results _ _ _ Hc k v Hk) as (Hin & Hne & Hs).
  split; [|auto]. rewrite <- (returned_calls items w s _ Hreach Hl).
  now apply elem_of_reverse.
Qed.

Lemma returned_defined items w s res k :
  reachable fn limit items w s → loop s = Returned res →
  k ∈ items → k ≠ "__proto__" → is_Some (own res !! k).
Proof.
  intros Hreach Hl Hin Hne.
  pose proof (reachable_consistent _ _ _ Hreach) as Hc.
  destruct (returned_results _ _ _ Hc res Hl) as [-> Hempty].
  rewrite <- (returned_calls items w s _ Hreach Hl) in Hin.
  apply list_elem_of_lookup_1 in Hin as [p Hp].
  destruct (held_or_defined _ _ _ Hc p k Hp Hne) as [[x Hx]|Hdef]; [|exact Hdef].
  rewrite Hempty, lookup_empty in Hx. discriminate.
Qed.

Lemma returned_proto items w s res :
  reachable fn limit items w s → loop s = Returned res →
  own res !! "__proto__" = None.
Proof.
  intros Hreach Hl. destruct (own res !! "__proto__") as [v|] eqn:Hv; [|reflexivity].
  now destruct (returned_own items w s res _ v Hreach Hl Hv) as (_ & Hne & _).
Qed.

End Runner.
End RunnerFacts.

(** ** Schedules *)

Module ScheduleFacts.

Section Schedule.
Context {V : Type} (fn : string → Task V) (limit : nat).

(** Every move is a step of the runner. *)
Lemma move_step m s s' : move fn limit m s = Some s' → step fn limit s s'.
Proof.
  destruct s as [w ex res n cs l]. unfold move. simpl.
  destruct m as [|p|p|p].
  - destruct l as [[|item rest]|snapshot rest|snapshot|r|e]; try discriminate.
    + intros [= <-]. apply step_exit.
    + intros [= <-]. apply step_iterate.
    + destruct (decide (snapshot ∩ dom ex = ∅)) as [Hd|]; [|discriminate].
      intros [= <-]. apply step_all_resume.
      intros q Hq. apply not_elem_of_dom. intros Hq'.
      apply (not_elem_of_empty (C:=gset nat) q). rewrite <- Hd.
      now apply elem_of_intersection.
  - destruct (ex !! p) as [[item [r|next after]]|] eqn:Hp; try discriminate.
    intros [= <-]. now apply step_turn.
  - destruct (ex !! p) as [[item [[e|v]|next after]]|] eqn:Hp; try discriminate.
    intros [= <-]. now apply step_then.
  - destruct l as [rest|snapshot rest|snapshot|r|e]; try discriminate.
    destruct (ex !! p) eqn:Hp; [discriminate|].
    destruct (decide (p ∈ snapshot)) as [Hin|]; [|discriminate].
    intros [= <-]. now apply (step_race_resume fn limit w ex res n cs snapshot rest p).
Qed.

Lemma play_steps moves s s' :
  play fn limit moves s = Some s' → rtc (step fn limit) s s'.
Proof.
  revert s. induction moves as [|m moves IH]; intros s; simpl.
  - intros [= <-]. reflexivity.
  - destruct (move fn limit m s) as [s1|] eqn:Hm; [|discriminate].
    intros Hplay. eapply rtc_l; [eapply move_step; exact Hm|now apply IH].
Qed.

(** The state a schedule leads to is one the call can be in. *)
Lemma scheduled_reachable items w moves :
  reachable fn limit items w (scheduled fn limit items w moves).
Proof.
  unfold scheduled, reachable.
  destruct (play fn limit moves (start items w)) as [s|] eqn:Hplay; simpl.
  - now apply (play_steps moves).
  - reflexivity.
Qed.

End Schedule.

End ScheduleFacts.

(** ** The batch endpoint *)

Module BatchFacts.
Import SettleFacts EndpointFacts RunnerFacts.

(** *** Removing duplicates *)

Lemma elem_of_filterUnseen seen urls k :
  k ∈ normalize <$> filterUnseen seen urls ↔
  k ∈ normalize <$> urls ∧ k ∉ seen.
Proof.
  revert seen. induction urls as [|url rest IH]; intros seen; simpl.
  - split; [intros H|intros [H _]]; now apply not_elem_of_nil in H.
  - destruct (decide (normalize url ∈ seen)) as [Hin|Hout].
    + rewrite IH, ?fmap_cons, elem_of_cons. split.
      * intros [? ?]. auto.
      * intros [[->|?] ?]; [contradiction|auto].
    + rewrite ?fmap_cons, !elem_of_cons, IH, not_elem_of_union,
        not_elem_of_singleton.
      split.
      * intros [->|(? & ? & ?)]; auto.
      * intros [[->|?] ?]; [now left|].
        destruct (decide (k = normalize url)); auto.
Qed.

Lemma NoDup_filterUnseen seen urls :
  NoDup (normalize <$> filterUnseen seen urls).
Proof.
  revert seen. induction urls as [|url rest IH]; intros seen; simpl.
  - constructor.
  - destruct (decide (normalize url ∈ seen)); [apply IH|].
    rewrite ?fmap_cons. constructor; [|apply IH].
    rewrite elem_of_filterUnseen, not_elem_of_union, not_elem_of_singleton.
    intros (_ & ? & _). congruence.
Qed.

(** The items of the batch are the distinct normalised forms of the
    urls, each once. *)
Lemma NoDup_normalizedUrls urls : NoDup (normalizedUrls urls).
Proof. apply NoDup_filterUnseen. Qed.

Lemma elem_of_normalizedUrls urls k :
  k ∈ normalizedUrls urls ↔ ∃ url, url ∈ urls ∧ k = normalize url.
Proof.
  unfold normalizedUrls, uniqueUrls. rewrite elem_of_filterUnseen.
  rewrite list_elem_of_fmap. split.
  - intros [(url & -> & Hin) _]. eauto.
  - intros (url & Hin & ->). split; [eauto|apply not_elem_of_empty].
Qed.

(** *** The schema *)


(** The urls read are the items, each taken for a string. *)
Lemma stringItems_inr index items urls :
  stringItems index items = inr urls →
  Forall2 (λ item url, coerceToString item = Some url) items urls.
Proof.
  revert index urls. induction items as [|item items IH]; intros index urls; simpl.
  - intros [= <-]. constructor.
  - destruct (coerceToString item) as [s|] eqn:Hs; [|discriminate].
    destruct (stringItems (S index) items) as [v|l] eqn:E; [discriminate|].
    intros [= <-]. constructor; eauto.
Qed.



Lemma stringItems_strings index urls :
  stringItems index (JStr <$> urls) = inr urls.
Proof.
  revert index. induction urls as [|url urls IH]; intros index; simpl; [reflexivity|].
  now rewrite IH.
Qed.

Lemma validateBody_inr body urls :
  validateBody body = inr urls →
  ∃ fields v items,
    body = JObj fields
    ∧ lookupField "urls" fields = Some v
    ∧ coerceToArray v = Some items
    ∧ Forall2 (λ item url, coerceToString item = Some url) items urls
    ∧ (1 ≤ length urls ≤ MAX_BATCH_SIZE)%nat.
Proof.
  unfold validateBody. destruct body as [| | | | |fields]; try discriminate.
  destruct (lookupField "urls" fields) as [v|] eqn:Hl; [|discriminate].
  destruct (coerceToArray v) as [items|] eqn:Hv; [|discriminate].
  destruct (Nat.ltb_spec (length items) 1); [discriminate|].
  destruct (Nat.ltb_spec MAX_BATCH_SIZE (length items)); [discriminate|].
  intros Hitems%stringItems_inr.
  exists fields, v, items. repeat split; auto;
    rewrite <- (Forall2_length _ _ _ Hitems); lia.
Qed.

Lemma validateBody_urlsBody urls :
  (1 ≤ length urls ≤ MAX_BATCH_SIZE)%nat →
  validateBody (urlsBody urls) = inr urls.
Proof.
  intros [H1 H2]. unfold validateBody, urlsBody. simpl.
  rewrite length_fmap.
  destruct (Nat.ltb_spec (length urls) 1); [lia|].
  destruct (Nat.ltb_spec MAX_BATCH_SIZE (length urls)); [lia|].
  apply stringItems_strings.
Qed.




(** *** The batch endpoint *)

(** The handler of the batch never fails. *)
Lemma batch_never_fails env body w reply w' :
  scanBatchFullDetails env body w reply w' → ∀ e, reply ≠ HandlerFailed e.
Proof.
  intros [v Hv|urls s res Hv Hreach Hl|urls s e Hv Hreach Hl] e'; try discriminate.
  apply reachable_calm in Hreach; [|apply scanSingleUrl_NeverThrows].
  now destruct (proj2 Hreach e).
Qed.

(** The entries of an answer: one for every item but [__proto__], each
    what the scan of its key came to. *)
Lemma batch_reply_entries env body urls w res w' :
  validateBody body = inr urls →
  scanBatchFullDetails env body w (Ok200 res) w' →
  (∀ key v, res !! key = Some v →
      key ∈ normalizedUrls urls ∧ key ≠ "__proto__"
      ∧ CanSettle (scanSingleUrl env key) (inr v))
  ∧ (∀ key, key ∈ normalizedUrls urls → key ≠ "__proto__" →
      is_Some (res !! key))
  ∧ res !! "__proto__" = None.
Proof.
  intros Hv Hbatch. inversion Hbatch as [|urls' s res' Hv' Hreach Hl|]; subst.
  assert (urls' = urls) as -> by congruence.
  split; [|split].
  - intros key v. eapply returned_own; eauto.
  - intros key. eapply returned_defined; eauto.
  - eapply returned_proto; eauto.
Qed.

(** A body the schema admits is always answered. *)
Lemma batch_answers env urls body w :
  validateBody body = inr urls →
  ∃ res w', scanBatchFullDetails env body w (Ok200 res) w'.
Proof.
  intros Hv.
  destruct (can_return (scanSingleUrl env) DEFAULT_CONCURRENCY
              (scanSingleUrl_NeverThrows env)
              (start (normalizedUrls urls) w)) as (s & Hrun & res & Hl).
  - apply calm_start.
  - apply bounded_start. unfold DEFAULT_CONCURRENCY. lia.
  - exists (own res), (world s). eapply batch_returned; eauto.
Qed.

End BatchFacts.

(** ** The entries of a batch *)

Module EntryFacts.
Import SiteModel TaskFacts SettleFacts EndpointFacts RunnerFacts BatchFacts.

Lemma NeverThrows_bind {A B} (t : Task A) (k : A → Task B) :
  NeverThrows t → (∀ a, CanSettle t (inr a) → NeverThrows (k a)) →
  NeverThrows (bind t k).
Proof.
  induction t as [[e|a]|next IH after]; simpl; intros Ht Hk.
  - contradiction.
  - apply Hk. constructor.
  - intros w. apply IH; [apply Ht|].
    intros a Ha. apply Hk. econstructor. exact Ha.
Qed.

Lemma NeverThrows_mbind {A B} (t : Task A) (k : A → Task B) :
  NeverThrows t → (∀ a, CanSettle t (inr a) → NeverThrows (k a)) →
  NeverThrows (t ≫= k).
Proof. apply NeverThrows_bind. Qed.

Lemma NeverThrows_await {A} (op : World → Outcome A * World) :
  (∀ w, ∃ a, (op w).1 = inr a) → NeverThrows (await op).
Proof. intros Hop w. simpl. now destruct (Hop w) as [a ->]. Qed.

Lemma NeverThrows_cannot_throw {A} (t : Task A) e :
  NeverThrows t → ¬ CanSettle t (inl e).
Proof. intros Hn Hs. now destruct (NeverThrows_CanSettle t _ Hn Hs). Qed.

Lemma scan_never_throws env site :
  (∀ n, ∃ full, scanner env site n = inr full) → NeverThrows (scan env site).
Proof. intros Hnet. apply NeverThrows_await. intros w. simpl. apply Hnet. Qed.

Lemma scanWithFullDetails_never_throws env site age :
  (∀ n, ∃ full, scanner env site n = inr full) →
  NeverThrows (scanWithFullDetails env site age).
Proof.
  intros Hnet. unfold scanWithFullDetails.
  apply NeverThrows_mbind.
  { apply NeverThrows_await. intros w. simpl. eauto. }
  intros found _. apply NeverThrows_mbind.
  { destruct found as [row|]; [exact I|]. unfold executeScan.
    apply NeverThrows_mbind; [now apply scan_never_throws|].
    intros result _. apply NeverThrows_await. intros w. simpl. eauto. }
  intros row _. apply NeverThrows_mbind; [now apply scan_never_throws|].
  intros full _. exact I.
Qed.

(** On a network that always answers, the scan of a valid host that
    resolves never throws. *)
Lemma try_never_throws env url site :
  fromSiteString (normalize url) = inr site →
  resolves env (hostname site) = true →
  (∀ n, ∃ full, scanner env site n = inr full) →
  NeverThrows (scanSingleUrlTry env url).
Proof.
  intros Hsite Hres Hnet. unfold scanSingleUrlTry. cbv zeta.
  unfold call. rewrite Hsite. change (NeverThrows
    (checkSitename env site ≫= λ s, scanWithFullDetails env s (cooldown env))).
  apply NeverThrows_mbind.
  { apply NeverThrows_await. intros w. simpl. rewrite Hres. eauto. }
  intros site' Hsite'%settle_checkSitename. rewrite Hres in Hsite'.
  injection Hsite' as ->. now apply scanWithFullDetails_never_throws.
Qed.

(** *** The entries of a reply *)

(** An entry whose scan cannot throw is a successful one. *)
Lemma entry_succeeds env body urls w res w' key :
  validateBody body = inr urls →
  scanBatchFullDetails env body w (Ok200 res) w' →
  key ∈ normalizedUrls urls → key ≠ "__proto__" →
  NeverThrows (scanSingleUrlTry env key) →
  ∃ r, res !! key = Some (EntryOk r).
Proof.
  intros Hv Hbatch Hin Hne Hnever.
  destruct (batch_reply_entries env body urls w res w' Hv Hbatch)
    as (Hown & Hdef & _).
  destruct (Hdef key Hin Hne) as [v Hkey].
  destruct (Hown key v Hkey) as (_ & _ & Hsettle).
  apply settle_scanSingleUrl in Hsettle
    as [(v' & [= <-] & Hs)|(e & _ & Hs)].
  - apply settle_scanSingleUrlTry in Hs as (site & _ & _ & Hs).
    apply settle_scanWithFullDetails in Hs as (_ & _ & _ & r & -> & _).
    eauto.
  - now apply NeverThrows_cannot_throw in Hs.
Qed.

(** An entry whose scan can only throw [e] is the report of [e]. *)
Lemma entry_fails env body urls w res w' key e :
  validateBody body = inr urls →
  scanBatchFullDetails env body w (Ok200 res) w' →
  key ∈ normalizedUrls urls → key ≠ "__proto__" →
  (∀ r, CanSettle (scanSingleUrlTry env key) r → r = inl e) →
  res !! key = Some (failureEntry e).
Proof.
  intros Hv Hbatch Hin Hne Honly.
  destruct (batch_reply_entries env body urls w res w' Hv Hbatch)
    as (Hown & Hdef & _).
  destruct (Hdef key Hin Hne) as [v Hkey].
  destruct (Hown key v Hkey) as (_ & _ & Hsettle).
  apply settle_scanSingleUrl in Hsettle
    as [(v' & _ & Hs)|(e' & [= ->] & Hs)].
  - now apply Honly in Hs.
  - apply Honly in Hs. injection Hs as ->. exact Hkey.
Qed.

(** The scan of an invalid host name throws what the parser throws. *)
Lemma invalid_host_throws env key e r :
  fromSiteString (normalize key) = inl e →
  CanSettle (scanSingleUrlTry env key) r → r = inl e.
Proof.
  intros Hsite. unfold scanSingleUrlTry. cbv zeta. unfold call.
  rewrite Hsite. simpl. now intros ->%CanSettle_Settled.
Qed.

(** The scan of a host that does not resolve throws
    [invalid-hostname-lookup]. *)
Lemma unresolved_host_throws env key site r :
  fromSiteString (normalize key) = inr site →
  resolves env (hostname site) = false →
  CanSettle (scanSingleUrlTry env key) r →
  r = inl (invalidHostnameLookup site).
Proof.
  intros Hsite Hres. unfold scanSingleUrlTry. cbv zeta. unfold call.
  rewrite Hsite.
  change (CanSettle (checkSitename env site ≫=
            λ s, scanWithFullDetails env s (cooldown env)) r →
          r = inl (invalidHostnameLookup site)).
  rewrite CanSettle_mbind.
  intros [(e & He%settle_checkSitename & ->)|(a & Ha%settle_checkSitename & _)];
    rewrite Hres in *; congruence.
Qed.

(** On a network that answers every retrieval of the site by throwing
    [e], the scan throws [e]. *)
Lemma scan_error_throws env key site e r :
  fromSiteString (normalize key) = inr site →
  resolves env (hostname site) = true →
  (∀ n, scanner env site n = inl e) →
  CanSettle (scanSingleUrlTry env key) r → r = inl e.
Proof.
  intros Hsite Hres Hnet. unfold scanSingleUrlTry. cbv zeta. unfold call.
  rewrite Hsite.
  change (CanSettle (checkSitename env site ≫=
            λ s, scanWithFullDetails env s (cooldown env)) r → r = inl e).
  rewrite CanSettle_mbind.
  intros [(e' & He%settle_checkSitename & _)|(a & Ha%settle_checkSitename & H)];
    rewrite Hres in *; [discriminate|].
  injection Ha as ->. revert H. unfold scanWithFullDetails.
  assert (Hscan : ∀ r', CanSettle (scan env site) r' → r' = inl e).
  { intros r' [n ->]%settle_scan_index. apply Hnet. }
  rewrite CanSettle_mbind.
  intros [(e' & He'%settle_select & _)|(found & _ & H)].
  { destruct He' as [w He']. discriminate. }
  apply CanSettle_mbind in H as [(e' & He' & ->)|(row & _ & H)].
  - destruct found as [row|]; [now apply CanSettle_Settled in He'|].
    unfold executeScan in He'.
    apply CanSettle_mbind in He' as [(e2 & He2%Hscan & [= ->])|(x & Hx%Hscan & _)];
      congruence.
  - apply CanSettle_mbind in H as [(e' & He'%Hscan & ->)|(x & Hx%Hscan & _)];
      congruence.
Qed.

End EntryFacts.

(** ** Duplicates and the key [__proto__] *)

Module DedupFacts.
Import RunnerFacts BatchFacts.

Lemma filter_absent (l : list string) x :
  x ∉ l → filter (λ k, k = x) l = [].
Proof.
  induction l as [|y l IH]; [reflexivity|].
  rewrite not_elem_of_cons. intros [Hne Hl].
  rewrite filter_cons_False by congruence. auto.
Qed.

Lemma NoDup_count_one (l : list string) x :
  NoDup l → x ∈ l → length (filter (λ k, k = x) l) = 1%nat.
Proof.
  induction 1 as [|y l Hy Hl IH]; intros Hx.
  - now apply not_elem_of_nil in Hx.
  - apply elem_of_cons in Hx as [->|Hx].
    + rewrite filter_cons_True by reflexivity.
      now rewrite filter_absent.
    + rewrite filter_cons_False by (intros ->; contradiction). auto.
Qed.

(** When a batch has returned, [fn] has been called exactly once on the
    normalised form of every url. *)
Lemma one_call_per_form env urls w s res url :
  reachable (scanSingleUrl env) DEFAULT_CONCURRENCY (normalizedUrls urls) w s →
  loop s = Returned res →
  url ∈ urls →
  length (filter (λ k, k = normalize url) (calls s)) = 1%nat.
Proof.
  intros Hreach Hl Hin.
  pose proof (returned_calls _ _ _ _ _ _ Hreach Hl) as Hcalls.
  apply (f_equal reverse) in Hcalls. rewrite reverse_involutive in Hcalls.
  rewrite Hcalls. apply NoDup_count_one.
  - rewrite reverse_Permutation. apply NoDup_normalizedUrls.
  - apply elem_of_reverse, elem_of_normalizedUrls. eauto.
Qed.

(** A batch made of forms of [__proto__] is answered with the empty
    object. *)
Lemma only_proto_empty env body urls w reply w' :
  validateBody body = inr urls →
  normalizedUrls urls = ["__proto__"] →
  scanBatchFullDetails env body w reply w' → reply = Ok200 ∅.
Proof.
  intros Hv Hitems Hbatch.
  pose proof (batch_never_fails env body w reply w' Hbatch) as Hnofail.
  destruct Hbatch as [v Hv'|urls' s res Hv' Hreach Hl|urls' s e Hv' Hreach Hl].
  - congruence.
  - f_equal. apply map_empty. intros k.
    destruct (own res !! k) as [v|] eqn:Hk; [|reflexivity].
    assert (urls' = urls) as -> by congruence.
    destruct (returned_own _ _ _ _ _ _ _ _ Hreach Hl Hk) as (Hin & Hne & _).
    rewrite Hitems in Hin. apply list_elem_of_singleton in Hin. contradiction.
  - now destruct (Hnofail e).
Qed.

End DedupFacts.

(** ** The runner, whatever its limit *)

Module RunnerMore.
Import SettleFacts RunnerFacts.

Section Runner.
Context {V : Type} (fn : string → Task V) (limit : nat).

Lemma bounded_start_within bound items w :
  (0 < bound)%nat → bounded bound (start (V:=V) items w).
Proof. intros H. unfold bounded, start. simpl. now rewrite map_size_empty. Qed.

Lemma bounded_step_within bound s s' :
  (limit ≤ bound)%nat →
  bounded bound s → step fn limit s s' → bounded bound s'.
Proof.
  intros Hle Hb Hstep.
  destruct Hstep as
    [w ex res n cs item rest
    |w ex res n cs
    |w ex res n cs l p item next after Hp
    |w ex res n cs l p item v Hp
    |w ex res n cs snapshot rest p Hin Hp
    |w ex res n cs snapshot rest p item e Hin Hp
    |w ex res n cs snapshot Hall
    |w ex res n cs snapshot p item e Hin Hp];
    unfold bounded in *; simpl in *.
  - assert (Hsize : (size (<[n:=(item, fn item)]> ex) ≤ S (size ex))%nat).
    { rewrite map_size_insert. destruct (ex !! n); simpl; lia. }
    destruct (Nat.leb_spec limit (size (<[n:=(item, fn item)]> ex))) as [Hfull|Hroom];
      simpl; [|lia].
    split; [reflexivity|]. rewrite size_dom. split; [lia|].
    intros Hempty. apply (not_elem_of_empty (C:=gset nat) n).
    rewrite <- Hempty. apply elem_of_dom. rewrite lookup_insert_eq. eauto.
  - lia.
  - assert (Hsize : size (<[p:=(item, next w)]> ex) = size ex)
      by (apply map_size_insert_Some; eauto).
    assert (Hdom : dom (<[p:=(item, next w)]> ex) = dom ex).
    { rewrite dom_insert_L. apply elem_of_dom_2 in Hp.
      apply set_eq. intros x. rewrite elem_of_union, elem_of_singleton.
      split; [intros [->|?]; auto|auto]. }
    destruct l; rewrite ?Hsize, ?Hdom; exact Hb.
  - assert (Hsize : (size (delete p ex) ≤ size ex)%nat).
    { rewrite map_size_delete. destruct (ex !! p); simpl; lia. }
    assert (Hdom : dom (delete p ex) ⊆ dom ex).
    { rewrite dom_delete_L. apply subseteq_difference_l. reflexivity. }
    destruct l; try lia.
    destruct Hb as (Hsub & Hsz & Hne). split; [etrans; eauto|auto].
  - destruct Hb as (Hsub & Hsz & Hne).
    assert (Hsub' : dom ex ⊆ snapshot ∖ {[p]}).
    { apply not_elem_of_dom in Hp. intros x Hx.
      apply elem_of_difference. split; [auto|].
      rewrite elem_of_singleton. now intros ->. }
    apply subseteq_size in Hsub'. rewrite size_dom in Hsub'.
    rewrite size_difference, size_singleton in Hsub'
      by (apply singleton_subseteq_l; exact Hin).
    assert (size snapshot ≠ 0)%nat.
    { intros Hz. apply size_empty_inv in Hz. apply Hne. now apply leibniz_equiv. }
    lia.
  - destruct Hb as (Hsub & Hsz & Hne).
    apply subseteq_size in Hsub. rewrite size_dom in Hsub. lia.
  - exact Hb.
  - exact Hb.
Qed.

Lemma reachable_bounded_within items w s :
  reachable fn limit items w s → bounded (Nat.max 1 limit) s.
Proof.
  apply reachable_invariant.
  - apply bounded_start_within. lia.
  - intros s1 s2. apply bounded_step_within. lia.
Qed.


(** *** Filling up to the limit *)




(** *** The order of the calls *)

Lemma calls_prefix items w s :
  reachable fn limit items w s → reverse (calls s) `prefix_of` items.
Proof.
  intros Hreach.
  enough (consistent fn items s ∧ reverse (calls s) `prefix_of` items) by tauto.
  revert s Hreach. apply reachable_invariant.
  - split; [apply consistent_start|]. simpl. apply prefix_nil.
  - intros s s' [Hc Hp] Hstep.
    split; [eapply consistent_step; eauto|].
    pose proof (taken_so_far _ _ _ Hc) as Htaken.
    destruct Hstep; simpl in *; try exact Hp.
    rewrite reverse_cons. exists rest.
    rewrite <- app_assoc. simpl. symmetry. now apply Htaken.
Qed.

(** *** An operation that has thrown *)

Lemma held_below_created items w s p k t :
  reachable fn limit items w s →
  executing s !! p = Some (k, t) → (p < created s)%nat.
Proof.
  intros Hc%reachable_consistent Hp.
  destruct (held_promises _ _ _ Hc p k t Hp) as [Hcall _].
  apply lookup_lt_Some in Hcall.
  rewrite length_reverse in Hcall. now rewrite (created_calls _ _ _ Hc).
Qed.

Lemma thrown_stays items w s s' p k e :
  reachable fn limit items w s → step fn limit s s' →
  executing s !! p = Some (k, Settled (inl e)) →
  executing s' !! p = Some (k, Settled (inl e)).
Proof.
  intros Hreach Hstep Hp.
  pose proof (held_below_created items w s p k _ Hreach Hp) as Hlt.
  destruct Hstep; simpl in *; try exact Hp.
  - rewrite lookup_insert_ne by lia. exact Hp.
  - rewrite lookup_insert_ne; [exact Hp|]. intros ->. congruence.
  - rewrite lookup_delete_ne; [exact Hp|]. intros ->. congruence.
Qed.

Lemma thrown_stays_on items w s s' p k e :
  reachable fn limit items w s → rtc (step fn limit) s s' →
  executing s !! p = Some (k, Settled (inl e)) →
  executing s' !! p = Some (k, Settled (inl e)).
Proof.
  intros Hreach Hrun. induction Hrun as [s|s s1 s2 Hstep Hrun IH]; [auto|].
  intros Hp. apply IH.
  - eapply rtc_r; eauto.
  - eapply thrown_stays; eauto.
Qed.

Lemma reject_from_loop rest :
  ∀ w ex res n cs p k e,
    ex !! p = Some (k, Settled (inl e)) →
    (∀ q, is_Some (ex !! q) → (q < n)%nat) →
    ∃ s', rtc (step fn limit)
            {| world := w; executing := ex; results := res; created := n;
               calls := cs; loop := Iterating rest |} s'
          ∧ loop s' = Rejected e.
Proof.
  induction rest as [|item rest IH]; intros w ex res n cs p k e Hp Hkeys.
  - eexists. split.
    + eapply rtc_l; [apply step_exit|]. apply rtc_once.
      apply (step_all_reject fn limit w ex res n cs (dom ex) p k e); [|exact Hp].
      apply elem_of_dom. eauto.
    + reflexivity.
  - assert (Hpn : n ≠ p).
    { intros ->. assert (p < p)%nat by (apply Hkeys; eauto). lia. }
    assert (Hp' : <[n:=(item, fn item)]> ex !! p = Some (k, Settled (inl e)))
      by now rewrite lookup_insert_ne.
    destruct (limit <=? size (<[n:=(item, fn item)]> ex))%nat eqn:Hfull.
    + eexists. split.
      * eapply rtc_l; [apply step_iterate|]. rewrite Hfull. apply rtc_once.
        apply (step_race_reject fn limit w _ res (S n) (item :: cs) _ rest p k e);
          [|exact Hp'].
        apply elem_of_dom. eauto.
      * reflexivity.
    + destruct (IH w (<[n:=(item, fn item)]> ex) res (S n) (item :: cs) p k e Hp')
        as (s' & Hrun & Hl).
      { intros q [x Hx]. apply lookup_insert_Some in Hx as [[<- _]|[_ Hx]]; [lia|].
        assert (q < n)%nat by (apply Hkeys; eauto). lia. }
      exists s'. split; [|exact Hl].
      eapply rtc_l; [apply step_iterate|]. now rewrite Hfull.
Qed.

Lemma can_reject items w s p k e :
  reachable fn limit items w s →
  executing s !! p = Some (k, Settled (inl e)) →
  ∃ s' e', rtc (step fn limit) s s' ∧ loop s' = Rejected e'.
Proof.
  intros Hreach Hp.
  pose proof (reachable_consistent _ _ _ _ _ Hreach) as Hc.
  pose proof (reachable_bounded_within _ _ _ Hreach) as Hb.
  assert (Hkeys : ∀ q, is_Some (executing s !! q) → (q < created s)%nat).
  { intros q [[k' t] Hq]. eapply held_below_created; eauto. }
  destruct s as [w0 ex res n cs l]. simpl in *.
  destruct l as [rest|snapshot rest|snapshot|r|e0].
  - destruct (reject_from_loop rest w0 ex res n cs p k e Hp Hkeys) as (s' & Hrun & Hl).
    eauto.
  - destruct Hb as (Hsub & _). simpl in Hsub.
    exists {| world := w0; executing := ex; results := res; created := n;
              calls := cs; loop := Rejected e |}, e.
    split; [|reflexivity]. apply rtc_once.
    apply (step_race_reject fn limit w0 ex res n cs snapshot rest p k e); [|exact Hp].
    apply Hsub, elem_of_dom. eauto.
  - pose proof (all_snapshot _ _ _ Hc snapshot eq_refl) as Hsub. simpl in Hsub.
    exists {| world := w0; executing := ex; results := res; created := n;
              calls := cs; loop := Rejected e |}, e.
    split; [|reflexivity]. apply rtc_once.
    apply (step_all_reject fn limit w0 ex res n cs snapshot p k e); [|exact Hp].
    apply Hsub, elem_of_dom. eauto.
  - destruct (returned_results _ _ _ Hc r eq_refl) as [_ Hempty]. simpl in Hempty.
    rewrite Hempty, lookup_empty in Hp. discriminate.
  - eexists _, e0. split; [reflexivity|reflexivity].
Qed.

(** *** Going on to return, whatever the limit *)

Lemma can_return_within bound s :
  (∀ item, NeverThrows (fn item)) →
  calm s → bounded bound s →
  ∃ s', rtc (step fn limit) s s' ∧ ∃ r, loop s' = Returned r.
Proof.
  intros Hfn. destruct s as [w ex res n cs l]. intros [Hex Hloop] Hb. simpl in *.
  destruct l as [rest|snapshot rest|snapshot|r|e].
  - now apply finish_loop.
  - destruct Hb as (_ & _ & Hne). simpl in Hne.
    destruct (set_choose_L snapshot Hne) as [p Hp].
    destruct (drain fn limit ex Hex w res n cs (AwaitingRace snapshot rest))
      as (w1 & res1 & Hrun1).
    destruct (finish_loop fn limit Hfn rest w1 ∅ res1 n cs) as (s' & Hrun2 & Hret).
    { intros q k t. now rewrite lookup_empty. }
    exists s'. split; [|exact Hret].
    etrans; [exact Hrun1|]. eapply rtc_l; [|exact Hrun2].
    apply (step_race_resume _ _ _ _ _ _ _ _ _ p Hp). apply lookup_empty.
  - now apply finish_all.
  - eexists. split; [reflexivity|]. simpl. eauto.
  - now destruct (Hloop e).
Qed.

(** *** No items *)

Lemma nothing_to_do w s :
  reachable fn limit [] w s →
  world s = w ∧ executing s = ∅ ∧ results s = emptyObject ∧ calls s = []
  ∧ (loop s = Iterating [] ∨ (∃ snapshot, loop s = AwaitingAll snapshot)
     ∨ loop s = Returned emptyObject).
Proof.
  revert s. apply reachable_invariant.
  - simpl. auto 10.
  - intros s s' (Hw & Hex & Hres & Hcs & Hl) Hstep.
    destruct Hstep; simpl in *; subst;
      try (rewrite lookup_empty in *; discriminate);
      try (destruct Hl as [Hl|[[? Hl]|Hl]]; discriminate);
      eauto 10.
Qed.

End Runner.

(** *** A limit of 0 *)

(** After an iteration at least one promise is held, so a limit of 0 makes
    the loop wait exactly when a limit of 1 does. *)
Lemma step_zero_one {V} (fn : string → Task V) s s' :
  step fn 0 s s' ↔ step fn 1 s s'.
Proof.
  assert (Hfull : ∀ (ex : gmap nat (string * Task V)) n x,
            (1 <=? size (<[n:=x]> ex))%nat = true).
  { intros ex n x. apply Nat.leb_le. rewrite map_size_insert.
    destruct (ex !! n) eqn:E; simpl; [|lia].
    assert (size ex ≠ 0)%nat; [|lia].
    intros Hz%map_size_empty_inv. rewrite Hz, lookup_empty in E.
    discriminate. }
  split; intros Hstep; destruct Hstep; try (econstructor; eassumption).
  - pose proof (step_iterate fn 1 w ex res n cs item rest) as H.
    rewrite Hfull in H. exact H.
  - pose proof (step_iterate fn 0 w ex res n cs item rest) as H.
    rewrite Hfull. exact H.
Qed.

Lemma reachable_zero_one {V} (fn : string → Task V) items w s :
  reachable fn 0 items w s ↔ reachable fn 1 items w s.
Proof.
  unfold reachable. split; apply rtc_subrel; intros x y; apply step_zero_one.
Qed.

End RunnerMore.

(** ** The work a request can do *)

Module BudgetFacts.
Import SiteModel TaskFacts SettleFacts EndpointFacts RunnerFacts.

Section Budget.
Context {A : Type} (measure : World → nat).

Lemma Within_more (t : Task A) b b' :
  (b ≤ b')%nat → Within measure b t → Within measure b' t.
Proof.
  revert b b'. induction t as [r|next IH after]; intros b b' Hle; simpl; [auto|].
  intros H w. destruct (H w) as (cost & Hc & Hm & Hn).
  exists cost. split; [lia|]. split; [exact Hm|].
  apply (IH w (b - cost)%nat); [lia|exact Hn].
Qed.

Lemma Within_run (t : Task A) b w :
  Within measure b t → (measure (run t w).2 ≤ measure w + b)%nat.
Proof.
  revert b w. induction t as [r|next IH after]; intros b w; simpl; [lia|].
  intros H. destruct (H w) as (cost & Hc & Hm & Hn).
  specialize (IH w _ (after w) Hn). lia.
Qed.

Lemma Within_await (op : World → Outcome A * World) cost :
  (∀ w, measure (op w).2 ≤ measure w + cost)%nat →
  Within measure cost (await op).
Proof.
  intros H w. exists cost. simpl. split; [lia|]. split; [apply H|exact I].
Qed.

Lemma Within_tryCatch (t : Task A) handler b :
  Within measure b t → (∀ e, Within measure 0 (handler e)) →
  Within measure b (tryCatch t handler).
Proof.
  intros Ht Hh. revert b Ht.
  induction t as [[e|a]|next IH after]; intros b Ht; simpl.
  - eapply Within_more; [|apply Hh]. lia.
  - exact I.
  - intros w. destruct (Ht w) as (cost & Hc & Hm & Hn).
    exists cost. split; [exact Hc|]. split; [exact Hm|]. now apply IH.
Qed.

End Budget.

Lemma Within_bind {A B} measure (t : Task A) (k : A → Task B) b1 b2 :
  Within measure b1 t → (∀ a, Within measure b2 (k a)) →
  Within measure (b1 + b2) (bind t k).
Proof.
  intros Ht Hk. revert b1 Ht.
  induction t as [[e|a]|next IH after]; intros b1 Ht; simpl.
  - exact I.
  - eapply Within_more; [|apply Hk]. lia.
  - intros w. destruct (Ht w) as (cost & Hc & Hm & Hn).
    exists cost. split; [lia|]. split; [exact Hm|].
    replace (b1 + b2 - cost)%nat with ((b1 - cost) + b2)%nat by lia.
    now apply IH.
Qed.

Lemma Within_mbind {A B} measure (t : Task A) (k : A → Task B) b1 b2 :
  Within measure b1 t → (∀ a, Within measure b2 (k a)) →
  Within measure (b1 + b2) (t ≫= k).
Proof. apply Within_bind. Qed.

(** *** The budget of a scan *)

Lemma scan_rows env site : Within rowCount 0 (scan env site).
Proof. apply Within_await. intros w. simpl. unfold rowCount. simpl. lia. Qed.

Lemma scan_retrievals env site : Within retrievalCount 1 (scan env site).
Proof. apply Within_await. intros w. simpl. unfold retrievalCount. simpl. lia. Qed.

Lemma select_free measure key age :
  Within measure 0 (selectScanLatestScanBySite key age).
Proof. apply Within_await. intros w. simpl. lia. Qed.

Lemma checkSitename_free measure env site :
  Within measure 0 (checkSitename env site).
Proof. apply Within_await. intros w. simpl. lia. Qed.

Lemma executeScan_rows env site : Within rowCount 1 (executeScan env site).
Proof.
  unfold executeScan. apply (Within_mbind rowCount _ _ 0 1); [apply scan_rows|].
  intros result. apply Within_await. intros w. unfold rowCount. simpl. lia.
Qed.

Lemma executeScan_retrievals env site :
  Within retrievalCount 1 (executeScan env site).
Proof.
  unfold executeScan.
  apply (Within_mbind retrievalCount _ _ 1 0); [apply scan_retrievals|].
  intros result. apply Within_await. intros w. unfold retrievalCount. simpl. lia.
Qed.

Lemma scanWithFullDetails_rows env site age :
  Within rowCount 1 (scanWithFullDetails env site age).
Proof.
  unfold scanWithFullDetails.
  apply (Within_mbind rowCount _ _ 0 1); [apply select_free|]. intros found.
  apply (Within_mbind rowCount _ _ 1 0).
  { destruct found; [exact I|apply executeScan_rows]. }
  intros row. apply (Within_mbind rowCount _ _ 0 0); [apply scan_rows|].
  intros full. exact I.
Qed.

Lemma scanWithFullDetails_retrievals env site age :
  Within retrievalCount 2 (scanWithFullDetails env site age).
Proof.
  unfold scanWithFullDetails.
  apply (Within_mbind retrievalCount _ _ 0 2); [apply select_free|]. intros found.
  apply (Within_mbind retrievalCount _ _ 1 1).
  { destruct found; [exact I|apply executeScan_retrievals]. }
  intros row. apply (Within_mbind retrievalCount _ _ 1 0); [apply scan_retrievals|].
  intros full. exact I.
Qed.

Lemma scanOrReturnRecent_rows env site age :
  Within rowCount 1 (scanOrReturnRecentWithFullDetails env site age).
Proof.
  unfold scanOrReturnRecentWithFullDetails.
  apply (Within_mbind rowCount _ _ 0 1); [apply select_free|]. intros found.
  apply (Within_mbind rowCount _ _ 1 0).
  { destruct found; [exact I|apply executeScan_rows]. }
  intros row. apply (Within_mbind rowCount _ _ 0 0); [apply scan_rows|].
  intros full. exact I.
Qed.

Lemma scanOrReturnRecent_retrievals env site age :
  Within retrievalCount 2 (scanOrReturnRecentWithFullDetails env site age).
Proof.
  unfold scanOrReturnRecentWithFullDetails.
  apply (Within_mbind retrievalCount _ _ 0 2); [apply select_free|]. intros found.
  apply (Within_mbind retrievalCount _ _ 1 1).
  { destruct found; [exact I|apply executeScan_retrievals]. }
  intros row. apply (Within_mbind retrievalCount _ _ 1 0); [apply scan_retrievals|].
  intros full. exact I.
Qed.

Lemma endpoint_budget {A} measure b (inner : Site → Task A) env url :
  (∀ site, Within measure b (inner site)) →
  Within measure b
    (site ← call (fromSiteString (normalize url));
     site ← checkSitename env site;
     inner site).
Proof.
  intros Hinner.
  apply (Within_mbind measure _ _ 0 b); [exact I|]. intros site.
  apply (Within_mbind measure _ _ 0 b); [apply checkSitename_free|].
  exact Hinner.
Qed.

Lemma scanSingleUrl_rows env url : Within rowCount 1 (scanSingleUrl env url).
Proof.
  apply Within_tryCatch; [|intros e; exact I].
  apply endpoint_budget. intros site. apply scanWithFullDetails_rows.
Qed.

Lemma scanSingleUrl_retrievals env url :
  Within retrievalCount 2 (scanSingleUrl env url).
Proof.
  apply Within_tryCatch; [|intros e; exact I].
  apply endpoint_budget. intros site. apply scanWithFullDetails_retrievals.
Qed.

Lemma scanFullDetails_rows env host : Within rowCount 1 (scanFullDetails env host).
Proof. apply endpoint_budget. intros site. apply scanOrReturnRecent_rows. Qed.

Lemma scanFullDetails_retrievals env host :
  Within retrievalCount 2 (scanFullDetails env host).
Proof. apply endpoint_budget. intros site. apply scanOrReturnRecent_retrievals. Qed.

(** *** The budget of a batch *)

Lemma sum_update_out (f : nat → nat) p v n :
  (n ≤ p)%nat →
  sum_list_with (λ q, if decide (q = p) then v else f q) (seq 0 n)
  = sum_list_with f (seq 0 n).
Proof.
  induction n as [|n IH]; [reflexivity|]. intros Hp.
  rewrite seq_S, !sum_list_with_app, IH by lia. simpl.
  destruct (decide (n = p)); [lia|reflexivity].
Qed.

Lemma sum_update (f : nat → nat) p v n :
  (p < n)%nat →
  (sum_list_with (λ q, if decide (q = p) then v else f q) (seq 0 n) + f p
   = sum_list_with f (seq 0 n) + v)%nat.
Proof.
  induction n as [|n IH]; [lia|]. intros Hp.
  rewrite seq_S, !sum_list_with_app. simpl.
  destruct (decide (n = p)) as [->|Hne].
  - rewrite sum_update_out by lia. lia.
  - specialize (IH ltac:(lia)). lia.
Qed.

Section Runner.
Context {V : Type} (fn : string → Task V) (limit : nat).
Context (measure : World → nat) (budget : nat).
Hypothesis fn_within : ∀ item, Within measure budget (fn item).

Lemma runner_within items w s :
  reachable fn limit items w s →
  (measure (world s) ≤ measure w + budget * length (calls s))%nat.
Proof.
  intros Hreach.
  enough (consistent fn items s
          ∧ ∃ left : nat → nat,
              (∀ p k t, executing s !! p = Some (k, t) →
                        Within measure (left p) t)
              ∧ (measure (world s) + sum_list_with left (seq 0 (created s))
                 ≤ measure w + budget * created s)%nat) as (Hc & left & _ & H).
  { rewrite <- (created_calls _ _ _ Hc). lia. }
  revert s Hreach. apply reachable_invariant.
  - split; [apply consistent_start|]. exists (λ _, 0%nat). simpl.
    split; [intros p k t; now rewrite lookup_empty|lia].
  - intros s s' (Hc & left & Hheld & Hsum) Hstep.
    split; [eapply consistent_step; eauto|].
    assert (Hbelow : ∀ p k t, executing s !! p = Some (k, t) →
                              (p < created s)%nat).
    { intros p k t Hp. destruct (held_promises _ _ _ Hc p k t Hp) as [Hcall _].
      apply lookup_lt_Some in Hcall. rewrite length_reverse in Hcall.
      now rewrite (created_calls _ _ _ Hc). }
    destruct Hstep as
      [w0 ex res n cs item rest
      |w0 ex res n cs
      |w0 ex res n cs l p item next after Hp
      |w0 ex res n cs l p item v Hp
      |w0 ex res n cs snapshot rest p Hin Hp
      |w0 ex res n cs snapshot rest p item e Hin Hp
      |w0 ex res n cs snapshot Hall
      |w0 ex res n cs snapshot p item e Hin Hp];
      cbn [world executing created calls loop results] in *;
      try (exists left; split; [exact Hheld|exact Hsum]).
    + exists (λ q, if decide (q = n) then budget else left q). split.
      * intros p k t [[<- [= <- <-]]|[Hne Hp]]%lookup_insert_Some.
        -- rewrite decide_True by reflexivity. apply fn_within.
        -- rewrite decide_False by auto. eauto.
      * rewrite seq_S, sum_list_with_app, sum_update_out by lia. simpl.
        rewrite decide_True by reflexivity. lia.
    + destruct (Hheld p item _ Hp w0) as (cost & Hcost & Hm & Hnext).
      exists (λ q, if decide (q = p) then (left p - cost)%nat else left q). split.
      * intros q k t [[<- [= <- <-]]|[Hne Hq]]%lookup_insert_Some.
        -- rewrite decide_True by reflexivity. exact Hnext.
        -- rewrite decide_False by auto. eauto.
      * pose proof (sum_update left p (left p - cost)%nat n (Hbelow p _ _ Hp)). lia.
    + exists left. split; [|exact Hsum].
      intros q k t [_ Hq]%lookup_delete_Some. eauto.
Qed.

End Runner.

End BudgetFacts.

(* ===================================================================== *)
(** * Part III: the properties the specification states                   *)
(* ===================================================================== *)

Import SiteModel TaskFacts SettleFacts EndpointFacts RunFacts.

(** ** Sample runs *)

(** A response of [/scanFullDetails] for [mdn.dev] on the sample network,
    and a reply of the batch endpoint to [{ urls: [" MDN.dev "] }]. *)
Lemma sample_response :
  ∃ r, CanSettle (scanFullDetails Sample.env "mdn.dev") (inr r)
       ∧ is_Some (fd_tests (resp_fullDetails r) !! "cookies").
Proof.
  eexists. split.
  - pose proof (run_CanSettle (scanFullDetails Sample.env "mdn.dev")
                  Sample.initial) as H.
    vm_compute in H. 
    exact H.
  - simpl. vm_compute. eauto.
Defined.

Lemma sample_hosted_response :
  ∃ r, CanSettle (scanFullDetails Sample.hosted "Example.com:8080/path") (inr r).
Proof.
  eexists.
  pose proof (run_CanSettle (scanFullDetails Sample.hosted "Example.com:8080/path")
                Sample.initial) as H.
  vm_compute in H. exact H.
Defined.

Lemma sample_batch_reply :
  ∃ res w' r,
    scanBatchFullDetails Sample.env (urlsBody [" MDN.dev "]) Sample.initial
      (Ok200 res) w'
    ∧ res !! "mdn.dev" = Some (EntryOk r)
    ∧ is_Some (fd_tests (resp_fullDetails r) !! "cookies").
Proof.
  assert (Hv : validateBody (urlsBody [" MDN.dev "]) = inr [" MDN.dev "])
    by reflexivity.
  destruct (BatchFacts.batch_answers Sample.env _ _ Sample.initial Hv)
    as (res & w' & Hbatch).
  destruct (EntryFacts.entry_succeeds Sample.env _ _ _ res w' "mdn.dev" Hv Hbatch)
    as [r Hr].
  - vm_compute. apply list_elem_of_here.
  - discriminate.
  - apply (EntryFacts.try_never_throws Sample.env "mdn.dev" Sample.mdn);
      [reflexivity|reflexivity|]. intros n. eexists. reflexivity.
  - exists res, w', r. split; [exact Hbatch|split; [exact Hr|]].
    destruct (BatchFacts.batch_reply_entries _ _ _ _ _ _ Hv Hbatch) as (Hown & _).
    destruct (Hown _ _ Hr) as (_ & _ & Hsettle).
    apply settle_entry_ok in Hsettle
      as (site & row & full & n & _ & _ & Hfull & _ & _ & Hfd).
    rewrite Hfd. simpl. injection Hfull as <-. simpl.
    rewrite lookup_withoutScoreDescription, lookup_singleton_eq. simpl. eauto.
Qed.

Lemma oneInFlight_reachable :
  reachable (scanSingleUrl Sample.env) DEFAULT_CONCURRENCY
    (normalizedUrls [" MDN.dev "]) Sample.initial Sample.oneInFlight.
Proof.
  apply rtc_once.
  exact (step_iterate (scanSingleUrl Sample.env) DEFAULT_CONCURRENCY
           Sample.initial ∅ emptyObject 0 [] "mdn.dev" []).
Defined.

(** ** Cooldown *)




(** ** Summary and full details *)

(** C2. A call of [/scanFullDetails] for a host that parses to [site] and
    resolves: when the latest row of the site key is younger than the
    cooldown, that row supplies the summary fields and nothing is
    persisted; otherwise a new scan is run and its summary row, persisted,
    supplies them; either way one more retrieval is made, and what it
    yields fills [fullDetails]: its report is [fullDetails.scan], and
    [fullDetails.tests] holds every test it has, and no other, each under
    its name and without its [scoreDescription]. *)
Theorem scanFullDetails_summary_and_details env host site w :
  fromSiteString (normalize host) = inr site →
  resolves env (hostname site) = true →
  let key := asSiteKey site in
  let n := length (retrievals w) in
  (∀ row full,
      latestRow key (db w) = Some row →
      clock w - row_start_time row < cooldown env →
      scanner env site n = inr full →
      ∃ r, run (scanFullDetails env host) w = (inr r, logRetrieval key w)
           ∧ summaryOf row r
           ∧ fd_scan (resp_fullDetails r) = scan_report full
           ∧ ∀ name, fd_tests (resp_fullDetails r) !! name
                     = delete "scoreDescription" <$> scan_tests full !! name)
  ∧ (∀ first full,
      (∀ row, latestRow key (db w) = Some row →
              cooldown env ≤ clock w - row_start_time row) →
      scanner env site n = inr first →
      scanner env site (S n) = inr full →
      let row := summaryRow w key (scan_report first) in
      ∃ r, run (scanFullDetails env host) w
           = (inr r, {| db := row :: db w; clock := clock w;
                        retrievals := key :: key :: retrievals w |})
           ∧ summaryOf row r
           ∧ fd_scan (resp_fullDetails r) = scan_report full
           ∧ ∀ name, fd_tests (resp_fullDetails r) !! name
                     = delete "scoreDescription" <$> scan_tests full !! name).
Proof.
  intros Hsite Hres key n. split.
  - intros row full Hrow Hyoung Hfull.
    rewrite (run_scanFullDetails env host site w Hsite Hres).
    destruct (run_scanOrReturnRecent_cached env site (cooldown env) w row)
      with (full := full) as (r & Hrun & Hsum & _ & Hfd); [|exact Hfull|].
    + unfold recentRow. fold key. rewrite Hrow.
      now destruct (Z.ltb_spec (clock w - row_start_time row) (cooldown env));
        [|lia].
    + exists r. rewrite Hfd. simpl.
      split; [exact Hrun|]. split; [exact Hsum|]. split; [reflexivity|].
      intros name. unfold withoutScoreDescription.
      rewrite <- (list_to_map_to_list (scan_tests full)) at 2.
      now rewrite <- lookup_fmap, <- list_to_map_fmap.
  - intros first full Hold Hfirst Hfull row.
    rewrite (run_scanFullDetails env host site w Hsite Hres).
    destruct (run_scanOrReturnRecent_fresh env site (cooldown env) w)
      with (first := first) (full := full) as (r & Hrun & Hsum & _ & Hfd);
      [|exact Hfirst|exact Hfull|].
    + unfold recentRow. fold key.
      destruct (latestRow key (db w)) as [row0|] eqn:Hrow0; [|reflexivity].
      specialize (Hold row0 eq_refl).
      now destruct (Z.ltb_spec (clock w - row_start_time row0) (cooldown env));
        [lia|].
    + exists r. rewrite Hfd. simpl.
      split; [exact Hrun|]. split; [exact Hsum|]. split; [reflexivity|].
      intros name. unfold withoutScoreDescription.
      rewrite <- (list_to_map_to_list (scan_tests full)) at 2.
      now rewrite <- lookup_fmap, <- list_to_map_fmap.
Qed.

Lemma scanFullDetails_summary_and_details_witness :
  (∃ r, run (scanFullDetails Sample.env " MDN.dev ") Sample.afterFirst
        = (inr r, logRetrieval "mdn.dev" Sample.afterFirst)
        ∧ resp_id r = 1 ∧ resp_grade r = Some "A+"
        ∧ grade (fd_scan (resp_fullDetails r)) = Some "F"
        ∧ fd_tests (resp_fullDetails r) !! "cookies"
          = Some (delete "scoreDescription" Sample.cookies)
        ∧ fd_tests (resp_fullDetails r) !! "csp" = None)
  ∧ (∃ r, (run (scanFullDetails Sample.env " MDN.dev ") Sample.initial).1 = inr r
          ∧ resp_id r = 1 ∧ resp_grade r = Some "A+"
          ∧ grade (fd_scan (resp_fullDetails r)) = Some "F"
          ∧ fd_tests (resp_fullDetails r) !! "cookies"
            = Some (delete "scoreDescription" Sample.cookies)
          ∧ fd_tests (resp_fullDetails r) !! "csp" = None)
  ∧ delete "scoreDescription" Sample.cookies !! "pass" = Some (JBool true)
  ∧ delete "scoreDescription" Sample.cookies !! "scoreModifier" = Some (JNum 5).
Proof.
  split; [|split; [|split; reflexivity]].
  - destruct (scanFullDetails_summary_and_details Sample.env " MDN.dev "
                Sample.mdn Sample.afterFirst eq_refl eq_refl) as [Hcached _].
    edestruct Hcached as (r & Hrun & Hsum & Hscan & Htests);
      [reflexivity|reflexivity|reflexivity|].
    exists r. split; [exact Hrun|].
    destruct Hsum as (Hid & _ & _ & _ & Hgrade & _).
    rewrite Hid, Hgrade, Hscan. do 3 (split; [reflexivity|]).
    vm_compute in Hrun. injection Hrun as <-. split; vm_compute; reflexivity.
  - destruct (scanFullDetails_summary_and_details Sample.env " MDN.dev "
                Sample.mdn Sample.initial eq_refl eq_refl) as [_ Hfresh].
    edestruct Hfresh as (r & Hrun & Hsum & Hscan & Htests);
      [intros row; discriminate|reflexivity|reflexivity|].
    exists r. split; [now rewrite Hrun|].
    destruct Hsum as (Hid & _ & _ & _ & Hgrade & _).
    rewrite Hid, Hgrade, Hscan. do 3 (split; [reflexivity|]).
    vm_compute in Hrun. injection Hrun as <-. split; vm_compute; reflexivity.
Defined.

(** ** Duplicates in a batch *)

(** C3. The url [__proto__], given twice in different case and spacing:
    the body is valid, the two urls have one normalised form, and the scan
    of that form is issued exactly once; but every reply is the empty
    object: the response has no key for the form. *)
Theorem proto_duplicates_leave_no_key env w :
  let urls := ["__proto__"; " __PROTO__ "] in
  validateBody (urlsBody urls) = inr urls
  ∧ normalizedUrls urls = ["__proto__"]
  ∧ (∀ s res,
       reachable (scanSingleUrl env) DEFAULT_CONCURRENCY (normalizedUrls urls) w s →
       loop s = Returned res →
       calls s = ["__proto__"] ∧ own res = ∅)
  ∧ (∃ w', scanBatchFullDetails env (urlsBody urls) w (Ok200 ∅) w').
Proof.
  intros urls.
  assert (Hv : validateBody (urlsBody urls) = inr urls) by reflexivity.
  assert (Hitems : normalizedUrls urls = ["__proto__"]) by (vm_compute; reflexivity).
  split; [exact Hv|split; [exact Hitems|split]].
  - intros s res Hreach Hl. split.
    + pose proof (RunnerFacts.returned_calls _ _ _ _ _ _ Hreach Hl) as Hcalls.
      rewrite Hitems in Hcalls.
      apply (f_equal reverse) in Hcalls. now rewrite reverse_involutive in Hcalls.
    + assert (Hreply : Ok200 (own res) = Ok200 ∅).
      { eapply (DedupFacts.only_proto_empty env _ urls w _ (world s) Hv Hitems).
        eapply batch_returned; eauto. }
      now injection Hreply.
  - destruct (BatchFacts.batch_answers env urls _ w Hv) as (res & w' & Hbatch).
    exists w'.
    now rewrite <- (DedupFacts.only_proto_empty env _ urls w _ w' Hv Hitems Hbatch).
Qed.

(** ** Failures in a batch *)

(** C4. The url [__proto__] alone: its scan fails, the host name being
    invalid, and the batch is answered; but the answer is the empty
    object: the failed entry is not reported under its key. *)
Theorem proto_entry_not_reported env w :
  let body := urlsBody ["__proto__"] in
  validateBody body = inr ["__proto__"]
  ∧ (∃ e, (run (scanSingleUrlTry env "__proto__") w).1 = inl e
          ∧ (run (scanSingleUrl env "__proto__") w).1 = inr (failureEntry e)
          ∧ entry_success (failureEntry e) = false)
  ∧ (∃ w', scanBatchFullDetails env body w (Ok200 ∅) w')
  ∧ (∀ reply w', scanBatchFullDetails env body w reply w' →
                 ∃ entries, reply = Ok200 entries ∧ entries !! "__proto__" = None).
Proof.
  intros body.
  assert (Hv : validateBody body = inr ["__proto__"]) by reflexivity.
  assert (Hitems : normalizedUrls ["__proto__"] = ["__proto__"])
    by (vm_compute; reflexivity).
  split; [exact Hv|split; [eexists; repeat split|split]].
  - destruct (BatchFacts.batch_answers env _ _ w Hv) as (res & w' & Hbatch).
    exists w'.
    now rewrite <- (DedupFacts.only_proto_empty env _ _ w _ w' Hv Hitems Hbatch).
  - intros reply w' Hbatch. exists ∅.
    split; [|apply lookup_empty].
    apply (DedupFacts.only_proto_empty env body _ w reply w' Hv Hitems Hbatch).
Qed.

(** ** Malformed batches *)




(** ** The score description *)

(** C6. Every test the two endpoints emit is a test of the in-memory scan
    result of the response, without its [scoreDescription] and with every
    other field as scanned. *)
Theorem scoreDescription_removed env :
  (∀ host r name emitted,
      CanSettle (scanFullDetails env host) (inr r) →
      fd_tests (resp_fullDetails r) !! name = Some emitted →
      ∃ site n full test,
        scanner env site n = inr full
        ∧ fd_scan (resp_fullDetails r) = scan_report full
        ∧ scan_tests full !! name = Some test
        ∧ strippedFrom test emitted)
  ∧ (∀ body w res w' key r name emitted,
      scanBatchFullDetails env body w (Ok200 res) w' →
      res !! key = Some (EntryOk r) →
      fd_tests (resp_fullDetails r) !! name = Some emitted →
      ∃ site n full test,
        scanner env site n = inr full
        ∧ fd_scan (resp_fullDetails r) = scan_report full
        ∧ scan_tests full !! name = Some test
        ∧ strippedFrom test emitted).
Proof.
  split.
  - intros host r name emitted Hr Hname.
    apply settle_response in Hr
      as (site & row & full & n & _ & _ & Hfull & _ & _ & Hfd).
    rewrite Hfd in Hname. simpl in Hname.
    apply stripped_test in Hname as (test & Htest & Hstripped).
    exists site, n, full, test. rewrite Hfd. auto.
  - intros body w res w' key r name emitted Hbatch Hkey Hname.
    assert (Hsettle : CanSettle (scanSingleUrl env key) (inr (EntryOk r))).
    { inversion Hbatch as [|urls s res' Hv Hreach Hl|]; subst.
      eapply RunnerFacts.returned_own; eauto. }
    apply settle_entry_ok in Hsettle
      as (site & row & full & n & _ & _ & Hfull & _ & _ & Hfd).
    rewrite Hfd in Hname. simpl in Hname.
    apply stripped_test in Hname as (test & Htest & Hstripped).
    exists site, n, full, test. rewrite Hfd. auto.
Qed.

Lemma scoreDescription_removed_witness :
  (∃ r emitted,
      CanSettle (scanFullDetails Sample.env "mdn.dev") (inr r)
      ∧ fd_tests (resp_fullDetails r) !! "cookies" = Some emitted
      ∧ emitted !! "scoreDescription" = None)
  ∧ (∃ res w' r emitted,
      scanBatchFullDetails Sample.env (urlsBody [" MDN.dev "]) Sample.initial
        (Ok200 res) w'
      ∧ res !! "mdn.dev" = Some (EntryOk r)
      ∧ fd_tests (resp_fullDetails r) !! "cookies" = Some emitted
      ∧ emitted !! "scoreDescription" = None).
Proof.
  split.
  - destruct sample_response as (r & Hr & emitted & Hemitted).
    exists r, emitted. split; [exact Hr|split; [exact Hemitted|]].
    destruct (proj1 (scoreDescription_removed Sample.env)
                "mdn.dev" r "cookies" emitted Hr Hemitted)
      as (site & n & full & test & _ & _ & _ & Hnone & _).
    exact Hnone.
  - destruct sample_batch_reply as (res & w' & r & Hbatch & Hr & emitted & Hemitted).
    exists res, w', r, emitted.
    split; [exact Hbatch|split; [exact Hr|split; [exact Hemitted|]]].
    destruct (proj2 (scoreDescription_removed Sample.env)
                _ _ res w' "mdn.dev" r "cookies" emitted Hbatch Hr Hemitted)
      as (site & n & full & test & _ & _ & _ & Hnone & _).
    exact Hnone.
Defined.

(** ** The details URL *)

(** C7. The [details_url] of every response of the two endpoints is the
    configured base URL followed by [/analyze?host=] and the URL-encoded
    site key, and the MDN Observatory URL of that site key when no base
    URL is configured. *)
Theorem details_url_as_configured env :
  (∀ host r,
      CanSettle (scanFullDetails env host) (inr r) →
      ∃ site, fromSiteString (normalize host) = inr site
              ∧ detailsUrlAsConfigured env site (resp_details_url r))
  ∧ (∀ body w res w' key r,
      scanBatchFullDetails env body w (Ok200 res) w' →
      res !! key = Some (EntryOk r) →
      ∃ site, fromSiteString (normalize key) = inr site
              ∧ detailsUrlAsConfigured env site (resp_details_url r)).
Proof.
  split.
  - intros host r Hr.
    apply settle_response in Hr
      as (site & row & full & n & Hsite & _ & _ & _ & Hurl & _).
    exists site. rewrite Hurl. split; [exact Hsite|apply detailsUrl_asConfigured].
  - intros body w res w' key r Hbatch Hkey.
    assert (Hsettle : CanSettle (scanSingleUrl env key) (inr (EntryOk r))).
    { inversion Hbatch as [|urls s res' Hv Hreach Hl|]; subst.
      eapply RunnerFacts.returned_own; eauto. }
    apply settle_entry_ok in Hsettle
      as (site & row & full & n & Hsite & _ & _ & _ & Hurl & _).
    exists site. rewrite Hurl. split; [exact Hsite|apply detailsUrl_asConfigured].
Qed.

Lemma details_url_as_configured_witness :
  (∃ r, CanSettle (scanFullDetails Sample.env "mdn.dev") (inr r)
        ∧ resp_details_url r
          = "https://developer.mozilla.org/en-US/observatory/analyze?host=mdn.dev")
  ∧ (∃ r, CanSettle (scanFullDetails Sample.hosted "Example.com:8080/path") (inr r)
        ∧ resp_details_url r
          = "https://your-domain.com/analyze?host=example.com%3A8080%2Fpath")
  ∧ (∃ res w' r,
        scanBatchFullDetails Sample.env (urlsBody [" MDN.dev "]) Sample.initial
          (Ok200 res) w'
        ∧ res !! "mdn.dev" = Some (EntryOk r)
        ∧ resp_details_url r
          = "https://developer.mozilla.org/en-US/observatory/analyze?host=mdn.dev").
Proof.
  split; [|split].
  - destruct sample_response as (r & Hr & _). exists r. split; [exact Hr|].
    destruct (proj1 (details_url_as_configured Sample.env) "mdn.dev" r Hr)
      as (site & Hsite & _ & Hmdn).
    injection Hsite as <-. apply Hmdn. now left.
  - destruct sample_hosted_response as (r & Hr). exists r. split; [exact Hr|].
    destruct (proj1 (details_url_as_configured Sample.hosted)
                "Example.com:8080/path" r Hr)
      as (site & Hsite & Hbase & _).
    injection Hsite as <-. now apply (Hbase "https://your-domain.com").
  - destruct sample_batch_reply as (res & w' & r & Hbatch & Hr & _).
    exists res, w', r. split; [exact Hbatch|split; [exact Hr|]].
    destruct (proj2 (details_url_as_configured Sample.env)
                _ _ res w' "mdn.dev" r Hbatch Hr)
      as (site & Hsite & _ & Hmdn).
    injection Hsite as <-. apply Hmdn. now left.
Defined.

(** ** Scans in flight *)

(** C8. While a batch request is processed, at most [DEFAULT_CONCURRENCY]
    (5) scans are in flight: in every state the runner can reach, whatever
    the order in which the scans are resumed and settle. *)
Theorem at_most_five_in_flight env urls w s :
  reachable (scanSingleUrl env) DEFAULT_CONCURRENCY (normalizedUrls urls) w s →
  (inFlight s ≤ DEFAULT_CONCURRENCY)%nat.
Proof.
  intros Hreach. apply RunnerFacts.bounded_inFlight.
  eapply RunnerFacts.reachable_bounded; [|exact Hreach].
  unfold DEFAULT_CONCURRENCY. lia.
Qed.

Lemma at_most_five_in_flight_witness :
  length (normalizedUrls Sample.eightUrls) = 7%nat
  ∧ (inFlight Sample.fiveInFlight = 5%nat
     ∧ (inFlight Sample.fiveInFlight ≤ DEFAULT_CONCURRENCY)%nat)
  ∧ (created Sample.sixthStarted = 6%nat
     ∧ inFlight Sample.sixthStarted = 5%nat
     ∧ (inFlight Sample.sixthStarted ≤ DEFAULT_CONCURRENCY)%nat).
Proof.
  split; [vm_compute; reflexivity|]. split.
  - split; [vm_compute; reflexivity|].
    apply (at_most_five_in_flight Sample.env Sample.eightUrls Sample.initial).
    apply ScheduleFacts.scheduled_reachable.
  - split; [vm_compute; reflexivity|]. split; [vm_compute; reflexivity|].
    apply (at_most_five_in_flight Sample.env Sample.eightUrls Sample.initial).
    apply ScheduleFacts.scheduled_reachable.
Defined.

(** ** Canonicalisation *)

(** C9. Canonicalisation is idempotent: a site parsed from an accepted
    input prints a key that parses to the same site, so canonicalising a
    canonical key returns it; the normalisation of the endpoints, trim
    then lower-case, returns an already normalised string unchanged; and
    the key an endpoint derives from its input is left as it is by the
    normalisation and canonicalises to itself. *)
Theorem canonicalization_idempotent :
  (∀ x s, fromSiteString x = inr s → fromSiteString (asSiteKey s) = inr s)
  ∧ (∀ x k, canonicalize x = Some k → canonicalize k = Some k)
  ∧ (∀ x, normalize (normalize x) = normalize x)
  ∧ (∀ x k, canonicalize (normalize x) = Some k →
            normalize k = k ∧ canonicalize (normalize k) = Some k).
Proof.
  assert (H1 : ∀ x s, fromSiteString x = inr s →
                      fromSiteString (asSiteKey s) = inr s).
  { intros x s Hx. apply SiteFacts.fromSiteString_asSiteKey.
    eapply SiteFacts.fromSiteString_wellFormed, Hx. }
  assert (H2 : ∀ x k, canonicalize x = Some k → canonicalize k = Some k).
  { intros x k. unfold canonicalize.
    destruct (fromSiteString x) as [e|s] eqn:Hx; [discriminate|].
    intros [= <-]. now rewrite (H1 x s Hx). }
  split; [exact H1|split; [exact H2|split]].
  - apply JsFacts.normalize_idem.
  - intros x k Hk.
    assert (Hn : normalize k = k).
    { revert Hk. unfold canonicalize.
      destruct (fromSiteString (normalize x)) as [e|s] eqn:Hx; [discriminate|].
      intros [= <-]. now apply (KeyFacts.normalize_asSiteKey x). }
    split; [exact Hn|]. rewrite Hn. now apply (H2 (normalize x)).
Qed.

Lemma canonicalization_idempotent_witness :
  fromSiteString (asSiteKey
    {| hostname := "example.com"; port := Some 8080%N; path := "/Path" |})
  = inr {| hostname := "example.com"; port := Some 8080%N; path := "/Path" |}
  ∧ canonicalize "example.com:8080/Path" = Some "example.com:8080/Path"
  ∧ (normalize "example.com:8080/path" = "example.com:8080/path"
     ∧ canonicalize (normalize "example.com:8080/path")
       = Some "example.com:8080/path").
Proof.
  split; [|split].
  - apply (proj1 canonicalization_idempotent "https://Example.COM:08080/Path?q=1").
    vm_compute. reflexivity.
  - apply (proj1 (proj2 canonicalization_idempotent)
             "https://Example.COM:08080/Path?q=1").
    vm_compute. reflexivity.
  - apply (proj2 (proj2 (proj2 canonicalization_idempotent))
             "  https://Example.COM:08080/Path?q=1 ").
    vm_compute. reflexivity.
Defined.

(** ** What a cached request leaves behind *)

(** C10. A call of [/scanFullDetails] that finds a row younger than the
    cooldown persists nothing: the rows are those it found, the one
    retrieval it makes is the in-memory scan behind [fullDetails], and the
    summary is that of the row found; so the summary can describe an older
    scan than [fullDetails] does. *)
Theorem cached_request_persists_nothing :
  (∀ env host site w row,
      fromSiteString (normalize host) = inr site →
      resolves env (hostname site) = true →
      latestRow (asSiteKey site) (db w) = Some row →
      clock w - row_start_time row < cooldown env →
      let out := run (scanFullDetails env host) w in
      db out.2 = db w
      ∧ retrievals out.2 = asSiteKey site :: retrievals w
      ∧ ∀ r, out.1 = inr r →
          summaryOf row r
          ∧ ∃ full, scanner env site (length (retrievals w)) = inr full
                    ∧ fd_scan (resp_fullDetails r) = scan_report full)
  ∧ (∃ env host w r,
        (∃ row, latestRow "mdn.dev" (db w) = Some row
                ∧ clock w - row_start_time row < cooldown env)
        ∧ (run (scanFullDetails env host) w).1 = inr r
        ∧ resp_grade r = Some "A+"
        ∧ grade (fd_scan (resp_fullDetails r)) = Some "F").
Proof.
  split.
  - intros env host site w row Hsite Hres Hrow Hyoung out. subst out.
    rewrite (run_scanFullDetails env host site w Hsite Hres).
    assert (Hrecent : recentRow (asSiteKey site) (cooldown env) w = Some row).
    { unfold recentRow. rewrite Hrow.
      now destruct (Z.ltb_spec (clock w - row_start_time row) (cooldown env)); [|lia]. }
    rewrite (run_scanOrReturnRecent_cached_world env site _ w row Hrecent).
    split; [reflexivity|split; [reflexivity|]].
    intros r Hr.
    destruct (scanner env site (length (retrievals w))) as [e|full] eqn:Hfull.
    + exfalso. revert Hr. unfold scanOrReturnRecentWithFullDetails.
      rewrite run_mbind, run_select, Hrecent, run_mbind, run_ret, run_mbind,
        run_scan, Hfull. discriminate.
    + destruct (run_scanOrReturnRecent_cached env site _ w row Hrecent full Hfull)
        as (r' & Hrun & Hsum & _ & Hfd).
      rewrite Hrun in Hr. injection Hr as <-.
      split; [exact Hsum|]. exists full. split; [reflexivity|]. now rewrite Hfd.
  - exists Sample.env, "mdn.dev",
      (later 30 (run (scanFullDetails Sample.env "mdn.dev") Sample.initial).2).
    eexists. split; [|split; [vm_compute; reflexivity|split; reflexivity]].
    eexists. split; [vm_compute; reflexivity|]. vm_compute. reflexivity.
Qed.

Lemma cached_request_persists_nothing_witness :
  db (run (scanFullDetails Sample.env "mdn.dev") Sample.afterFirst).2
  = db Sample.afterFirst
  ∧ retrievals (run (scanFullDetails Sample.env "mdn.dev") Sample.afterFirst).2
    = "mdn.dev" :: retrievals Sample.afterFirst.
Proof.
  destruct cached_request_persists_nothing as [Hcached _].
  edestruct (Hcached Sample.env "mdn.dev" Sample.mdn Sample.afterFirst)
    as (Hdb & Hretr & _); [reflexivity|reflexivity|reflexivity|reflexivity|].
  split; [exact Hdb|exact Hretr].
Defined.

(* ===================================================================== *)
(** * Part IV: further properties of the code                             *)
(* ===================================================================== *)

(** ** The runner, for any function and any limit *)

(** X1. [runWithConcurrency] never holds more operations than its limit,
    for any function, any items, any limit and any order of resumption.  A
    limit of 0 acts as a limit of 1, the race being awaited after every
    call: the call can be in the same states under either. *)
Theorem runner_never_exceeds_limit {V} (fn : string → Task V) limit items w s :
  reachable fn limit items w s →
  (inFlight s ≤ Nat.max 1 limit)%nat
  ∧ (∀ s0, reachable fn 0 items w s0 ↔ reachable fn 1 items w s0).
Proof.
  intros H. split.
  - apply RunnerFacts.bounded_inFlight.
    now apply (RunnerMore.reachable_bounded_within fn limit items w).
  - intros s0. apply RunnerMore.reachable_zero_one.
Qed.

Lemma runner_never_exceeds_limit_witness :
  (inFlight Sample.sixthStarted = 5%nat
   ∧ (inFlight Sample.sixthStarted ≤ Nat.max 1 DEFAULT_CONCURRENCY)%nat)
  ∧ (inFlight Sample.firstAtLimitZero = 1%nat
     ∧ (inFlight Sample.firstAtLimitZero ≤ Nat.max 1 0)%nat
     ∧ reachable (scanSingleUrl Sample.env) 1 ["a.example"; "b.example"]
         Sample.initial Sample.firstAtLimitZero).
Proof.
  split.
  - split; [vm_compute; reflexivity|].
    apply (runner_never_exceeds_limit (scanSingleUrl Sample.env)
             DEFAULT_CONCURRENCY (normalizedUrls Sample.eightUrls)
             Sample.initial).
    apply ScheduleFacts.scheduled_reachable.
  - split; [vm_compute; reflexivity|].
    destruct (runner_never_exceeds_limit (scanSingleUrl Sample.env) 0
                ["a.example"; "b.example"] Sample.initial
                Sample.firstAtLimitZero) as [Hbound Hsame].
    + apply ScheduleFacts.scheduled_reachable.
    + split; [exact Hbound|]. apply Hsame.
      apply ScheduleFacts.scheduled_reachable.
Defined.



(** X3. When [fn] never throws, a call is never rejected, and from every
    state it can reach it can go on to return. *)
Theorem runner_can_always_return {V} (fn : string → Task V) limit items w s :
  (∀ item, NeverThrows (fn item)) →
  reachable fn limit items w s →
  (∀ e, loop s ≠ Rejected e)
  ∧ ∃ s' res, rtc (step fn limit) s s' ∧ loop s' = Returned res.
Proof.
  intros Hfn Hreach.
  pose proof (RunnerFacts.reachable_calm fn limit Hfn items w s Hreach) as Hcalm.
  split; [exact (proj2 Hcalm)|].
  destruct (RunnerMore.can_return_within fn limit (Nat.max 1 limit) s Hfn Hcalm)
    as (s' & Hrun & res & Hl).
  - now apply (RunnerMore.reachable_bounded_within fn limit items w).
  - eauto.
Qed.

Lemma runner_can_always_return_witness :
  ∃ s' res, rtc (step (scanSingleUrl Sample.env) DEFAULT_CONCURRENCY)
              Sample.oneInFlight s'
            ∧ loop s' = Returned res.
Proof.
  apply (runner_can_always_return (scanSingleUrl Sample.env) DEFAULT_CONCURRENCY
           (normalizedUrls [" MDN.dev "]) Sample.initial Sample.oneInFlight).
  - apply EndpointFacts.scanSingleUrl_NeverThrows.
  - apply oneInFlight_reachable.
Defined.

(** X4. Once an operation has thrown, the call can no longer return:
    whatever happens next [results] is not handed back, and the call can
    be rejected. *)
Theorem thrown_operation_fails_the_call {V} (fn : string → Task V)
    limit items w s p k e :
  reachable fn limit items w s →
  executing s !! p = Some (k, Settled (inl e)) →
  (∀ s' res, rtc (step fn limit) s s' → loop s' ≠ Returned res)
  ∧ ∃ s' e', rtc (step fn limit) s s' ∧ loop s' = Rejected e'.
Proof.
  intros Hreach Hp. split.
  - intros s' res Hrun Hl.
    pose proof (RunnerMore.thrown_stays_on fn limit items w s s' p k e
                  Hreach Hrun Hp) as Hp'.
    assert (Hreach' : reachable fn limit items w s')
      by (unfold reachable in *; etrans; eauto).
    apply RunnerFacts.reachable_consistent in Hreach'.
    destruct (returned_results _ _ _ Hreach' res Hl) as [_ Hempty].
    rewrite Hempty, lookup_empty in Hp'. discriminate.
  - eapply RunnerMore.can_reject; eauto.
Qed.

Lemma thrown_operation_fails_the_call_witness :
  ∃ s' e',
    rtc (step (scanSingleUrlTry Sample.env) DEFAULT_CONCURRENCY)
      {| world := Sample.initial;
         executing := <[0%nat := ("nohost", scanSingleUrlTry Sample.env "nohost")]> ∅;
         results := emptyObject; created := 1; calls := ["nohost"];
         loop := Iterating [] |} s'
    ∧ loop s' = Rejected e'.
Proof.
  eapply (thrown_operation_fails_the_call (scanSingleUrlTry Sample.env)
            DEFAULT_CONCURRENCY ["nohost"] Sample.initial _ 0%nat "nohost").
  - apply rtc_once.
    exact (step_iterate (scanSingleUrlTry Sample.env) DEFAULT_CONCURRENCY
             Sample.initial ∅ emptyObject 0 [] "nohost" []).
  - simpl. rewrite lookup_insert_eq. reflexivity.
Defined.

(** X5. [fn] is called on the items in their order, once for each
    position: the calls made so far are a prefix of the items, one promise
    was created per call, and when the call returns every item has been
    called. *)
Theorem runner_calls_in_order {V} (fn : string → Task V) limit items w s :
  reachable fn limit items w s →
  reverse (calls s) `prefix_of` items
  ∧ created s = length (calls s)
  ∧ (∀ res, loop s = Returned res → reverse (calls s) = items).
Proof.
  intros Hreach. split; [|split].
  - now apply (RunnerMore.calls_prefix fn limit items w).
  - apply RunnerFacts.reachable_consistent in Hreach. apply Hreach.
  - intros res. now apply (RunnerFacts.returned_calls fn limit items w).
Qed.

Lemma runner_calls_in_order_witness :
  (reverse (calls Sample.sixthStarted)
     `prefix_of` normalizedUrls Sample.eightUrls
   ∧ reverse (calls Sample.sixthStarted)
     = ["a.example"; "b.example"; "c.example"; "d.example"; "e.example";
        "f.example"]
   ∧ created Sample.sixthStarted = length (calls Sample.sixthStarted))
  ∧ (loop Sample.bothPersisted = Returned (results Sample.bothPersisted)
     ∧ reverse (calls Sample.bothPersisted) = ["mdn.dev"; "https://mdn.dev"]).
Proof.
  split.
  - destruct (runner_calls_in_order (scanSingleUrl Sample.env) DEFAULT_CONCURRENCY
                (normalizedUrls Sample.eightUrls) Sample.initial
                Sample.sixthStarted) as (Hprefix & Hcreated & _).
    + apply ScheduleFacts.scheduled_reachable.
    + split; [exact Hprefix|]. split; [vm_compute; reflexivity|exact Hcreated].
  - assert (Hl : loop Sample.bothPersisted = Returned (results Sample.bothPersisted))
      by (vm_compute; reflexivity).
    split; [exact Hl|].
    destruct (runner_calls_in_order (scanSingleUrl Sample.env) DEFAULT_CONCURRENCY
                (normalizedUrls Sample.sameSiteUrls) Sample.initial
                Sample.bothPersisted) as (_ & _ & Hall).
    + apply ScheduleFacts.scheduled_reachable.
    + exact (Hall _ Hl).
Defined.

(** X6. What a call returns: nothing is in flight any more, the own keys
    of the result are the items, [__proto__] apart, and the value under a
    key is what a call of [fn] on that key came to. *)
Theorem runner_results_keyed_by_item {V} (fn : string → Task V)
    limit items w s res :
  reachable fn limit items w s → loop s = Returned res →
  inFlight s = 0%nat
  ∧ dom (own res) = list_to_set items ∖ {["__proto__"]}
  ∧ ∀ k v, own res !! k = Some v → CanSettle (fn k) (inr v).
Proof.
  intros Hreach Hl. split; [|split].
  - pose proof (RunnerFacts.reachable_consistent _ _ _ _ _ Hreach) as Hc.
    destruct (returned_results _ _ _ Hc res Hl) as [_ Hempty].
    unfold inFlight. rewrite Hempty. apply map_size_empty.
  - apply set_eq. intros k.
    rewrite elem_of_dom, elem_of_difference, elem_of_list_to_set,
      not_elem_of_singleton.
    split.
    + intros [v Hv].
      destruct (RunnerFacts.returned_own fn limit items w s res k v Hreach Hl Hv)
        as (Hin & Hne & _). auto.
    + intros [Hin Hne].
      now apply (RunnerFacts.returned_defined fn limit items w s res k).
  - intros k v Hv.
    now destruct (RunnerFacts.returned_own fn limit items w s res k v Hreach Hl Hv)
      as (_ & _ & Hs).
Qed.

Lemma runner_results_keyed_by_item_witness :
  ∃ s res,
    reachable (scanSingleUrl Sample.env) DEFAULT_CONCURRENCY ["mdn.dev"; "__proto__"]
      Sample.initial s
    ∧ loop s = Returned res
    ∧ dom (own res) = list_to_set ["mdn.dev"; "__proto__"] ∖ {["__proto__"]}.
Proof.
  destruct (RunnerFacts.can_return (scanSingleUrl Sample.env) DEFAULT_CONCURRENCY
              (EndpointFacts.scanSingleUrl_NeverThrows Sample.env)
              (start ["mdn.dev"; "__proto__"] Sample.initial))
    as (s & Hrun & res & Hl).
  - apply RunnerFacts.calm_start.
  - apply RunnerFacts.bounded_start. unfold DEFAULT_CONCURRENCY. lia.
  - exists s, res. split; [exact Hrun|split; [exact Hl|]].
    now destruct (runner_results_keyed_by_item (scanSingleUrl Sample.env)
                    DEFAULT_CONCURRENCY _ Sample.initial s res Hrun Hl)
      as (_ & Hdom & _).
Defined.

(** X7. Without items the runner calls nothing, leaves the world as it
    is, is never rejected and returns the empty object, whatever the
    limit. *)
Theorem runner_without_items {V} (fn : string → Task V) limit w :
  (∀ s, reachable fn limit [] w s →
        world s = w ∧ calls s = [] ∧ inFlight s = 0%nat
        ∧ (∀ e, loop s ≠ Rejected e)
        ∧ ∀ res, loop s = Returned res → res = emptyObject)
  ∧ ∃ s, reachable fn limit [] w s ∧ loop s = Returned emptyObject.
Proof.
  split.
  - intros s (Hw & Hex & Hres & Hcs & Hl)%RunnerMore.nothing_to_do.
    split; [exact Hw|]. split; [exact Hcs|].
    split; [unfold inFlight; rewrite Hex; apply map_size_empty|].
    split.
    + intros e He. rewrite He in Hl. destruct Hl as [Hl|[[? Hl]|Hl]]; discriminate.
    + intros res Hr. rewrite Hr in Hl.
      destruct Hl as [Hl|[[? Hl]|Hl]]; try discriminate. now injection Hl.
  - eexists. split.
    + eapply rtc_l; [apply step_exit|]. apply rtc_once.
      apply step_all_resume. intros p _. apply lookup_empty.
    + reflexivity.
Qed.

(** ** The keys of a batch *)

Module DedupMore.
Import JsFacts BatchFacts.

Lemma filterUnseen_app seen a b :
  filterUnseen seen (a ++ b)
  = filterUnseen seen a
    ++ filterUnseen (seen ∪ list_to_set (normalize <$> a)) b.
Proof.
  revert seen. induction a as [|url rest IH]; intros seen; simpl.
  - f_equal. apply set_eq. intros x.
    rewrite elem_of_union, elem_of_empty. tauto.
  - destruct (decide (normalize url ∈ seen)) as [Hin|Hout].
    + rewrite IH. f_equal. f_equal. apply set_eq. intros x.
      rewrite !elem_of_union, elem_of_singleton. split; [tauto|].
      intros [?|[->|?]]; auto.
    + simpl. rewrite IH. f_equal. f_equal. f_equal. apply set_eq. intros x.
      rewrite !elem_of_union, elem_of_singleton. tauto.
Qed.

Lemma normalizedUrls_snoc urls u :
  normalizedUrls (urls ++ [u])
  = normalizedUrls urls
    ++ (if decide (normalize u ∈ normalizedUrls urls) then [] else [normalize u]).
Proof.
  unfold normalizedUrls, uniqueUrls.
  rewrite filterUnseen_app, fmap_app. f_equal. simpl.
  destruct (decide (normalize u ∈ ∅ ∪ list_to_set (normalize <$> urls)))
    as [Hin|Hout];
    destruct (decide (normalize u ∈ normalize <$> filterUnseen ∅ urls))
    as [Hin'|Hout']; try reflexivity; exfalso.
  - apply Hout'. apply elem_of_filterUnseen. split; [|apply not_elem_of_empty].
    apply elem_of_union in Hin as [Hin|Hin]; [now apply elem_of_empty in Hin|].
    now apply elem_of_list_to_set in Hin.
  - apply Hout. apply elem_of_union. right. apply elem_of_list_to_set.
    now apply elem_of_filterUnseen in Hin' as [? _].
Qed.

Lemma normalizedUrls_clean urls :
  NoDup urls → Forall (λ u, normalize u = u) urls → normalizedUrls urls = urls.
Proof.
  induction urls as [|u urls IH] using rev_ind; [reflexivity|].
  intros Hnd Hall. apply NoDup_app in Hnd as (Hnd & Hdisj & _).
  apply Forall_app in Hall as [Hall Hu]. rewrite Forall_singleton in Hu.
  rewrite normalizedUrls_snoc, (IH Hnd Hall), Hu.
  destruct (decide (u ∈ urls)) as [Hin|]; [|reflexivity].
  exfalso. apply (Hdisj u Hin). apply list_elem_of_here.
Qed.

Lemma normalizedUrls_idem urls :
  normalizedUrls (normalizedUrls urls) = normalizedUrls urls.
Proof.
  apply normalizedUrls_clean; [apply NoDup_normalizedUrls|].
  apply Forall_forall. intros k (url & _ & ->)%elem_of_normalizedUrls.
  apply normalize_idem.
Qed.

Lemma filterUnseen_sublist seen urls : filterUnseen seen urls `sublist_of` urls.
Proof.
  revert seen. induction urls as [|u urls IH]; intros seen; simpl; [constructor|].
  destruct (decide (normalize u ∈ seen)); [apply sublist_cons|apply sublist_skip];
    apply IH.
Qed.

Lemma normalizedUrls_sublist urls :
  normalizedUrls urls `sublist_of` (normalize <$> urls).
Proof. apply fmap_sublist, filterUnseen_sublist. Qed.

Lemma normalizedUrls_length urls :
  (length (normalizedUrls urls) ≤ length urls)%nat.
Proof.
  rewrite <- (length_fmap normalize urls).
  apply sublist_length, normalizedUrls_sublist.
Qed.

Lemma normalizedUrls_nonempty urls :
  urls ≠ [] → (1 ≤ length (normalizedUrls urls))%nat.
Proof.
  destruct urls as [|u urls]; [congruence|]. intros _.
  unfold normalizedUrls, uniqueUrls. simpl.
  destruct (decide (normalize u ∈ ∅)) as [Hin|]; [now apply elem_of_empty in Hin|].
  simpl. lia.
Qed.

End DedupMore.

(** X8. The keys of a batch are the normalised urls in the order of
    their first occurrence: read from left to right, a url adds its key at
    the end when the key is new and adds nothing otherwise; the keys are a
    subsequence of the normalised urls; and removing duplicates from the
    keys changes nothing. *)
Theorem dedup_keeps_first_occurrences :
  normalizedUrls [] = []
  ∧ (∀ urls u,
       normalizedUrls (urls ++ [u])
       = normalizedUrls urls
         ++ (if decide (normalize u ∈ normalizedUrls urls) then []
             else [normalize u]))
  ∧ (∀ urls, normalizedUrls urls `sublist_of` (normalize <$> urls))
  ∧ (∀ urls, normalizedUrls (normalizedUrls urls) = normalizedUrls urls).
Proof.
  split; [reflexivity|]. split; [apply DedupMore.normalizedUrls_snoc|].
  split; [apply DedupMore.normalizedUrls_sublist|apply DedupMore.normalizedUrls_idem].
Qed.

(** *** What the normalisation ignores *)

Module MarginFacts.
Import Js SiteModel JsFacts SiteFacts.

Lemma trimStart_margin pre s :
  forallChar isWhiteSpace pre = true → trimStart (pre +:+ s) = trimStart s.
Proof.
  induction pre as [|c pre IH]; [reflexivity|].
  cbn [forallChar]. intros [Hc Hpre]%andb_prop.
  rewrite append_cons. cbn [trimStart]. rewrite Hc. auto.
Qed.

Lemma trimEnd_blank post :
  forallChar isWhiteSpace post = true → trimEnd post = EmptyString.
Proof.
  induction post as [|c post IH]; [reflexivity|].
  cbn [forallChar]. intros [Hc Hpost]%andb_prop.
  now rewrite trimEnd_cons, (IH Hpost), Hc.
Qed.

Lemma trimEnd_margin s post :
  forallChar isWhiteSpace post = true → trimEnd (s +:+ post) = trimEnd s.
Proof.
  intros Hpost. induction s as [|c s IH].
  - rewrite append_nil. now apply trimEnd_blank.
  - rewrite append_cons, !trimEnd_cons, IH. reflexivity.
Qed.

Lemma trimStart_app a b :
  trimStart (a +:+ b)
  = match trimStart a with
    | EmptyString => trimStart b
    | t => t +:+ b
    end.
Proof.
  induction a as [|c a IH]; [reflexivity|].
  rewrite append_cons. cbn [trimStart].
  destruct (isWhiteSpace c); [exact IH|reflexivity].
Qed.

Lemma trim_margins pre s post :
  forallChar isWhiteSpace pre = true → forallChar isWhiteSpace post = true →
  trim (pre +:+ s +:+ post) = trim s.
Proof.
  intros Hpre Hpost. unfold trim.
  rewrite (trimStart_margin pre) by exact Hpre.
  rewrite trimStart_app. destruct (trimStart s) as [|c t] eqn:E.
  - rewrite <- (append_empty_r post), (trimStart_margin post) by exact Hpost.
    reflexivity.
  - now apply trimEnd_margin.
Qed.

End MarginFacts.

(** X9. The normalisation ignores the white space around a url and the
    case of its letters, and two urls share a key exactly when their
    normal forms are equal. *)
Theorem normalize_ignores_case_and_margins :
  (∀ pre x post,
      SiteModel.forallChar Js.isWhiteSpace pre = true →
      SiteModel.forallChar Js.isWhiteSpace post = true →
      normalize (pre +:+ x +:+ post) = normalize x)
  ∧ (∀ x y, Js.toLowerCase x = Js.toLowerCase y → normalize x = normalize y)
  ∧ (∀ x y, normalizedUrls [x; y]
            = if decide (normalize x = normalize y) then [normalize x]
              else [normalize x; normalize y]).
Proof.
  split; [|split].
  - intros pre x post Hpre Hpost. unfold normalize.
    now rewrite MarginFacts.trim_margins.
  - intros x y H. unfold normalize.
    now rewrite <- !JsFacts.trim_toLowerCase, H.
  - intros x y. unfold normalizedUrls, uniqueUrls. simpl.
    destruct (decide (normalize x ∈ ∅)) as [Hin|_];
      [now apply elem_of_empty in Hin|].
    destruct (decide (normalize y ∈ {[normalize x]} ∪ ∅)) as [Hin|Hout];
      destruct (decide (normalize x = normalize y)) as [Heq|Hne];
      try reflexivity; exfalso.
    + apply elem_of_union in Hin as [Hin|Hin]; [|now apply elem_of_empty in Hin].
      apply elem_of_singleton in Hin. congruence.
    + apply Hout, elem_of_union. left. now apply elem_of_singleton.
Qed.

(** ** The size of a batch and its failed entries *)

Module BatchMore.
Import SettleFacts EndpointFacts RunnerFacts BatchFacts.

Lemma batch_items_bounds body urls :
  validateBody body = inr urls →
  (1 ≤ length (normalizedUrls urls) ≤ MAX_BATCH_SIZE)%nat.
Proof.
  intros (fields & v & items & _ & _ & _ & _ & Hlen)%validateBody_inr. split.
  - apply DedupMore.normalizedUrls_nonempty. intros ->. simpl in Hlen. lia.
  - pose proof (DedupMore.normalizedUrls_length urls). lia.
Qed.

Lemma reply_size env body urls w res w' :
  validateBody body = inr urls →
  scanBatchFullDetails env body w (Ok200 res) w' →
  (size res ≤ length (normalizedUrls urls))%nat.
Proof.
  intros Hv Hbatch.
  destruct (batch_reply_entries env body urls w res w' Hv Hbatch) as (Hown & _).
  rewrite <- size_dom, <- (size_list_to_set (C:=gset string))
    by apply NoDup_normalizedUrls.
  apply subseteq_size. intros k [v Hk]%elem_of_dom.
  apply elem_of_list_to_set. now destruct (Hown k v Hk).
Qed.

Lemma orElse_nonempty a b : b ≠ EmptyString → Js.orElse a b ≠ EmptyString.
Proof.
  intros Hb. unfold Js.orElse. destruct a as [s|]; [|exact Hb].
  now destruct (String.eqb_spec s EmptyString).
Qed.

Lemma orElse_given s b : s ≠ EmptyString → Js.orElse (Some s) b = s.
Proof. intros Hs. simpl. now destruct (String.eqb_spec s EmptyString). Qed.

Lemma try_returns_success env url v :
  CanSettle (scanSingleUrlTry env url) (inr v) → ∃ r, v = EntryOk r.
Proof.
  intros (site & _ & _ & H)%settle_scanSingleUrlTry.
  apply settle_scanWithFullDetails in H as (_ & _ & _ & r & -> & _). eauto.
Qed.

End BatchMore.

(** X10. A batch the schema admits has between 1 and [MAX_BATCH_SIZE]
    (10) keys; in no state of the runner have more than 10 scans been
    started, and no reply has more than 10 entries. *)
Theorem batch_starts_at_most_ten_scans env body urls w :
  validateBody body = inr urls →
  (1 ≤ length (normalizedUrls urls) ≤ MAX_BATCH_SIZE)%nat
  ∧ (∀ s, reachable (scanSingleUrl env) DEFAULT_CONCURRENCY
            (normalizedUrls urls) w s →
          (length (calls s) ≤ MAX_BATCH_SIZE)%nat)
  ∧ (∀ res w', scanBatchFullDetails env body w (Ok200 res) w' →
               (size res ≤ MAX_BATCH_SIZE)%nat).
Proof.
  intros Hv. pose proof (BatchMore.batch_items_bounds body urls Hv) as Hb.
  split; [exact Hb|split].
  - intros s Hreach.
    pose proof (RunnerMore.calls_prefix _ _ _ _ _ Hreach) as Hp.
    apply prefix_length in Hp. rewrite length_reverse in Hp. lia.
  - intros res w' Hbatch.
    pose proof (BatchMore.reply_size env body urls w res w' Hv Hbatch). lia.
Qed.

Lemma batch_starts_at_most_ten_scans_witness :
  (1 ≤ length (normalizedUrls [" MDN.dev "; "mdn.dev"; "Example.com"])
     ≤ MAX_BATCH_SIZE)%nat.
Proof.
  apply (batch_starts_at_most_ten_scans Sample.env
           (urlsBody [" MDN.dev "; "mdn.dev"; "Example.com"]) _ Sample.initial).
  reflexivity.
Defined.

(** X11. A failed entry of a reply is never blank: [error], [errorType]
    and [message] are non-empty strings, the name, the constructor name
    and the message of what the scan of the key threw, or the defaults
    [error-unknown], [Error] and [Unknown error occurred] where the thrown
    value has none. *)
Theorem failed_entry_is_described env body w res w' key err ty msg :
  scanBatchFullDetails env body w (Ok200 res) w' →
  res !! key = Some (EntryFailed err ty msg) →
  err ≠ EmptyString ∧ ty ≠ EmptyString ∧ msg ≠ EmptyString
  ∧ ∃ e, CanSettle (scanSingleUrlTry env key) (inl e)
         ∧ err = Js.orElse (err_name e) "error-unknown"
         ∧ ty = Js.orElse (err_ctor e) "Error"
         ∧ msg = Js.orElse (err_message e) "Unknown error occurred".
Proof.
  intros Hbatch Hkey.
  assert (Hsettle : CanSettle (scanSingleUrl env key) (inr (EntryFailed err ty msg))).
  { inversion Hbatch as [|urls s res' Hv Hreach Hl|]; subst.
    eapply RunnerFacts.returned_own; eauto. }
  apply EndpointFacts.settle_scanSingleUrl in Hsettle
    as [(v & [= <-] & Hs)|(e & [= -> -> ->] & Hs)].
  - apply BatchMore.try_returns_success in Hs as [r Hr]. discriminate.
  - repeat split; try (apply BatchMore.orElse_nonempty; discriminate).
    exists e. auto.
Qed.

Lemma failed_entry_is_described_witness :
  ∃ res w',
    scanBatchFullDetails Sample.env (urlsBody ["NoHost "]) Sample.initial
      (Ok200 res) w'
    ∧ res !! "nohost"
      = Some (EntryFailed "invalid-hostname" "InvalidHostNameError" "nohost is invalid").
Proof.
  assert (Hv : validateBody (urlsBody ["NoHost "]) = inr ["NoHost "]) by reflexivity.
  destruct (BatchFacts.batch_answers Sample.env _ _ Sample.initial Hv)
    as (res & w' & Hbatch).
  exists res, w'. split; [exact Hbatch|].
  assert (Hkey : res !! "nohost"
                 = Some (failureEntry (SiteModel.invalidHostname "nohost"))).
  { apply (EntryFacts.entry_fails Sample.env _ _ _ _ _ _ _ Hv Hbatch).
    - vm_compute. apply list_elem_of_here.
    - discriminate.
    - intros r. now apply EntryFacts.invalid_host_throws. }
  destruct (failed_entry_is_described Sample.env _ _ _ _ "nohost" _ _ _ Hbatch Hkey)
    as (_ & _ & _ & _).
  exact Hkey.
Defined.

(** ** The two endpoints side by side *)

Module AgreeFacts.
Import SiteModel TaskFacts SettleFacts EndpointFacts RunFacts.

Lemma run_tryCatch {A} (t : Task A) handler w :
  run (tryCatch t handler) w =
  match run t w with
  | (inr a, w') => (inr a, w')
  | (inl e, w') => run (handler e) w'
  end.
Proof.
  revert w. induction t as [[e|a]|next IH after]; intros w; simpl; auto.
Qed.

Lemma run_scanSingleUrlTry env url w :
  run (scanSingleUrlTry env url) w =
  match fromSiteString (normalize url) with
  | inl e => (inl e, w)
  | inr site =>
      if resolves env (hostname site)
      then run (scanWithFullDetails env site (cooldown env)) w
      else (inl (invalidHostnameLookup site), w)
  end.
Proof.
  unfold scanSingleUrlTry. cbv zeta. rewrite run_mbind. unfold call. cbn [run].
  destruct (fromSiteString (normalize url)) as [e|site]; [reflexivity|].
  rewrite run_mbind. unfold checkSitename. rewrite run_await.
  now destruct (resolves env (hostname site)).
Qed.

Lemma run_scanFullDetails_cases env host w :
  run (scanFullDetails env host) w =
  match fromSiteString (normalize host) with
  | inl e => (inl e, w)
  | inr site =>
      if resolves env (hostname site)
      then run (scanOrReturnRecentWithFullDetails env site (cooldown env)) w
      else (inl (invalidHostnameLookup site), w)
  end.
Proof.
  unfold scanFullDetails. cbv zeta. rewrite run_mbind. unfold call. cbn [run].
  destruct (fromSiteString (normalize host)) as [e|site]; [reflexivity|].
  rewrite run_mbind. unfold checkSitename. rewrite run_await.
  now destruct (resolves env (hostname site)).
Qed.

End AgreeFacts.

(** X12. Run alone in the same world, [scanSingleUrl] and the handler of
    [/scanFullDetails] do the same: the entry is the response of the
    handler with [success: true], or the report of what the handler
    throws, and the world is left the same. *)
Theorem batch_entry_is_the_single_response env url w :
  run (scanSingleUrl env url) w =
  (match (run (scanFullDetails env url) w).1 with
   | inr r => inr (EntryOk r)
   | inl e => inr (failureEntry e)
   end,
   (run (scanFullDetails env url) w).2).
Proof.
  unfold scanSingleUrl.
  rewrite AgreeFacts.run_tryCatch, AgreeFacts.run_scanSingleUrlTry,
    AgreeFacts.run_scanFullDetails_cases.
  destruct (SiteModel.fromSiteString (normalize url)) as [e|site]; [reflexivity|].
  destruct (resolves env (hostname site)); [|reflexivity].
  rewrite RunFacts.run_scanWithFullDetails.
  now destruct (run (scanOrReturnRecentWithFullDetails env site (cooldown env)) w)
    as [[e|r] w'].
Qed.

(** X13. A host that does not parse, or does not resolve, is not scanned:
    both endpoints leave the world as it is, [/scanFullDetails] throwing
    and the batch function reporting what was thrown. *)
Theorem rejected_host_is_not_scanned env host w :
  (∀ e, SiteModel.fromSiteString (normalize host) = inl e →
        run (scanFullDetails env host) w = (inl e, w)
        ∧ run (scanSingleUrl env host) w = (inr (failureEntry e), w))
  ∧ (∀ site, SiteModel.fromSiteString (normalize host) = inr site →
             resolves env (hostname site) = false →
             run (scanFullDetails env host) w
             = (inl (invalidHostnameLookup site), w)
             ∧ run (scanSingleUrl env host) w
               = (inr (failureEntry (invalidHostnameLookup site)), w)).
Proof.
  split.
  - intros e He. unfold scanSingleUrl.
    rewrite AgreeFacts.run_tryCatch, AgreeFacts.run_scanSingleUrlTry,
      AgreeFacts.run_scanFullDetails_cases, He.
    auto.
  - intros site Hsite Hres. unfold scanSingleUrl.
    rewrite AgreeFacts.run_tryCatch, AgreeFacts.run_scanSingleUrlTry,
      AgreeFacts.run_scanFullDetails_cases, Hsite, Hres.
    auto.
Qed.

(** X14. When no recent row is found and the scan for the summary
    succeeds but the scan for the full details throws, the request fails
    after two retrievals and the summary row stays persisted: requests
    within the cooldown find it. *)
Theorem failed_details_scan_keeps_the_row env site age w first e :
  0 < age →
  recentRow (SiteModel.asSiteKey site) age w = None →
  scanner env site (length (retrievals w)) = inr first →
  scanner env site (S (length (retrievals w))) = inl e →
  let key := SiteModel.asSiteKey site in
  let row := summaryRow w key (scan_report first) in
  let out := run (scanOrReturnRecentWithFullDetails env site age) w in
  out.1 = inl e
  ∧ db out.2 = row :: db w
  ∧ retrievals out.2 = key :: key :: retrievals w
  ∧ ∀ t2, clock w ≤ t2 < clock w + age →
          recentRow key age (later t2 out.2) = Some row.
Proof.
  intros Hage Hnone Hfirst Hfull key row out.
  assert (Hout : out = (inl e, {| db := row :: db w; clock := clock w;
                                  retrievals := key :: key :: retrievals w |})).
  { unfold out, scanOrReturnRecentWithFullDetails.
    rewrite TaskFacts.run_mbind, TaskFacts.run_select, Hnone,
      TaskFacts.run_mbind, TaskFacts.run_executeScan, Hfirst.
    unfold insertScan. rewrite TaskFacts.run_mbind, TaskFacts.run_scan.
    cbn [retrievals logRetrieval length]. now rewrite Hfull. }
  rewrite Hout. simpl. repeat split.
  intros t2 Ht2. unfold recentRow, later, row. cbn [db clock].
  rewrite (RunFacts.latestRow_inserted key age w _ Hage Hnone).
  cbn [row_start_time summaryRow].
  now destruct (Z.ltb_spec (t2 - clock w) age); [|lia].
Qed.

Lemma failed_details_scan_keeps_the_row_witness :
  let out := run (scanOrReturnRecentWithFullDetails Trial.env Sample.mdn 60)
               Sample.initial in
  out.1 = inl Trial.timedOut
  ∧ length (db out.2) = 1%nat
  ∧ is_Some (recentRow "mdn.dev" 60 (later 30 out.2)).
Proof.
  destruct (failed_details_scan_keeps_the_row Trial.env Sample.mdn 60
              Sample.initial
              {| scan_report := Sample.report "A+" 105;
                 scan_tests := {[ "cookies" := Sample.cookies ]} |}
              Trial.timedOut)
    as (Hout & Hdb & _ & Hrecent);
    [lia|reflexivity|reflexivity|reflexivity|].
  split; [exact Hout|]. split; [now rewrite Hdb|].
  eexists. apply (Hrecent 30). simpl. lia.
Defined.

(** ** The work of a request *)

(** X15. The work of a request is bounded: [/scanFullDetails] persists at
    most one row and makes at most two retrievals; a batch, in whatever
    order its scans are resumed, persists at most one row and makes at most
    two retrievals for each scan started, at most 10 rows and 20
    retrievals in all. *)
Theorem scan_work_is_bounded env :
  (∀ host w,
      let w' := (run (scanFullDetails env host) w).2 in
      (rowCount w' ≤ rowCount w + 1)%nat
      ∧ (retrievalCount w' ≤ retrievalCount w + 2)%nat)
  ∧ (∀ urls w s,
      reachable (scanSingleUrl env) DEFAULT_CONCURRENCY (normalizedUrls urls) w s →
      (rowCount (world s) ≤ rowCount w + length (calls s))%nat
      ∧ (retrievalCount (world s) ≤ retrievalCount w + 2 * length (calls s))%nat)
  ∧ (∀ body urls w reply w',
      validateBody body = inr urls →
      scanBatchFullDetails env body w reply w' →
      (rowCount w' ≤ rowCount w + length (normalizedUrls urls))%nat
      ∧ (retrievalCount w'
         ≤ retrievalCount w + 2 * length (normalizedUrls urls))%nat
      ∧ (length (normalizedUrls urls) ≤ MAX_BATCH_SIZE)%nat).
Proof.
  assert (Hstate : ∀ urls w s,
      reachable (scanSingleUrl env) DEFAULT_CONCURRENCY (normalizedUrls urls) w s →
      (rowCount (world s) ≤ rowCount w + length (calls s))%nat
      ∧ (retrievalCount (world s) ≤ retrievalCount w + 2 * length (calls s))%nat).
  { intros urls w s Hreach. split.
    - pose proof (BudgetFacts.runner_within (scanSingleUrl env) DEFAULT_CONCURRENCY
                    rowCount 1 (BudgetFacts.scanSingleUrl_rows env) _ w s Hreach).
      lia.
    - apply (BudgetFacts.runner_within (scanSingleUrl env) DEFAULT_CONCURRENCY
               retrievalCount 2 (BudgetFacts.scanSingleUrl_retrievals env)
               _ w s Hreach). }
  split; [|split; [exact Hstate|]].
  - intros host w. cbv zeta. split.
    + apply BudgetFacts.Within_run, BudgetFacts.scanFullDetails_rows.
    + apply BudgetFacts.Within_run, BudgetFacts.scanFullDetails_retrievals.
  - intros body urls w reply w' Hv Hbatch.
    pose proof (BatchMore.batch_items_bounds body urls Hv) as [_ Hmax].
    assert (Hcalls : ∀ s, reachable (scanSingleUrl env) DEFAULT_CONCURRENCY
                            (normalizedUrls urls) w s →
                          (length (calls s) ≤ length (normalizedUrls urls))%nat).
    { intros s Hreach.
      pose proof (RunnerMore.calls_prefix _ _ _ _ _ Hreach) as Hp.
      apply prefix_length in Hp. now rewrite length_reverse in Hp. }
    destruct Hbatch as [v Hv'|urls' s res Hv' Hreach Hl|urls' s e Hv' Hreach Hl].
    + lia.
    + assert (urls' = urls) as -> by congruence.
      destruct (Hstate urls w s Hreach). specialize (Hcalls s Hreach). lia.
    + assert (urls' = urls) as -> by congruence.
      destruct (Hstate urls w s Hreach). specialize (Hcalls s Hreach). lia.
Qed.

(** ** The details URL and the tests of a response *)

Module EncodeFacts.
Import Js SiteModel JsFacts SiteFacts.

(** The characters of an encoded component: the unreserved ones and the
    percent sign of an escape. *)
Lemma encodeChar_safe c :
  forallChar (λ x, isUnreserved x || Ascii.eqb x "%") (encodeChar c) = true.
Proof. by_cases_on_char c. Qed.

Lemma encodeURIComponent_safe s :
  forallChar (λ x, isUnreserved x || Ascii.eqb x "%") (encodeURIComponent s) = true.
Proof.
  induction s as [|c s IH]; [reflexivity|].
  cbn [encodeURIComponent]. now rewrite forallChar_app, encodeChar_safe, IH.
Qed.

(** The front of an encoded string tells the character it encodes. *)
Lemma encodeChar_decodable :
  ∃ decode : string → option (ascii * string),
    ∀ c rest, decode (encodeChar c +:+ rest) = Some (c, rest).
Proof.
  pose (hex := λ x : ascii,
          let n := code x in if (n <? 58)%N then (n - 48)%N else (n - 55)%N).
  exists (λ s,
    match s with
    | String "%" (String a (String b rest)) =>
        let n := (16 * hex a + hex b)%N in
        if (n <? 128)%N then Some (ascii_of_N n, rest)
        else match rest with
             | String "%" (String a' (String b' rest')) =>
                 Some (ascii_of_N ((n - 192) * 64 + (16 * hex a' + hex b' - 128)),
                       rest')
             | _ => None
             end
    | String c rest => Some (c, rest)
    | EmptyString => None
    end).
  intros c rest. destruct c as [[] [] [] [] [] [] [] []]; vm_compute; reflexivity.
Qed.

Lemma encodeChar_nonempty c rest : encodeChar c +:+ rest ≠ EmptyString.
Proof.
  unfold encodeChar, pct. destruct (isUnreserved c); [discriminate|].
  destruct (code c <? 128)%N; discriminate.
Qed.

Lemma encodeURIComponent_inj a b :
  encodeURIComponent a = encodeURIComponent b → a = b.
Proof.
  destruct encodeChar_decodable as [decode Hdecode].
  revert b. induction a as [|x a IH]; intros [|y b]; cbn [encodeURIComponent].
  - reflexivity.
  - intros H. symmetry in H. now apply encodeChar_nonempty in H.
  - intros H. now apply encodeChar_nonempty in H.
  - intros H. apply (f_equal decode) in H. rewrite !Hdecode in H.
    injection H as -> H. f_equal. now apply IH.
Qed.

Lemma append_cancel_l p a b : p +:+ a = p +:+ b → a = b.
Proof.
  induction p as [|c p IH]; [auto|].
  rewrite !append_cons. intros [= H]. auto.
Qed.

Lemma encodeURIComponent_unreserved s :
  existsChar
    (λ x, Ascii.eqb x "&" || Ascii.eqb x "=" || Ascii.eqb x "#"
          || Ascii.eqb x "?" || Ascii.eqb x "/" || Ascii.eqb x ":"
          || Ascii.eqb x " ")
    (encodeURIComponent s) = false.
Proof.
  eapply forallChar_excludes; [|apply encodeURIComponent_safe].
  intros c. by_cases_on_char c.
Qed.

Lemma detailsUrl_prefix env site :
  ∃ prefix, detailsUrl env site
            = prefix +:+ encodeURIComponent (asSiteKey site)
    ∧ ∀ site', detailsUrl env site'
               = prefix +:+ encodeURIComponent (asSiteKey site').
Proof.
  unfold detailsUrl. destruct (truthy (baseUrl env)).
  - exists (from_option id EmptyString (baseUrl env) +:+ "/analyze?host=").
    split; [|intros site']; now rewrite append_assoc.
  - eexists. split; [|intros site']; reflexivity.
Qed.

End EncodeFacts.

(** X16. A details URL is a base fixed by the configuration, the
    configured base URL or that of the MDN Observatory, then
    [/analyze?host=], then the [host] parameter; and the parameter is
    escaped: whatever the site, it holds unreserved characters and percent
    signs only, so none of [& = # ? / :] and no space. *)
Theorem details_url_query_is_escaped env :
  ∃ base,
    (∀ configured, baseUrl env = Some configured → configured ≠ EmptyString →
                   base = configured)
    ∧ (baseUrl env = None ∨ baseUrl env = Some EmptyString →
       base = "https://developer.mozilla.org/en-US/observatory")
    ∧ ∀ site, ∃ parameter,
        detailsUrl env site = base +:+ "/analyze?host=" +:+ parameter
        ∧ SiteModel.forallChar (λ x, Js.isUnreserved x || Ascii.eqb x "%")
            parameter = true
        ∧ SiteModel.existsChar
            (λ x, Ascii.eqb x "&" || Ascii.eqb x "=" || Ascii.eqb x "#"
                  || Ascii.eqb x "?" || Ascii.eqb x "/" || Ascii.eqb x ":"
                  || Ascii.eqb x " ")
            parameter = false.
Proof.
  exists (if Js.truthy (baseUrl env) then from_option id EmptyString (baseUrl env)
          else "https://developer.mozilla.org/en-US/observatory").
  split; [|split].
  - intros configured -> Hne. simpl.
    now destruct (String.eqb_spec configured EmptyString).
  - now intros [-> | ->].
  - intros site. exists (Js.encodeURIComponent (SiteModel.asSiteKey site)).
    split; [|split].
    + unfold detailsUrl. now destruct (Js.truthy (baseUrl env)).
    + apply EncodeFacts.encodeURIComponent_safe.
    + apply EncodeFacts.encodeURIComponent_unreserved.
Qed.

(** X17. Under one configuration two sites have the same details URL
    exactly when they have the same site key. *)
Theorem details_url_tells_the_site_key env site site' :
  detailsUrl env site = detailsUrl env site'
  ↔ SiteModel.asSiteKey site = SiteModel.asSiteKey site'.
Proof.
  destruct (EncodeFacts.detailsUrl_prefix env site) as (prefix & Hp & Hall).
  rewrite Hp, (Hall site'). split.
  - intros H%EncodeFacts.append_cancel_l.
    now apply EncodeFacts.encodeURIComponent_inj.
  - now intros ->.
Qed.

Module TestsFacts.
Import SettleFacts EndpointFacts.

Lemma withoutScoreDescription_fmap (tests : gmap string TestResult) :
  withoutScoreDescription tests = delete "scoreDescription" <$> tests.
Proof.
  apply map_eq. intros name.
  now rewrite lookup_withoutScoreDescription, lookup_fmap.
Qed.

Lemma withoutScoreDescription_dom (tests : gmap string TestResult) :
  dom (withoutScoreDescription tests) = dom tests.
Proof. rewrite withoutScoreDescription_fmap. apply dom_fmap_L. Qed.

Lemma withoutScoreDescription_idem (tests : gmap string TestResult) :
  withoutScoreDescription (withoutScoreDescription tests)
  = withoutScoreDescription tests.
Proof.
  rewrite !withoutScoreDescription_fmap, <- map_fmap_compose.
  apply map_fmap_ext. intros name test _. simpl.
  apply delete_id, lookup_delete_eq.
Qed.

End TestsFacts.

(** X18. Removing the score description drops no test and adds none, and
    doing it twice is doing it once; the tests of every response of the two
    endpoints have the names of the tests of the scan behind it. *)
Theorem no_test_is_dropped env :
  (∀ tests : gmap string TestResult,
      dom (withoutScoreDescription tests) = dom tests
      ∧ withoutScoreDescription (withoutScoreDescription tests)
        = withoutScoreDescription tests)
  ∧ (∀ host r,
      CanSettle (scanFullDetails env host) (inr r) →
      ∃ site n full,
        scanner env site n = inr full
        ∧ dom (fd_tests (resp_fullDetails r)) = dom (scan_tests full))
  ∧ (∀ body w res w' key r,
      scanBatchFullDetails env body w (Ok200 res) w' →
      res !! key = Some (EntryOk r) →
      ∃ site n full,
        scanner env site n = inr full
        ∧ dom (fd_tests (resp_fullDetails r)) = dom (scan_tests full)).
Proof.
  split; [|split].
  - intros tests. split;
      [apply TestsFacts.withoutScoreDescription_dom
      |apply TestsFacts.withoutScoreDescription_idem].
  - intros host r Hr.
    apply EndpointFacts.settle_response in Hr
      as (site & row & full & n & _ & _ & Hfull & _ & _ & Hfd).
    exists site, n, full. split; [exact Hfull|].
    rewrite Hfd. apply TestsFacts.withoutScoreDescription_dom.
  - intros body w res w' key r Hbatch Hkey.
    assert (Hsettle : CanSettle (scanSingleUrl env key) (inr (EntryOk r))).
    { inversion Hbatch as [|urls s res' Hv Hreach Hl|]; subst.
      eapply RunnerFacts.returned_own; eauto. }
    apply EndpointFacts.settle_entry_ok in Hsettle
      as (site & row & full & n & _ & _ & Hfull & _ & _ & Hfd).
    exists site, n, full. split; [exact Hfull|].
    rewrite Hfd. apply TestsFacts.withoutScoreDescription_dom.
Qed.

(** ** The client script *)

Module ScriptFacts.
Import Js SiteModel JsFacts SiteFacts Script.

(** *** Splitting at the last colon *)

Lemma splitLast_None sep s :
  existsChar (λ c, Ascii.eqb c sep) s = false → splitLast sep s = None.
Proof.
  induction s as [|c s IH]; [reflexivity|].
  cbn [existsChar splitLast]. intros [Hc Hs]%orb_false_elim.
  now rewrite (IH Hs), Hc.
Qed.

Lemma splitLast_app sep a b :
  existsChar (λ c, Ascii.eqb c sep) b = false →
  splitLast sep (a +:+ String sep b) = Some (a, b).
Proof.
  intros Hb. induction a as [|c a IH].
  - rewrite append_nil. cbn [splitLast].
    now rewrite (splitLast_None sep b Hb), Ascii.eqb_refl.
  - rewrite append_cons. cbn [splitLast]. now rewrite IH.
Qed.

Lemma splitLast_Some sep s a b :
  splitLast sep s = Some (a, b) →
  s = a +:+ String sep b ∧ existsChar (λ c, Ascii.eqb c sep) b = false.
Proof.
  revert a b. induction s as [|c s IH]; intros a b; [discriminate|].
  cbn [splitLast].
  destruct (splitLast sep s) as [[a' b']|] eqn:E.
  - intros [= <- <-]. destruct (IH a' b' eq_refl) as [-> Hb].
    now rewrite append_cons.
  - destruct (Ascii.eqb_spec c sep) as [->|]; [|discriminate].
    intros [= <- <-]. split; [reflexivity|].
    clear IH. induction s as [|d s IH]; [reflexivity|].
    cbn [splitLast] in E. cbn [existsChar].
    destruct (splitLast sep s) as [[? ?]|]; [discriminate|].
    destruct (Ascii.eqb d sep); [discriminate|]. now apply IH.
Qed.

Lemma splitLast_present sep s :
  existsChar (λ c, Ascii.eqb c sep) s = true → is_Some (splitLast sep s).
Proof.
  induction s as [|c s IH]; [discriminate|].
  cbn [existsChar splitLast]. intros H.
  destruct (splitLast sep s) as [[a b]|]; [eauto|].
  destruct (Ascii.eqb c sep); [eauto|]. simpl in H.
  now destruct (IH H).
Qed.

Lemma isNumber_digits p : isNumber p = true → forallChar isDigit p = true.
Proof. unfold isNumber. now intros [_ ?]%andb_prop. Qed.

Lemma isNumber_no_colon p :
  isNumber p = true → existsChar (λ c, Ascii.eqb c ":") p = false.
Proof.
  intros H%isNumber_digits. eapply forallChar_excludes; [|exact H].
  intros c Hc. now apply digit_facts.
Qed.

(** A [hostname:port] is taken apart as it was put together. *)
Lemma split_host_port h p :
  isNumber p = true →
  beforeLastColon (h +:+ ":" +:+ p) = h ∧ afterLastColon (h +:+ ":" +:+ p) = p.
Proof.
  intros Hp%isNumber_no_colon. unfold beforeLastColon, afterLastColon.
  change (h +:+ ":" +:+ p) with (h +:+ String ":" p).
  now rewrite (splitLast_app ":" h p Hp).
Qed.

(** *** Lower case and trailing newlines *)

Lemma lowerBytes_idem s : lowerBytes (lowerBytes s) = lowerBytes s.
Proof.
  induction s as [|c s IH]; [reflexivity|]. cbn [lowerBytes]. rewrite IH.
  f_equal. by_cases_on_char c.
Qed.

Lemma lowerBytes_exists (f : ascii → bool) s :
  (∀ c, f (lowerByte c) = f c) →
  existsChar f (lowerBytes s) = existsChar f s.
Proof.
  intros Hf. induction s as [|c s IH]; [reflexivity|].
  cbn [lowerBytes existsChar]. now rewrite Hf, IH.
Qed.

Lemma dropTrailingNewlines_cons c s :
  dropTrailingNewlines (String c s) =
  match dropTrailingNewlines s with
  | EmptyString => if isNewline c then EmptyString else String c EmptyString
  | t => String c t
  end.
Proof. reflexivity. Qed.

Lemma dropTrailingNewlines_prefix s :
  ∃ tail, s = dropTrailingNewlines s +:+ tail.
Proof.
  induction s as [|c s [tail IH]]; [now exists EmptyString|].
  rewrite dropTrailingNewlines_cons.
  destruct (dropTrailingNewlines s) as [|d t] eqn:E.
  - destruct (isNewline c).
    + now exists (String c s).
    + exists s. reflexivity.
  - exists tail. rewrite !append_cons. f_equal. exact IH.
Qed.

Lemma dropTrailingNewlines_exists (f : ascii → bool) s :
  existsChar f s = false → existsChar f (dropTrailingNewlines s) = false.
Proof.
  destruct (dropTrailingNewlines_prefix s) as [tail Hs].
  rewrite Hs at 1. rewrite existsChar_app. now intros [? _]%orb_false_elim.
Qed.

Lemma dropTrailingNewlines_clean s :
  existsChar isNewline s = false → dropTrailingNewlines s = s.
Proof.
  induction s as [|c s IH]; [reflexivity|].
  cbn [existsChar]. intros [Hc Hs]%orb_false_elim.
  rewrite dropTrailingNewlines_cons, (IH Hs), Hc. now destruct s.
Qed.

Lemma dropTrailingNewlines_lower s :
  lowerBytes (dropTrailingNewlines s) = dropTrailingNewlines (lowerBytes s).
Proof.
  induction s as [|c s IH]; [reflexivity|].
  cbn [lowerBytes]. rewrite !dropTrailingNewlines_cons, <- IH.
  destruct (dropTrailingNewlines s); cbn [lowerBytes].
  - replace (isNewline (lowerByte c)) with (isNewline c) by by_cases_on_char c.
    now destruct (isNewline c).
  - reflexivity.
Qed.

Lemma lowered_lower s : lowerBytes (lowered s) = lowered s.
Proof.
  unfold lowered. destruct (isEchoOption s); [reflexivity|].
  now rewrite dropTrailingNewlines_lower, lowerBytes_idem.
Qed.

Lemma lowered_exists (f : ascii → bool) s :
  (∀ c, f (lowerByte c) = f c) →
  existsChar f s = false → existsChar f (lowered s) = false.
Proof.
  intros Hf Hs. unfold lowered. destruct (isEchoOption s); [reflexivity|].
  apply dropTrailingNewlines_exists. now rewrite lowerBytes_exists.
Qed.

Lemma isEchoOption_dash s :
  isEchoOption s = true →
  ∃ c rest, s = String "-" (String c rest)
            ∧ forallChar (λ x, Ascii.eqb x "n" || Ascii.eqb x "e" || Ascii.eqb x "E")
                (String c rest) = true.
Proof.
  destruct s as [|d s]; [discriminate|].
  destruct (Ascii.eqb_spec d "-") as [->|Hd].
  - destruct s as [|c rest]; [discriminate|]. eauto.
  - intros H. exfalso. revert H Hd. unfold isEchoOption.
    destruct d as [[] [] [] [] [] [] [] []]; try discriminate. congruence.
Qed.

Lemma isEchoOption_no_dot s :
  isEchoOption s = true → existsChar (λ c, Ascii.eqb c ".") s = false.
Proof.
  intros (c & rest & -> & H)%isEchoOption_dash.
  change (existsChar (λ x, Ascii.eqb x ".") (String c rest) = false).
  eapply forallChar_excludes; [|exact H].
  intros x. by_cases_on_char x.
Qed.

Lemma lowered_plain s :
  existsChar (λ c, Ascii.eqb c ".") s = true →
  existsChar isSpace s = false →
  lowered s = lowerBytes s.
Proof.
  intros Hdot Hsp. unfold lowered.
  destruct (isEchoOption s) eqn:E.
  - apply isEchoOption_no_dot in E. congruence.
  - apply dropTrailingNewlines_clean.
    rewrite lowerBytes_exists by (intros c; by_cases_on_char c).
    eapply (forallChar_excludes (λ c, negb (isSpace c))).
    + intros c. by_cases_on_char c.
    + clear Hdot E. induction s as [|c s IH]; [reflexivity|].
      cbn [existsChar] in Hsp. apply orb_false_elim in Hsp as [Hc Hs].
      cbn [forallChar]. rewrite Hc, (IH Hs). reflexivity.
Qed.

(** *** [parse_url] *)

Lemma existsChar_nonempty (f : ascii → bool) s :
  existsChar f s = true → String.eqb s EmptyString = false.
Proof. now destruct s. Qed.

Lemma parse_url_finish h0 port :
  existsChar (λ c, Ascii.eqb c "/") h0 = false →
  isNumber port = true →
  let hostname := lowered h0 in
  let out :=
    if String.eqb hostname EmptyString
       || negb (existsChar (λ c, Ascii.eqb c ".") hostname)
    then EmptyString
    else hostname +:+ ":" +:+ port in
  out = EmptyString
  ∨ out = hostname +:+ ":" +:+ port
    ∧ hostname ≠ EmptyString
    ∧ existsChar (λ c, Ascii.eqb c ".") hostname = true
    ∧ existsChar (λ c, Ascii.eqb c "/") hostname = false
    ∧ lowerBytes hostname = hostname.
Proof.
  intros Hslash Hport hostname out. subst out.
  destruct (String.eqb_spec hostname EmptyString) as [|Hne]; [now left|].
  destruct (existsChar (λ c, Ascii.eqb c ".") hostname) eqn:Hdot; [|now left].
  right. cbn [orb negb]. repeat split; auto.
  - apply lowered_exists; [|exact Hslash]. intros c. by_cases_on_char c.
  - apply lowered_lower.
Qed.

Lemma parse_url_shape xargs line :
  parse_url xargs line = EmptyString
  ∨ ∃ hostname port,
      parse_url xargs line = hostname +:+ ":" +:+ port
      ∧ isNumber port = true
      ∧ hostname ≠ EmptyString
      ∧ existsChar (λ c, Ascii.eqb c ".") hostname = true
      ∧ existsChar (λ c, Ascii.eqb c "/") hostname = false
      ∧ lowerBytes hostname = hostname.
Proof.
  unfold parse_url. cbv zeta.
  destruct (String.eqb (xargs line) EmptyString || isComment (xargs line));
    [now left|].
  set (u := beforeFirstSlash _).
  assert (Hslash : existsChar (λ c, Ascii.eqb c "/") u = false)
    by apply cutAt_before.
  destruct (existsChar (λ c, Ascii.eqb c ":") u) eqn:Hcolon.
  - set (port := if isNumber (afterLastColon u) then afterLastColon u
                 else DEFAULT_PORT).
    assert (Hport : isNumber port = true).
    { unfold port. now destruct (isNumber (afterLastColon u)) eqn:E. }
    assert (Hh : existsChar (λ c, Ascii.eqb c "/") (beforeLastColon u) = false).
    { unfold beforeLastColon.
      destruct (splitLast ":" u) as [[a b]|] eqn:E; [|exact Hslash].
      apply splitLast_Some in E as [E _]. rewrite E, existsChar_app in Hslash.
      now apply orb_false_elim in Hslash as [? _]. }
    destruct (parse_url_finish (beforeLastColon u) port Hh Hport) as [H|H];
      cbv zeta in H; [now left|right].
    exists (lowered (beforeLastColon u)), port. tauto.
  - destruct (parse_url_finish u DEFAULT_PORT Hslash eq_refl) as [H|H];
      cbv zeta in H; [now left|right].
    exists (lowered u), DEFAULT_PORT. tauto.
Qed.

Lemma cutAt_app_l stop a b :
  existsChar stop a = false →
  cutAt stop (a +:+ b) = (a +:+ (cutAt stop b).1, (cutAt stop b).2).
Proof.
  induction a as [|c a IH].
  { intros _. rewrite !append_nil. now destruct (cutAt stop b). }
  cbn [existsChar]. intros [Hc Ha]%orb_false_elim.
  rewrite append_cons. cbn [cutAt]. now rewrite Hc, (IH Ha).
Qed.

Lemma plainHost_facts h :
  plainHost h = true →
  existsChar (λ c, Ascii.eqb c ".") h = true
  ∧ existsChar isSpace h = false
  ∧ existsChar (λ c, Ascii.eqb c "/") h = false
  ∧ existsChar (λ c, Ascii.eqb c ":") h = false
  ∧ isComment h = false.
Proof.
  unfold plainHost.
  intros [[[[H1 H2]%andb_prop H3]%andb_prop H4]%andb_prop H5]%andb_prop.
  rewrite negb_true_iff in *. auto.
Qed.

(** A plain host does not start with a scheme. *)
Lemma plainHost_no_scheme h r scheme :
  scheme = "http://" ∨ scheme = "https://" →
  plainHost h = true → dropPrefix scheme (h +:+ r) = h +:+ r.
Proof.
  intros Hscheme (Hdot & _ & _ & Hcolon & _)%plainHost_facts.
  unfold dropPrefix.
  destruct (stripPrefix scheme (h +:+ r)) as [r'|] eqn:E; [|reflexivity].
  exfalso. apply stripPrefix_Some in E.
  apply (f_equal (λ s, (cutAt (λ c, Ascii.eqb c ":") s).1)) in E.
  rewrite (cutAt_app_l _ h r Hcolon) in E. cbn [fst] in E.
  assert (Hno : existsChar (λ c, Ascii.eqb c ".")
                  (h +:+ (cutAt (λ c, Ascii.eqb c ":") r).1) = false).
  { rewrite E. destruct Hscheme as [-> | ->]; reflexivity. }
  rewrite existsChar_app, Hdot in Hno. discriminate.
Qed.

Lemma isComment_host h r :
  existsChar (λ c, Ascii.eqb c ".") h = true →
  existsChar isSpace h = false →
  isComment (h +:+ r) = isComment h.
Proof.
  destruct h as [|c h]; [discriminate|]. intros _.
  cbn [existsChar]. intros [Hc _]%orb_false_elim.
  rewrite append_cons. cbn [isComment]. now rewrite Hc.
Qed.

(** *** The retry loop *)

Section Loop.
Context (RETRIES : Z) (OUTPUT_DIR : string) (curl : string → Z → Answer)
  (messageOf : string → string).
Context (host_param output_file timestamp : string).

(** What a run of the loop leaves: a verdict with its file and its
    count, or nothing but requests and sleeps. *)
Lemma attempts_verdict fuel :
  ∀ attempt sh sh' result,
    attempts RETRIES curl messageOf fuel host_param output_file timestamp attempt sh = (sh', result) →
    (length (requests sh') ≤ length (requests sh) + fuel)%nat
    ∧ match result with
      | Some status =>
          is_Some (files sh' !! output_file)
          ∧ (∀ other, other ≠ output_file →
                      files sh' !! other = files sh !! other)
          ∧ (status = 0 ∧ success_count sh' = S (success_count sh)
               ∧ failed_count sh' = failed_count sh
             ∨ status = 1 ∧ success_count sh' = success_count sh
               ∧ failed_count sh' = S (failed_count sh))
      | None =>
          files sh' = files sh ∧ success_count sh' = success_count sh
          ∧ failed_count sh' = failed_count sh
      end.
Proof.
  induction fuel as [|fuel IH]; intros attempt sh sh' result; cbn [attempts].
  { intros [= <- <-]. split; [lia|auto]. }
  destruct (attempt <=? RETRIES); [|intros [= <- <-]; split; [lia|auto]].
  destruct (String.eqb (http_code (curl host_param attempt)) "200").
  { intros [= <- <-]. simpl. split; [lia|].
    split; [rewrite lookup_insert_eq; eauto|].
    split; [intros other Hne; now rewrite lookup_insert_ne|auto]. }
  destruct (String.eqb (http_code (curl host_param attempt)) "422").
  { intros [= <- <-]. simpl. split; [lia|].
    split; [rewrite lookup_insert_eq; eauto|].
    split; [intros other Hne; now rewrite lookup_insert_ne|auto]. }
  intros H. apply IH in H as [Hreq H].
  destruct (attempt <? RETRIES); simpl in *; (split; [lia|exact H]).
Qed.

(** The seconds slept, added up. *)
Lemma attempts_sleep fuel :
  ∀ attempt sh sh' result,
    1 ≤ attempt →
    attempts RETRIES curl messageOf fuel host_param output_file timestamp attempt sh = (sh', result) →
    foldr Z.add 0 (slept sh') + attempt * (attempt - 1)
    ≤ foldr Z.add 0 (slept sh)
      + Z.max (attempt * (attempt - 1)) (RETRIES * (RETRIES - 1)).
Proof.
  induction fuel as [|fuel IH]; intros attempt sh sh' result Hpos; cbn [attempts].
  { intros [= <- <-]. lia. }
  destruct (attempt <=? RETRIES); [|intros [= <- <-]; lia].
  destruct (String.eqb (http_code (curl host_param attempt)) "200");
    [intros [= <- <-]; simpl; lia|].
  destruct (String.eqb (http_code (curl host_param attempt)) "422");
    [intros [= <- <-]; simpl; lia|].
  intros H. apply IH in H; [|lia].
  destruct (Z.ltb_spec attempt RETRIES); simpl in H; nia.
Qed.

(** [n] answers in a row that end nothing: the loop goes on after them,
    having slept after each but the last attempt allowed. *)
Lemma attempts_indecisive n :
  ∀ fuel attempt sh,
    attempt + Z.of_nat n ≤ RETRIES + 1 →
    (∀ i, attempt ≤ i < attempt + Z.of_nat n →
          decisive (curl host_param i) = false) →
    attempts RETRIES curl messageOf (n + fuel) host_param output_file timestamp attempt sh
    = attempts RETRIES curl messageOf fuel host_param output_file timestamp (attempt + Z.of_nat n)
        {| files := files sh; success_count := success_count sh;
           failed_count := failed_count sh;
           slept :=
             reverse ((λ i, i * 2)
                      <$> filter (λ i, i < RETRIES) (seqZ attempt (Z.of_nat n)))
             ++ slept sh;
           requests :=
             reverse ((λ i, (host_param, i)) <$> seqZ attempt (Z.of_nat n))
             ++ requests sh |}.
Proof.
  induction n as [|n IH]; intros fuel attempt sh Hle Hind.
  { simpl. rewrite Z.add_0_r. now destruct sh. }
  rewrite Nat2Z.inj_succ in *.
  cbn [Nat.add attempts].
  destruct (Z.leb_spec attempt RETRIES); [|lia].
  assert (Hd : decisive (curl host_param attempt) = false) by (apply Hind; lia).
  unfold decisive in Hd. apply orb_false_elim in Hd as [-> ->].
  assert (Hle' : attempt + 1 + Z.of_nat n ≤ RETRIES + 1) by lia.
  assert (Hind' : ∀ i, attempt + 1 ≤ i < attempt + 1 + Z.of_nat n →
                       decisive (curl host_param i) = false)
    by (intros i Hi; apply Hind; lia).
  rewrite (IH fuel (attempt + 1) _ Hle' Hind').
  rewrite (seqZ_cons attempt (Z.succ (Z.of_nat n))) by lia.
  replace (Z.pred (Z.succ (Z.of_nat n))) with (Z.of_nat n) by lia.
  replace (attempt + Z.succ (Z.of_nat n)) with (attempt + 1 + Z.of_nat n) by lia.
  replace (Z.succ attempt) with (attempt + 1) by lia.
  f_equal. rewrite fmap_cons, reverse_cons, <- app_assoc.
  destruct (Z.ltb_spec attempt RETRIES).
  - rewrite filter_cons_True by assumption.
    rewrite fmap_cons, reverse_cons, <- app_assoc. reflexivity.
  - rewrite filter_cons_False by lia. reflexivity.
Qed.

Lemma filter_all (P : Z → Prop) `{∀ i, Decision (P i)} l :
  Forall P l → filter P l = l.
Proof.
  induction 1 as [|x l Hx Hl IH]; [reflexivity|].
  now rewrite filter_cons_True, IH.
Qed.

Lemma filter_before n :
  n ≤ RETRIES → filter (λ i, i < RETRIES) (seqZ 1 (n - 1)) = seqZ 1 (n - 1).
Proof.
  intros Hn. apply filter_all. apply Forall_seqZ. intros i Hi. lia.
Qed.

Lemma filter_upto :
  filter (λ i, i < RETRIES) (seqZ 1 RETRIES) = seqZ 1 (RETRIES - 1).
Proof.
  destruct (Z.le_gt_cases RETRIES 0) as [Hle|Hgt].
  { rewrite !seqZ_nil by lia. reflexivity. }
  assert (Hs : seqZ 1 RETRIES = seqZ 1 (RETRIES - 1) ++ [RETRIES]).
  { transitivity (seqZ 1 ((RETRIES - 1) + 1)); [f_equal; lia|].
    rewrite seqZ_app by lia. f_equal.
    replace (1 + (RETRIES - 1)) with RETRIES by lia.
    rewrite seqZ_cons by lia. now rewrite seqZ_nil by lia. }
  rewrite Hs, filter_app.
  rewrite filter_all by (apply Forall_seqZ; intros i Hi; lia).
  rewrite filter_cons_False by lia. apply app_nil_r.
Qed.

End Loop.

(** *** One url *)

Section ScanUrl.
Context (RETRIES : Z) (OUTPUT_DIR : string) (curl : string → Z → Answer)
  (messageOf : string → string).

Lemma scan_url_counts hostname port timestamp sh :
  let out := scan_url RETRIES OUTPUT_DIR curl messageOf hostname port timestamp sh in
  out.2 = 0 ∧ success_count out.1 = S (success_count sh)
    ∧ failed_count out.1 = failed_count sh
  ∨ out.2 = 1 ∧ success_count out.1 = success_count sh
    ∧ failed_count out.1 = S (failed_count sh).
Proof.
  intros out. subst out. unfold scan_url. cbv zeta.
  match goal with
  | |- context [attempts ?r ?c ?m ?f ?h ?o ?t ?a ?s] =>
      destruct (attempts r c m f h o t a s) as [sh' result] eqn:E
  end.
  apply attempts_verdict in E as [_ Hv].
  destruct result as [status|]; simpl.
  - now destruct Hv as (_ & _ & Hcount).
  - destruct Hv as (_ & Hs & Hf). right. auto.
Qed.

Lemma seqZ_to_nat a n : seqZ a (Z.of_nat (Z.to_nat n)) = seqZ a n.
Proof.
  destruct (Z.le_gt_cases 0 n); [now rewrite Z2Nat.id|].
  rewrite !seqZ_nil by lia. reflexivity.
Qed.

End ScanUrl.

(** *** The whole run *)

Section Run.
Context (RETRIES : Z) (OUTPUT_DIR : string) (curl : string → Z → Answer)
  (messageOf : string → string) (date : nat → string).

Lemma invocations_counts items :
  ∀ n sh sh' statuses,
    invocations RETRIES OUTPUT_DIR curl messageOf date n items sh
    = (sh', statuses) →
    length statuses = length items
    ∧ (success_count sh' + failed_count sh'
       = success_count sh + failed_count sh + length items)%nat
    ∧ (forallb (Z.eqb 0) statuses = true →
       failed_count sh' = failed_count sh)
    ∧ (forallb (Z.eqb 0) statuses = false →
       (failed_count sh < failed_count sh')%nat).
Proof.
  induction items as [|item items IH]; intros n sh sh' statuses; cbn [invocations].
  { intros [= <- <-]. simpl. repeat split; auto; try lia; discriminate. }
  pose proof (scan_url_counts RETRIES OUTPUT_DIR curl messageOf
                (beforeLastColon item) (afterLastColon item) (date n) sh) as Hv.
  cbv zeta in Hv. fold (process_parsed_url RETRIES OUTPUT_DIR curl messageOf
                          item (date n) sh) in Hv.
  destruct (process_parsed_url RETRIES OUTPUT_DIR curl messageOf item (date n) sh)
    as [sh1 status].
  destruct (invocations RETRIES OUTPUT_DIR curl messageOf date (S n) items sh1)
    as [sh2 rest] eqn:E.
  apply IH in E as (Hlen & Hsum & Hok & Hbad).
  intros [= <- <-]. simpl in *.
  destruct Hv as [(-> & Hs & Hf)|(-> & Hs & Hf)]; simpl.
  - repeat split; try lia.
    + intros H. rewrite (Hok H). lia.
    + intros H. specialize (Hbad H). lia.
  - repeat split; try lia; try discriminate.
    intros _. destruct (forallb (Z.eqb 0) rest) eqn:Er.
    + rewrite (Hok eq_refl). lia.
    + specialize (Hbad eq_refl). lia.
Qed.

End Run.

End ScriptFacts.

Import Js SiteModel JsFacts SiteFacts Script ScriptFacts.

(** X19. What [parse_url] prints is empty or [hostname:port] with a port
    made of digits and a host name that is not empty, holds a dot and no
    slash and has no upper-case ASCII letter; [process_parsed_url] takes it
    apart, at the last colon, into that host name and that port. *)
Theorem parse_url_yields_host_and_port xargs line :
  parse_url xargs line = EmptyString
  ∨ ∃ hostname port,
      parse_url xargs line = hostname +:+ ":" +:+ port
      ∧ isNumber port = true
      ∧ hostname ≠ EmptyString
      ∧ SiteModel.existsChar (λ c, Ascii.eqb c ".") hostname = true
      ∧ SiteModel.existsChar (λ c, Ascii.eqb c "/") hostname = false
      ∧ lowerBytes hostname = hostname
      ∧ beforeLastColon (parse_url xargs line) = hostname
      ∧ afterLastColon (parse_url xargs line) = port.
Proof.
  destruct (ScriptFacts.parse_url_shape xargs line)
    as [H|(hostname & port & H & Hport & Hrest)]; [now left|right].
  exists hostname, port. rewrite H.
  destruct (ScriptFacts.split_host_port hostname port Hport) as [-> ->].
  tauto.
Qed.

(** X20. The forms of the usage text: a plain host, with or without
    [http://] or [https://] before it, a port after it and a path after
    that, is brought to the lower-cased host and its port, 443 when none
    is given. *)
Theorem parse_url_documented_forms xargs scheme h port tail :
  let line := scheme +:+ h +:+ from_option (λ p, ":" +:+ p) EmptyString port
              +:+ tail in
  scheme = EmptyString ∨ scheme = "http://" ∨ scheme = "https://" →
  plainHost h = true →
  from_option isNumber true port = true →
  tail = EmptyString ∨ (∃ rest, tail = String "/" rest) →
  xargs line = line →
  parse_url xargs line = lowerBytes h +:+ ":" +:+ default DEFAULT_PORT port.
Proof.
  intros line Hscheme Hplain Hport Htail Hx.
  pose proof (plainHost_facts h Hplain) as (Hdot & Hsp & Hslash & Hcolon & Hcomment).
  set (portpart := from_option (λ p, ":" +:+ p) EmptyString port) in *.
  set (rest := h +:+ portpart +:+ tail) in *.
  assert (Hrest : String.eqb rest EmptyString = false).
  { apply (existsChar_nonempty (λ c, Ascii.eqb c ".")).
    unfold rest. now rewrite existsChar_app, Hdot. }
  assert (Hrc : isComment rest = false).
  { unfold rest. now rewrite isComment_host. }
  assert (Hstripped :
    dropPrefix "https://" (dropPrefix "http://" line) = rest
    ∧ String.eqb line EmptyString || isComment line = false).
  { unfold line. fold rest.
    destruct Hscheme as [-> | [-> | ->]].
    - rewrite append_nil, Hrest, Hrc.
      unfold rest. now rewrite !plainHost_no_scheme by auto.
    - split; [|reflexivity].
      change (dropPrefix "http://" ("http://" +:+ rest)) with rest.
      unfold rest. now rewrite plainHost_no_scheme by auto.
    - split; reflexivity. }
  destruct Hstripped as [Hstripped Hskip].
  unfold parse_url. cbv zeta. rewrite Hx, Hskip, Hstripped.
  assert (Hport' : existsChar (λ c, Ascii.eqb c "/") portpart = false).
  { unfold portpart. destruct port as [p|]; [|reflexivity]. simpl in Hport.
    change (existsChar (λ c, Ascii.eqb c "/") (String ":" p) = false).
    cbn [existsChar]. simpl (Ascii.eqb ":" "/"). cbn [orb].
    eapply forallChar_excludes; [|apply isNumber_digits, Hport].
    intros c Hc. now apply digit_facts. }
  assert (Hcut : beforeFirstSlash rest = h +:+ portpart).
  { unfold beforeFirstSlash, rest. rewrite <- append_assoc.
    rewrite (cutAt_app (λ c, Ascii.eqb c "/") (h +:+ portpart) tail).
    - reflexivity.
    - now rewrite existsChar_app, Hslash, Hport'.
    - destruct Htail as [->|[r ->]]; [now left|right]. eauto. }
  rewrite Hcut.
  assert (Hlow : lowered h = lowerBytes h) by now apply lowered_plain.
  assert (Hne : String.eqb (lowerBytes h) EmptyString = false).
  { apply (existsChar_nonempty (λ c, Ascii.eqb c ".")).
    rewrite lowerBytes_exists; [exact Hdot|]. intros c. by_cases_on_char c. }
  assert (Hd : existsChar (λ c, Ascii.eqb c ".") (lowerBytes h) = true).
  { rewrite lowerBytes_exists; [exact Hdot|]. intros c. by_cases_on_char c. }
  unfold portpart. destruct port as [p|]; cbn [from_option default id].
  - simpl in Hport.
    assert (Hc : existsChar (λ c, Ascii.eqb c ":") (h +:+ ":" +:+ p) = true).
    { rewrite existsChar_app. apply orb_true_intro. right. reflexivity. }
    rewrite Hc. destruct (split_host_port h p Hport) as [-> ->].
    rewrite Hport, Hlow, Hne, Hd. reflexivity.
  - rewrite append_empty_r, Hcolon, Hlow, Hne, Hd. reflexivity.
Qed.

Lemma parse_url_documented_forms_witness :
  parse_url Js.trim "https://Example.com:8443/path" = "example.com:8443"
  ∧ parse_url Js.trim "example.com" = "example.com:443".
Proof.
  split.
  - apply (parse_url_documented_forms Js.trim "https://" "Example.com"
             (Some "8443") "/path"); try reflexivity; eauto.
  - apply (parse_url_documented_forms Js.trim EmptyString "example.com" None
             EmptyString); try reflexivity; eauto.
Defined.

(** X21. Every url gets one verdict: [process_parsed_url] returns 0 and
    adds a line to the success count, or returns 1 and adds a line to the
    failure count; it writes the output file of the url and no other file,
    makes at most [RETRIES] requests and sleeps no longer in all than the
    product of [RETRIES] and [RETRIES - 1] in seconds. *)
Theorem each_url_gets_one_verdict RETRIES OUTPUT_DIR curl messageOf
    parsed timestamp sh :
  let out :=
    process_parsed_url RETRIES OUTPUT_DIR curl messageOf parsed timestamp sh in
  let path := OUTPUT_DIR +:+ "/" +:+ beforeLastColon parsed +:+ "_" +:+ timestamp
              +:+ "_" +:+ afterLastColon parsed +:+ ".json" in
  (out.2 = 0 ∧ success_count out.1 = S (success_count sh)
     ∧ failed_count out.1 = failed_count sh
   ∨ out.2 = 1 ∧ success_count out.1 = success_count sh
     ∧ failed_count out.1 = S (failed_count sh))
  ∧ is_Some (files out.1 !! path)
  ∧ (∀ other, other ≠ path → files out.1 !! other = files sh !! other)
  ∧ (length (requests out.1) ≤ length (requests sh) + Z.to_nat RETRIES)%nat
  ∧ foldr Z.add 0 (slept out.1)
    ≤ foldr Z.add 0 (slept sh) + RETRIES * (RETRIES - 1).
Proof.
  intros out path. subst out. unfold process_parsed_url, scan_url. cbv zeta.
  fold path.
  destruct (attempts RETRIES curl messageOf (Z.to_nat RETRIES)
              (beforeLastColon parsed +:+ ":" +:+ afterLastColon parsed)
              path timestamp 1 sh)
    as [sh' result] eqn:E.
  pose proof (attempts_verdict RETRIES curl messageOf _ _ _ _ _ _ _ _ E)
    as [Hreq Hv].
  pose proof (attempts_sleep RETRIES curl messageOf _ _ _ _ 1 _ _ _
                ltac:(lia) E) as Hsl.
  destruct result as [status|]; simpl.
  - destruct Hv as (Hfile & Hother & Hcount).
    repeat split; auto. nia.
  - destruct Hv as (Hfiles & Hs & Hf).
    split; [right; auto|]. rewrite Hfiles.
    split; [rewrite lookup_insert_eq; eauto|].
    split; [intros other Hne; now rewrite lookup_insert_ne|].
    split; [exact Hreq|nia].
Qed.

(** X22. The first answer with status 200 or 422 ends the retries: the
    attempts before it were each followed by a sleep of twice their number
    in seconds, no request follows it, a 200 saves the response and returns
    0, and a 422 is not retried: it saves a validation error and returns
    1. *)
Theorem decisive_answer_ends_the_retries RETRIES OUTPUT_DIR curl messageOf
    hostname port timestamp sh k :
  let host_param := hostname +:+ ":" +:+ port in
  let path := OUTPUT_DIR +:+ "/" +:+ hostname +:+ "_" +:+ timestamp +:+ "_"
              +:+ port +:+ ".json" in
  let out := scan_url RETRIES OUTPUT_DIR curl messageOf hostname port timestamp sh in
  1 ≤ k ≤ RETRIES →
  (∀ i, 1 ≤ i < k → decisive (curl host_param i) = false) →
  decisive (curl host_param k) = true →
  requests out.1 = reverse ((λ i, (host_param, i)) <$> seqZ 1 k) ++ requests sh
  ∧ slept out.1 = reverse ((λ i, i * 2) <$> seqZ 1 (k - 1)) ++ slept sh
  ∧ (http_code (curl host_param k) = "200" →
       out.2 = 0
       ∧ files out.1 !! path
         = Some (SavedResponse (response (curl host_param k))))
  ∧ (http_code (curl host_param k) ≠ "200" →
       out.2 = 1
       ∧ files out.1 !! path
         = Some (ValidationError (messageOf (response (curl host_param k)))
                   host_param timestamp)).
Proof.
  intros host_param path out Hk Hbefore Hat. subst out. unfold scan_url.
  cbv zeta. fold host_param path.
  replace (Z.to_nat RETRIES)
    with (Z.to_nat (k - 1) + S (Z.to_nat (RETRIES - k)))%nat by lia.
  rewrite (attempts_indecisive RETRIES curl messageOf host_param path timestamp)
    by (rewrite ?Z2Nat.id by lia; try (intros i Hi; apply Hbefore); lia).
  rewrite seqZ_to_nat, (filter_before RETRIES k) by lia.
  rewrite Z2Nat.id by lia. replace (1 + (k - 1)) with k by lia.
  cbn [attempts]. destruct (Z.leb_spec k RETRIES); [|lia].
  assert (Hreq : ∀ tail : list (string * Z),
            (host_param, k) :: reverse ((λ i, (host_param, i)) <$> seqZ 1 (k - 1))
              ++ tail
            = reverse ((λ i, (host_param, i)) <$> seqZ 1 k) ++ tail).
  { intros tail.
    assert (Hs : seqZ 1 k = seqZ 1 (k - 1) ++ [k]).
    { transitivity (seqZ 1 ((k - 1) + 1)); [f_equal; lia|].
      rewrite seqZ_app by lia. f_equal.
      replace (1 + (k - 1)) with k by lia.
      rewrite seqZ_cons by lia. now rewrite seqZ_nil by lia. }
    now rewrite Hs, fmap_app, reverse_app. }
  unfold decisive in Hat.
  destruct (String.eqb_spec (http_code (curl host_param k)) "200") as [H200|H200].
  - simpl. rewrite Hreq, lookup_insert_eq. repeat split; auto; congruence.
  - simpl in Hat.
    destruct (String.eqb_spec (http_code (curl host_param k)) "422");
      [|discriminate].
    simpl. rewrite Hreq, lookup_insert_eq. repeat split; auto; congruence.
Qed.

Lemma decisive_answer_ends_the_retries_witness :
  let out := scan_url 5 "results" Trial.recovering Trial.noMessage
               "mdn.dev" "443" "20240812_082018" freshShell in
  requests out.1 = [("mdn.dev:443", 3); ("mdn.dev:443", 2); ("mdn.dev:443", 1)]
  ∧ slept out.1 = [4; 2].
Proof.
  destruct (decisive_answer_ends_the_retries 5 "results" Trial.recovering
              Trial.noMessage "mdn.dev" "443" "20240812_082018" freshShell 3)
    as (Hreq & Hsl & _).
  - lia.
  - intros i Hi. unfold Trial.recovering.
    destruct (Z.ltb_spec i 3); [reflexivity|lia].
  - reflexivity.
  - split; [exact Hreq|exact Hsl].
Defined.

(** X23. When no attempt is answered with 200 or 422, [RETRIES] requests
    are made, with a sleep after each but the last, the file of the url
    records the failure and 1 is returned; with [RETRIES] at 0 or below
    that happens without any request. *)
Theorem exhausted_retries_are_recorded RETRIES OUTPUT_DIR curl messageOf
    hostname port timestamp sh :
  let host_param := hostname +:+ ":" +:+ port in
  let path := OUTPUT_DIR +:+ "/" +:+ hostname +:+ "_" +:+ timestamp +:+ "_"
              +:+ port +:+ ".json" in
  let out := scan_url RETRIES OUTPUT_DIR curl messageOf hostname port timestamp sh in
  (∀ i, 1 ≤ i ≤ RETRIES → decisive (curl host_param i) = false) →
  out.2 = 1
  ∧ files out.1 !! path = Some (ScanFailed RETRIES host_param timestamp)
  ∧ failed_count out.1 = S (failed_count sh)
  ∧ requests out.1
    = reverse ((λ i, (host_param, i)) <$> seqZ 1 RETRIES) ++ requests sh
  ∧ slept out.1 = reverse ((λ i, i * 2) <$> seqZ 1 (RETRIES - 1)) ++ slept sh.
Proof.
  intros host_param path out Hall. subst out. unfold scan_url.
  cbv zeta. fold host_param path.
  destruct (Z.le_gt_cases RETRIES 0) as [Hle|Hgt].
  - replace (Z.to_nat RETRIES) with 0%nat by lia. cbn [attempts]. simpl.
    rewrite lookup_insert_eq, !seqZ_nil by lia. auto.
  - rewrite <- (Nat.add_0_r (Z.to_nat RETRIES)).
    rewrite (attempts_indecisive RETRIES curl messageOf host_param path timestamp)
      by (rewrite ?Z2Nat.id by lia; try (intros i Hi; apply Hall); lia).
    rewrite seqZ_to_nat, (filter_upto RETRIES).
    cbn [attempts]. simpl. rewrite lookup_insert_eq. auto.
Qed.

Lemma exhausted_retries_are_recorded_witness :
  let out := scan_url 3 "results" Trial.unreachable Trial.noMessage
               "mdn.dev" "443" "20240812_082018" freshShell in
  out.2 = 1 ∧ slept out.1 = [4; 2] ∧ length (requests out.1) = 3%nat.
Proof.
  destruct (exhausted_retries_are_recorded 3 "results" Trial.unreachable
              Trial.noMessage "mdn.dev" "443" "20240812_082018" freshShell)
    as (Hst & _ & _ & Hreq & Hsl).
  - intros i _. reflexivity.
  - split; [exact Hst|]. split; [exact Hsl|]. now rewrite Hreq.
Defined.

(** X24. The script prints its summary only when every scan succeeded.
    With no valid url it exits with status 1; once an invocation has
    recorded a failure [run_scans] ends with status 123 and, under
    [set -e], the script with it; when only [xargs] itself fails the status
    is 1. A summary that is printed therefore reports no failure and as
    many successes as invocations. *)
Theorem summary_only_without_failures RETRIES OUTPUT_DIR curl messageOf
    xargs xargs_items date lines :
  let urls := valid_urls xargs lines in
  let ran := invocations RETRIES OUTPUT_DIR curl messageOf date 0
               (xargs_items urls).1 freshShell in
  match scan_and_summarise RETRIES OUTPUT_DIR curl messageOf xargs xargs_items
          date lines with
  | Summary total successful failed =>
      urls ≠ [] ∧ failed_count ran.1 = 0%nat
      ∧ failed = 0%nat ∧ successful = total
      ∧ total = length (xargs_items urls).1
  | Exit status =>
      urls = [] ∧ status = 1
      ∨ urls ≠ [] ∧ (0 < failed_count ran.1)%nat ∧ status = 123
      ∨ urls ≠ [] ∧ failed_count ran.1 = 0%nat
        ∧ (xargs_items urls).2 = false ∧ status = 1
  end.
Proof.
  intros urls ran. subst ran. unfold scan_and_summarise, run_scans. cbv zeta.
  fold urls. destruct urls as [|url urls]; [simpl; auto|].
  cbn [length Nat.eqb].
  destruct (xargs_items (url :: urls)) as [items ok]. cbn [fst snd].
  destruct (invocations RETRIES OUTPUT_DIR curl messageOf date 0 items freshShell)
    as [sh statuses] eqn:E.
  apply invocations_counts in E as (Hlen & Hsum & Hok & Hbad).
  cbn [fst]. simpl in Hsum, Hok, Hbad.
  destruct (forallb (Z.eqb 0) statuses).
  - specialize (Hok eq_refl). destruct ok; simpl.
    + repeat split; try lia; try discriminate.
    + right. right. repeat split; auto; try discriminate.
  - specialize (Hbad eq_refl). simpl. right. left.
    repeat split; auto; try discriminate.
Qed.
